(** * hichi-chat-client: the chat socket hook, its reducer and its
      connection manager

    A shallow embedding of [src/hooks/useChatSocket.ts] (with the types of
    [src/types/chat.ts]) and the properties of the synchronisation core:
    backoff, ordering of buckets, message status, uniqueness of [localId],
    read confirmations, acknowledgements, close codes and sending.

    Conventions of the embedding:
    - a JS [number] that holds a timestamp, a delay or a close code is a [Z];
    - a [Record<string, T>] is a [gmap string T] (the properties never depend on
      the enumeration order of keys);
    - an optional field ([serverId?: string]) is an [option];
    - [Array.prototype.sort] with the comparator [a.timestamp - b.timestamp]
      is the stable sort by timestamp (ECMAScript requires stability), written
      as a stable insertion sort;
    - the refs of the hook ([wsRef], [reconnectAttemptsRef], ...) are the
      fields of one record that every callback threads; what a callback does
      to the outside world (frames sent, timers armed, sockets opened or
      closed) is appended to a trace of effects. *)

From stdpp Require Import gmap strings list sorting pretty.

Open Scope Z_scope.

(* ===================================================================== *)
(** * Domain types ([src/types/chat.ts]) *)
(* ===================================================================== *)

Inductive MessageStatus := Sending | Sent | Delivered | Read | Failed.

Inductive ConnectionStatus :=
  Idle | Connecting | Connected | Reconnecting | Disconnected | AuthFailed.

Inductive UserStatus := Online | Offline | Away.

#[global] Instance MessageStatus_eq_dec : EqDecision MessageStatus.
Proof. solve_decision. Defined.
#[global] Instance ConnectionStatus_eq_dec : EqDecision ConnectionStatus.
Proof. solve_decision. Defined.
#[global] Instance UserStatus_eq_dec : EqDecision UserStatus.
Proof. solve_decision. Defined.

(** [interface ChatMessage]. *)
Record ChatMessage := mkChatMessage {
  localId : string;
  serverId : option string;
  chatId : string;
  senderUsername : string;
  receiverUsername : string;
  text : string;
  timestamp : Z;
  status : MessageStatus;
}.

#[global] Instance ChatMessage_eq_dec : EqDecision ChatMessage.
Proof. solve_decision. Defined.

(** [interface WireMessage]: a message as the server frames carry it. *)
Record WireMessage := mkWireMessage {
  w_id : string;
  w_localId : option string;
  w_chatId : string;
  w_from : string;
  w_to : string;
  w_text : string;
  w_timestamp : Z;
}.

(** [{ ...m, status }] *)
Definition with_status (st : MessageStatus) (m : ChatMessage) : ChatMessage :=
  {| localId := localId m; serverId := serverId m; chatId := chatId m;
     senderUsername := senderUsername m;
     receiverUsername := receiverUsername m; text := text m;
     timestamp := timestamp m; status := st |}.

(** [{ ...m, serverId: serverMsg.id, status: "sent",
       timestamp: serverMsg.timestamp }] *)
Definition acknowledged (serverMsg : WireMessage) (m : ChatMessage) : ChatMessage :=
  {| localId := localId m; serverId := Some (w_id serverMsg);
     chatId := chatId m; senderUsername := senderUsername m;
     receiverUsername := receiverUsername m; text := text m;
     timestamp := w_timestamp serverMsg; status := Sent |}.

(** [interface SocketState]. *)
Record SocketState := mkSocketState {
  connectionStatus : ConnectionStatus;
  messages : gmap string (list ChatMessage);
  typingPeers : gmap string bool;
  peerStatuses : gmap string UserStatus;
  dbLoaded : bool;
  error : option string;
}.

(** [type SocketAction]. The payload of [MESSAGE_UPDATED] is typed
    [ChatMessage] in the source but is the wire message itself
    ([serverMsg as unknown as ChatMessage]); the reducer reads its [id],
    [chatId] and [timestamp]. *)
Inductive SocketAction :=
| DB_HYDRATED (payload : list ChatMessage)
| CONNECTING
| CONNECTED
| RECONNECTING
| DISCONNECTED
| AUTH_FAILED (payload : string)
| ERROR (payload : string)
| MESSAGE_ADDED (payload : ChatMessage)
| MESSAGE_UPDATED (lid : string) (message : WireMessage)
| MESSAGES_BULK_ADD (payload : list ChatMessage)
| MESSAGES_MARKED_READ (cid : string) (readerUsername : string)
| MESSAGES_READ_BY_PEER (cid : string) (messageIds : list string)
| TYPING_UPDATE (peerUsername : string) (isTyping : bool)
| PEER_STATUS (username : string) (st : UserStatus)
| CLEAR_CHAT (cid : string)
| MESSAGES_UPDATED_STATUS (cid : string) (messageIds : list string)
                          (st : MessageStatus).

(* ===================================================================== *)
(** * Array helpers *)
(* ===================================================================== *)

(** [ids.includes(x)] on an array of strings. *)
Definition includes (ids : list string) (x : string) : bool :=
  existsb (String.eqb x) ids.

(** [bucket.some((m) => m.localId === lid)] *)
Definition has_localId (lid : string) (bucket : list ChatMessage) : bool :=
  existsb (fun m => String.eqb (localId m) lid) bucket.

(** Truthiness of a string: [""] is falsy. *)
Definition truthy (s : string) : bool := negb (String.eqb s "").

(** Truthiness of [string | null | undefined]. *)
Definition truthy_opt (o : option string) : bool :=
  match o with Some s => truthy s | None => false end.

(** Insertion of one message into a bucket sorted by timestamp, before the
    first message that is not older than it. *)
Fixpoint insert_by_timestamp (x : ChatMessage) (l : list ChatMessage)
  : list ChatMessage :=
  match l with
  | [] => [x]
  | y :: l' =>
      if timestamp x <=? timestamp y then x :: y :: l'
      else y :: insert_by_timestamp x l'
  end.

(** [[...bucket].sort((a, b) => a.timestamp - b.timestamp)]: the stable
    sort by timestamp (messages of equal timestamp keep their order). *)
Fixpoint sort_by_timestamp (l : list ChatMessage) : list ChatMessage :=
  match l with
  | [] => []
  | x :: l' => insert_by_timestamp x (sort_by_timestamp l')
  end.

(** [for (const cid in map) map[cid] = [...map[cid]].sort(...)] *)
Definition sort_all (m : gmap string (list ChatMessage))
  : gmap string (list ChatMessage) :=
  sort_by_timestamp <$> m.

(* ===================================================================== *)
(** * The reducer *)
(* ===================================================================== *)

(** One iteration of the [forEach] of [DB_HYDRATED]: create the bucket when
    it is missing, push the message unless its [localId] is found. (The
    source pushes into the array it shares with the previous snapshot; the
    next snapshot, which is what is modelled, holds sorted copies.) *)
Definition hydrate_one (next : gmap string (list ChatMessage))
  (msg : ChatMessage) : gmap string (list ChatMessage) :=
  let next1 :=
    match next !! chatId msg with
    | None => <[chatId msg := []]> next
    | Some _ => next
    end in
  let bucket := default [] (next1 !! chatId msg) in
  if has_localId (localId msg) bucket then next1
  else <[chatId msg := bucket ++ [msg]]> next1.

(** One iteration of the loop of [MESSAGES_BULK_ADD]. *)
Definition bulk_add_one (next : gmap string (list ChatMessage))
  (msg : ChatMessage) : gmap string (list ChatMessage) :=
  let existing := default [] (next !! chatId msg) in
  if has_localId (localId msg) existing then next
  else <[chatId msg := existing ++ [msg]]> next.

(** [if (next[cid]) next[cid] = next[cid].map(f)] *)
Definition map_bucket (f : ChatMessage -> ChatMessage) (cid : string)
  (m : gmap string (list ChatMessage)) : gmap string (list ChatMessage) :=
  match m !! cid with
  | Some bucket => <[cid := map f bucket]> m
  | None => m
  end.

Definition set_messages (s : SocketState)
  (m : gmap string (list ChatMessage)) : SocketState :=
  {| connectionStatus := connectionStatus s; messages := m;
     typingPeers := typingPeers s; peerStatuses := peerStatuses s;
     dbLoaded := dbLoaded s; error := error s |}.

Definition set_connection (s : SocketState) (c : ConnectionStatus)
  (e : option string) : SocketState :=
  {| connectionStatus := c; messages := messages s;
     typingPeers := typingPeers s; peerStatuses := peerStatuses s;
     dbLoaded := dbLoaded s; error := e |}.

(** The predicate of [MESSAGES_UPDATED_STATUS]:
    [(m.serverId && ids.includes(m.serverId)) || ids.includes(m.localId)]. *)
Definition matches_ids (ids : list string) (m : ChatMessage) : bool :=
  match serverId m with
  | Some sid => truthy sid && includes ids sid
  | None => false
  end || includes ids (localId m).

(** [function reducer(state, action)]. *)
Definition reducer (state : SocketState) (action : SocketAction) : SocketState :=
  match action with
  | DB_HYDRATED payload =>
      let nextMsgs := foldl hydrate_one (messages state) payload in
      {| connectionStatus := connectionStatus state;
         messages := sort_all nextMsgs;
         typingPeers := typingPeers state;
         peerStatuses := peerStatuses state;
         dbLoaded := true; error := error state |}
  | CONNECTING => set_connection state Connecting None
  | CONNECTED => set_connection state Connected None
  | RECONNECTING => set_connection state Reconnecting (error state)
  | DISCONNECTED => set_connection state Disconnected (error state)
  | AUTH_FAILED payload => set_connection state AuthFailed (Some payload)
  | ERROR payload =>
      set_connection state (connectionStatus state) (Some payload)
  | MESSAGE_UPDATED lid serverMsg =>
      set_messages state
        (map_bucket
           (fun m => if String.eqb (localId m) lid
                     then acknowledged serverMsg m else m)
           (w_chatId serverMsg) (messages state))
  | MESSAGE_ADDED payload =>
      let cid := chatId payload in
      let existing := default [] (messages state !! cid) in
      if has_localId (localId payload) existing then state
      else set_messages state (<[cid := existing ++ [payload]]> (messages state))
  | MESSAGES_BULK_ADD payload =>
      set_messages state (sort_all (foldl bulk_add_one (messages state) payload))
  | MESSAGES_MARKED_READ cid readerUsername =>
      set_messages state
        (map_bucket
           (fun m => if negb (String.eqb (senderUsername m) readerUsername)
                        && negb (bool_decide (status m = Read))
                     then with_status Read m else m)
           cid (messages state))
  | MESSAGES_READ_BY_PEER cid messageIds =>
      set_messages state
        (map_bucket
           (fun m => if includes messageIds (localId m)
                     then with_status Read m else m)
           cid (messages state))
  | MESSAGES_UPDATED_STATUS cid messageIds st =>
      set_messages state
        (map_bucket
           (fun m => if matches_ids messageIds m then with_status st m else m)
           cid (messages state))
  | TYPING_UPDATE peerUsername isTyping =>
      {| connectionStatus := connectionStatus state;
         messages := messages state;
         typingPeers := <[peerUsername := isTyping]> (typingPeers state);
         peerStatuses := peerStatuses state;
         dbLoaded := dbLoaded state; error := error state |}
  | PEER_STATUS username st =>
      {| connectionStatus := connectionStatus state;
         messages := messages state;
         typingPeers := typingPeers state;
         peerStatuses := <[username := st]> (peerStatuses state);
         dbLoaded := dbLoaded state; error := error state |}
  | CLEAR_CHAT cid => set_messages state (delete cid (messages state))
  end.

(** [const initialState]. *)
Definition initialState : SocketState :=
  {| connectionStatus := Idle; messages := ∅; typingPeers := ∅;
     peerStatuses := ∅; dbLoaded := false; error := None |}.

(** Dispatching a list of actions in order. *)
Definition dispatch_all (s : SocketState) (acts : list SocketAction)
  : SocketState :=
  foldl reducer s acts.

(** The bucket of a conversation, [state.messages[cid] ?? []]. *)
Definition bucket_of (s : SocketState) (cid : string) : list ChatMessage :=
  default [] (messages s !! cid).

(* ===================================================================== *)
(** * Wire frames and effects *)
(* ===================================================================== *)

(** [type ServerFrame]: the inbound frames. *)
Inductive ServerFrame :=
| message_sent (lid : option string) (message : WireMessage)
| new_message (message : WireMessage)
| pending_messages (msgs : list WireMessage) (messageIds : list string)
| history (cid : string) (peer : string) (msgs : list WireMessage)
| typing_start (from : string)
| typing_stop (from : string)
| user_status_change (username : string) (st : UserStatus)
| messages_read (cid : string) (messageIds : list string) (by_ : string)
| pong (ts : Z)
| error_frame (message : string) (code : Z).

(** The outbound frames, as the hook serialises them. *)
Inductive ClientFrame :=
| ping
| send_message (to content lid : string)
| typing_start_to (to : string)
| typing_stop_to (to : string)
| mark_read (to : string) (messageIds : list string)
| ack_pending (ids : list string).

(** [WebSocket.readyState]. *)
Inductive ReadyState := WS_CONNECTING | WS_OPEN | WS_CLOSING | WS_CLOSED.

#[global] Instance ReadyState_eq_dec : EqDecision ReadyState.
Proof. solve_decision. Defined.

(** What a callback does to the outside world, in order. *)
Inductive Effect :=
| SocketOpened                                  (* new WebSocket(url) *)
| SocketClosed (code : Z) (reason : string)     (* ws.close(code, reason) *)
| FrameSent (f : ClientFrame)                   (* ws.send(JSON.stringify f) *)
| ReconnectTimerSet (delay : Z)                 (* setTimeout(connect, delay) *)
| ReconnectTimerCleared
| PingTimerSet (interval : Z)                   (* setInterval(ping, interval) *)
| PingTimerCleared
| TypingTimerSet (peer : string) (delay : Z)
| TypingTimerCleared (peer : string).

Definition MAX_RECONNECT_ATTEMPTS : nat := 6.
Definition PING_INTERVAL_MS : Z := 25000.

(** The hook instance: its two props, the reducer state, its refs and the
    trace of effects so far. [wsRef] holds the ready state of the current
    socket, [reconnectTimerRef] the delay of the timer last armed. The
    socket events below are those of the current socket. *)
Record Hook := mkHook {
  token : option string;
  myUsername : option string;
  state : SocketState;
  wsRef : option ReadyState;
  isMountedRef : bool;
  intentionalCloseRef : bool;
  reconnectAttemptsRef : nat;
  reconnectTimerRef : option Z;
  pingTimerRef : bool;
  effects : list Effect;
}.

Definition set_state (h : Hook) (s : SocketState) : Hook :=
  mkHook (token h) (myUsername h) s (wsRef h) (isMountedRef h)
    (intentionalCloseRef h) (reconnectAttemptsRef h) (reconnectTimerRef h)
    (pingTimerRef h) (effects h).

Definition set_wsRef (h : Hook) (w : option ReadyState) : Hook :=
  mkHook (token h) (myUsername h) (state h) w (isMountedRef h)
    (intentionalCloseRef h) (reconnectAttemptsRef h) (reconnectTimerRef h)
    (pingTimerRef h) (effects h).

Definition set_intentionalClose (h : Hook) (b : bool) : Hook :=
  mkHook (token h) (myUsername h) (state h) (wsRef h) (isMountedRef h)
    b (reconnectAttemptsRef h) (reconnectTimerRef h)
    (pingTimerRef h) (effects h).

Definition set_reconnectAttempts (h : Hook) (n : nat) : Hook :=
  mkHook (token h) (myUsername h) (state h) (wsRef h) (isMountedRef h)
    (intentionalCloseRef h) n (reconnectTimerRef h)
    (pingTimerRef h) (effects h).

Definition set_reconnectTimer (h : Hook) (t : option Z) : Hook :=
  mkHook (token h) (myUsername h) (state h) (wsRef h) (isMountedRef h)
    (intentionalCloseRef h) (reconnectAttemptsRef h) t
    (pingTimerRef h) (effects h).

Definition set_pingTimer (h : Hook) (b : bool) : Hook :=
  mkHook (token h) (myUsername h) (state h) (wsRef h) (isMountedRef h)
    (intentionalCloseRef h) (reconnectAttemptsRef h) (reconnectTimerRef h)
    b (effects h).

(** Appends one effect to the trace. *)
Definition emit (h : Hook) (e : Effect) : Hook :=
  mkHook (token h) (myUsername h) (state h) (wsRef h) (isMountedRef h)
    (intentionalCloseRef h) (reconnectAttemptsRef h) (reconnectTimerRef h)
    (pingTimerRef h) (effects h ++ [e]).

(** [dispatch(action)]: the reducer is applied to the state of the hook. *)
Definition dispatch (h : Hook) (a : SocketAction) : Hook :=
  set_state h (reducer (state h) a).

(** [ws.readyState === WebSocket.OPEN] on the current socket. *)
Definition ws_open (h : Hook) : bool :=
  match wsRef h with Some WS_OPEN => true | _ => false end.

(* ===================================================================== *)
(** * Connection manager *)
(* ===================================================================== *)

(** [const connect = useCallback(() => ...)], up to the installation of the
    handlers, which are the functions [onopen], [onmessage] and [onclose]
    below. *)
Definition connect (h : Hook) : Hook :=
  if negb (truthy_opt (token h)) || negb (truthy_opt (myUsername h))
     || negb (isMountedRef h)
  then h
  else
    let h1 :=
      match wsRef h with
      | Some _ =>
          set_wsRef
            (emit (set_intentionalClose h true) (SocketClosed 1000 "Reconnecting"))
            None
      | None => h
      end in
    let h2 := dispatch h1 CONNECTING in
    let h3 := set_wsRef (emit h2 SocketOpened) (Some WS_CONNECTING) in
    set_intentionalClose h3 false.

(** The delay of the retry scheduled when [attempts] retries have been
    scheduled already: [Math.min(1_000 * Math.pow(2, attempts), 30_000)]. *)
Definition backoff_delay (attempts : nat) : Z :=
  Z.min (1000 * 2 ^ Z.of_nat attempts) 30000.

Definition give_up_message : string :=
  "Could not reconnect after multiple attempts.".

(** [const scheduleReconnect = useCallback(() => ...)]. *)
Definition scheduleReconnect (h : Hook) : Hook :=
  if negb (isMountedRef h) then h
  else if (MAX_RECONNECT_ATTEMPTS <=? reconnectAttemptsRef h)%nat then
    dispatch h (ERROR give_up_message)
  else
    let delay := backoff_delay (reconnectAttemptsRef h) in
    let h1 := set_reconnectAttempts h (S (reconnectAttemptsRef h)) in
    let h2 := dispatch h1 RECONNECTING in
    set_reconnectTimer (emit h2 (ReconnectTimerSet delay)) (Some delay).

(** [ws.onopen]: the socket is open from now on. *)
Definition onopen (h : Hook) : Hook :=
  let h0 := set_wsRef h (option_map (fun _ => WS_OPEN) (wsRef h)) in
  if negb (isMountedRef h0) then h0
  else
    let h1 := set_reconnectAttempts h0 0%nat in
    let h2 := dispatch h1 CONNECTED in
    let h3 := if pingTimerRef h2 then emit h2 PingTimerCleared else h2 in
    set_pingTimer (emit h3 (PingTimerSet PING_INTERVAL_MS)) true.

Definition auth_failed_message : string :=
  "Auth failed. Please sign in again.".

(** The first steps of [ws.onclose] on a mounted hook: the socket is closed
    from now on and the ping interval is cleared. *)
Definition after_ping_cleanup (h : Hook) : Hook :=
  let h0 := set_wsRef h (option_map (fun _ => WS_CLOSED) (wsRef h)) in
  if pingTimerRef h0 then set_pingTimer (emit h0 PingTimerCleared) false else h0.

(** [ws.onclose], given [event.code]. *)
Definition onclose (code : Z) (h : Hook) : Hook :=
  if negb (isMountedRef h) then
    set_wsRef h (option_map (fun _ => WS_CLOSED) (wsRef h))
  else
    let h1 := after_ping_cleanup h in
    if (code =? 4001) || (code =? 1006) then
      dispatch h1 (AUTH_FAILED auth_failed_message)
    else
      let h2 := dispatch h1 DISCONNECTED in
      if negb (code =? 1000) && negb (code =? 1001)
         && negb (intentionalCloseRef h2)
      then scheduleReconnect h2
      else h2.

(** The callback of [setTimeout(connect, delay)]. *)
Definition reconnect_timer_fired (h : Hook) : Hook := connect h.

(** The callback of the ping interval. *)
Definition ping_timer_fired (h : Hook) : Hook :=
  if ws_open h then emit h (FrameSent ping) else h.

(** The body of the effect that mounts the hook. *)
Definition mount (h : Hook) : Hook :=
  let h1 :=
    mkHook (token h) (myUsername h) (state h) (wsRef h) true
      (intentionalCloseRef h) (reconnectAttemptsRef h) (reconnectTimerRef h)
      (pingTimerRef h) (effects h) in
  if negb (truthy_opt (token h1)) || negb (truthy_opt (myUsername h1)) then h1
  else connect h1.

(** The cleanup of that effect: timers cleared, socket closed with code
    1000 as a self-initiated close. (The typing timers are cleared too;
    they live in the trace only.) *)
Definition unmount (h : Hook) : Hook :=
  let h1 :=
    match reconnectTimerRef h with
    | Some _ => emit h ReconnectTimerCleared
    | None => h
    end in
  let h2 := if pingTimerRef h1 then emit h1 PingTimerCleared else h1 in
  let h3 :=
    match wsRef h2 with
    | Some _ => emit h2 (SocketClosed 1000 "Unmounted")
    | None => h2
    end in
  mkHook (token h3) (myUsername h3) (state h3) None false
    true (reconnectAttemptsRef h3) (reconnectTimerRef h3)
    (pingTimerRef h3) (effects h3).

(** A render with other props: the dependencies of the effect change, so
    its cleanup runs and then its body, with the new token and identity. *)
Definition rerender (t u : option string) (h : Hook) : Hook :=
  if bool_decide (t = token h /\ u = myUsername h) then h
  else
    let h1 := unmount h in
    mount (mkHook t u (state h1) (wsRef h1) (isMountedRef h1)
             (intentionalCloseRef h1) (reconnectAttemptsRef h1)
             (reconnectTimerRef h1) (pingTimerRef h1) (effects h1)).

(** [const reconnect = useCallback(() => ...)]: the manual retry. *)
Definition reconnect (h : Hook) : Hook :=
  connect (set_reconnectAttempts h 0%nat).

(* ===================================================================== *)
(** * Frames, local actions and hydration *)
(* ===================================================================== *)

(** The identity the handlers were created with. [connect] installs the
    handlers only when [myUsername] is truthy, so the default is never
    used by a handler of a socket that exists. *)
Definition me (h : Hook) : string := default "" (myUsername h).

(** The message built from a [new_message] or [pending_messages] entry. *)
Definition incoming (self : string) (msg : WireMessage) : ChatMessage :=
  {| localId := w_id msg; serverId := None; chatId := w_chatId msg;
     senderUsername := w_from msg; receiverUsername := self;
     text := w_text msg; timestamp := w_timestamp msg;
     status := Delivered |}.

(** The message built from one entry of a [history] frame. *)
Definition historical (self cid peer : string) (m : WireMessage) : ChatMessage :=
  {| localId := w_id m; serverId := None; chatId := cid;
     senderUsername := w_from m;
     receiverUsername := if String.eqb (w_from m) self then peer else self;
     text := w_text m; timestamp := w_timestamp m;
     status := if String.eqb (w_from m) self then Sent else Delivered |}.

(** The text of the global error of an [error] frame:
    [`[${data.code}] ${data.message}`]. *)
Definition error_text (code : Z) (message : string) : string :=
  "[" +:+ pretty code +:+ "] " +:+ message.

(** [ws.onmessage]; [None] stands for a frame that [JSON.parse] rejects. *)
Definition onmessage (data : option ServerFrame) (h : Hook) : Hook :=
  if negb (isMountedRef h) then h
  else
    match data with
    | None => h
    | Some (message_sent lid serverMsg) =>
        dispatch h (MESSAGE_UPDATED (default "" lid) serverMsg)
    | Some (new_message msg) =>
        dispatch h (MESSAGE_ADDED (incoming (me h) msg))
    | Some (pending_messages wmsgs messageIds) =>
        let msgs := map (incoming (me h)) wmsgs in
        let h1 := foldl (fun h' m => dispatch h' (MESSAGE_ADDED m)) h msgs in
        emit h1 (FrameSent (ack_pending messageIds))
    | Some (history cid peer hist) =>
        dispatch h (MESSAGES_BULK_ADD (map (historical (me h) cid peer) hist))
    | Some (messages_read cid messageIds _) =>
        dispatch h (MESSAGES_UPDATED_STATUS cid messageIds Read)
    | Some (typing_start from) =>
        let h1 := dispatch h (TYPING_UPDATE from true) in
        emit (emit h1 (TypingTimerCleared from)) (TypingTimerSet from 3000)
    | Some (typing_stop from) =>
        dispatch (emit h (TypingTimerCleared from)) (TYPING_UPDATE from false)
    | Some (user_status_change username st) =>
        dispatch h (PEER_STATUS username st)
    | Some (pong _) => h
    | Some (error_frame message code) =>
        dispatch h (ERROR (error_text code message))
    end.

(** The callback of the typing expiry timer of a peer. *)
Definition typing_timer_fired (from : string) (h : Hook) : Hook :=
  if isMountedRef h then dispatch h (TYPING_UPDATE from false) else h.

(** The hydration effect, given what the durable store returns
    ([None]: the store failed). *)
Definition hydrate (rows : option (list ChatMessage)) (h : Hook) : Hook :=
  if negb (truthy_opt (myUsername h)) then h
  else
    match rows with
    | Some msgs => if isMountedRef h then dispatch h (DB_HYDRATED msgs) else h
    | None => dispatch h (DB_HYDRATED [])
    end.

(** [const clearChat = useCallback((chatId) => ...)]. *)
Definition clearChat (cid : string) (h : Hook) : Hook :=
  dispatch h (CLEAR_CHAT cid).

Section Builtins.

(** [String.prototype.trim] and [String.prototype.toLowerCase] are
    built-ins of the language: the hook is read for any two functions. *)
Variable trim : string -> string.
Variable toLowerCase : string -> string.

(** [export function dmChatId(a, b)]: the default [sort] of a two-element
    array of strings swaps them when the second is smaller. *)
Definition dmChatId (a b : string) : string :=
  let la := toLowerCase a in
  let lb := toLowerCase b in
  if String.ltb lb la then "dm:" +:+ lb +:+ ":" +:+ la
  else "dm:" +:+ la +:+ ":" +:+ lb.

(** The optimistic message of [sendMessage]. *)
Definition optimistic (self receiver trimmed lid : string) (now : Z)
  : ChatMessage :=
  {| localId := lid; serverId := None; chatId := dmChatId self receiver;
     senderUsername := self; receiverUsername := receiver;
     text := trimmed; timestamp := now; status := Sending |}.

(** [const sendMessage = useCallback((receiverUsername, text) => ...)];
    [uuid] is the value of [uuid()] and [now] the value of [Date.now()]
    at the call. *)
Definition sendMessage (receiver txt : string) (uuid : string) (now : Z)
  (h : Hook) : Hook :=
  if negb (truthy_opt (myUsername h)) then h
  else if negb (ws_open h) then h
  else
    let trimmed := trim txt in
    if negb (truthy trimmed) then h
    else
      let h1 :=
        dispatch h (MESSAGE_ADDED (optimistic (me h) receiver trimmed uuid now)) in
      emit h1 (FrameSent (send_message receiver trimmed uuid)).

(** [m.serverId || m.localId] *)
Definition resolved_id (m : ChatMessage) : string :=
  match serverId m with
  | Some sid => if truthy sid then sid else localId m
  | None => localId m
  end.

(** [const markAsRead = useCallback((peerUsername) => ...)], given the rows
    of the conversation that the durable store returns. *)
Definition markAsRead (peer : string) (dbMsgs : list ChatMessage) (h : Hook)
  : Hook :=
  if negb (truthy_opt (myUsername h)) then h
  else
    let cid := dmChatId (me h) peer in
    let unreadFromPeer :=
      map resolved_id
        (filter (fun m => negb (String.eqb (senderUsername m) (me h))
                          && negb (bool_decide (status m = Read))
                          && truthy (resolved_id m) = true)
                dbMsgs) in
    match unreadFromPeer with
    | [] => h
    | _ =>
        if negb (ws_open h) then h
        else
          let h1 := emit h (FrameSent (mark_read peer unreadFromPeer)) in
          dispatch h1 (MESSAGES_MARKED_READ cid (me h))
    end.

End Builtins.

(* ===================================================================== *)
(** * The hook as a state machine *)
(* ===================================================================== *)

(** Everything that can happen to a hook instance: socket events, timers,
    the hydration result and the actions offered to the presentation
    layer. *)
Inductive HookEvent :=
| EvMount
| EvUnmount
| EvProps (t u : option string)
| EvConnect
| EvOpen
| EvClose (code : Z)
| EvMessage (data : option ServerFrame)
| EvReconnectTimer
| EvPingTimer
| EvTypingTimer (from : string)
| EvHydrate (rows : option (list ChatMessage))
| EvSendMessage (receiver txt uuid : string) (now : Z)
| EvMarkAsRead (peer : string) (dbMsgs : list ChatMessage)
| EvClearChat (cid : string)
| EvReconnect.

Definition hook_step (trim toLowerCase : string -> string)
  (h : Hook) (e : HookEvent) : Hook :=
  match e with
  | EvMount => mount h
  | EvUnmount => unmount h
  | EvProps t u => rerender t u h
  | EvConnect => connect h
  | EvOpen => onopen h
  | EvClose code => onclose code h
  | EvMessage data => onmessage data h
  | EvReconnectTimer => reconnect_timer_fired h
  | EvPingTimer => ping_timer_fired h
  | EvTypingTimer from => typing_timer_fired from h
  | EvHydrate rows => hydrate rows h
  | EvSendMessage receiver txt uuid now =>
      sendMessage trim toLowerCase receiver txt uuid now h
  | EvMarkAsRead peer dbMsgs => markAsRead toLowerCase peer dbMsgs h
  | EvClearChat cid => clearChat cid h
  | EvReconnect => reconnect h
  end.

Definition hook_run (trim toLowerCase : string -> string)
  (h : Hook) (es : list HookEvent) : Hook :=
  foldl (hook_step trim toLowerCase) h es.

(** The hook at its first render, before any effect has run. *)
Definition initial_hook (t u : option string) : Hook :=
  {| token := t; myUsername := u; state := initialState; wsRef := None;
     isMountedRef := true; intentionalCloseRef := false;
     reconnectAttemptsRef := 0%nat; reconnectTimerRef := None;
     pingTimerRef := false; effects := [] |}.

(** A socket exists only while the hook has an identity. *)
Definition ws_identity (h : Hook) : Prop :=
  wsRef h <> None -> truthy_opt (myUsername h) = true.

(** The snapshots that the reducer can produce from the initial state. *)
Inductive reachable : SocketState -> Prop :=
| reachable_init : reachable initialState
| reachable_step s a : reachable s -> reachable (reducer s a).

(* ===================================================================== *)
(** * Vocabulary of the properties *)
(* ===================================================================== *)

(** ** Backoff *)

(** The delays of the reconnect timers armed in a trace, in order. *)
Definition scheduled_delays (es : list Effect) : list Z :=
  omap (fun e => match e with ReconnectTimerSet d => Some d | _ => None end) es.

(** A close code that is neither an authentication failure (4001, 1006)
    nor a normal or going-away shutdown (1000, 1001). *)
Definition retryable (code : Z) : bool :=
  negb (code =? 4001) && negb (code =? 1006)
  && negb (code =? 1000) && negb (code =? 1001).

(** One failed connection attempt followed by the retry it schedules: the
    socket closes, then the reconnect timer fires. *)
Definition fail_and_retry (code : Z) (h : Hook) : Hook :=
  reconnect_timer_fired (onclose code h).

(** ** Ordering *)

Definition ts_le (a b : ChatMessage) : Prop := timestamp a <= timestamp b.

(** A bucket in ascending order of timestamp. *)
Definition sorted_by_timestamp (l : list ChatMessage) : Prop :=
  StronglySorted ts_le l.

(** ** Identity of messages *)

(** The messages of a conversation that carry a given [localId]. *)
Definition with_localId (lid : string) (bucket : list ChatMessage)
  : list ChatMessage :=
  filter (fun m => localId m = lid) bucket.

(** [state.messages[cid].find((m) => m.localId === lid)] *)
Definition lookup_message (s : SocketState) (cid lid : string)
  : option ChatMessage :=
  find (fun m => String.eqb (localId m) lid) (bucket_of s cid).

(** No two messages of one bucket share a [localId]. *)
Definition unique_map (m : gmap string (list ChatMessage)) : Prop :=
  map_Forall (fun _ bucket => NoDup (localId <$> bucket)) m.

Definition unique_in_buckets (s : SocketState) : Prop :=
  unique_map (messages s).


(** ** Status *)

(** The order of the statuses of a self-authored message, read generously:
    any move forward along sending, sent, read, and the failed branch from
    sending. *)
Definition progresses (st st' : MessageStatus) : bool :=
  match st, st' with
  | Sending, (Sending | Sent | Read | Failed) => true
  | Sent, (Sent | Read) => true
  | Read, Read => true
  | Delivered, (Delivered | Read) => true
  | Failed, Failed => true
  | _, _ => false
  end.

(** An action that confirms the reading of message [m] of conversation
    [cid]: the transition of a [messages_read] frame, or the older
    [MESSAGES_READ_BY_PEER], naming it. *)
Definition confirms_read (cid : string) (m : ChatMessage) (a : SocketAction)
  : bool :=
  match a with
  | MESSAGES_UPDATED_STATUS c ids _ => String.eqb c cid && matches_ids ids m
  | MESSAGES_READ_BY_PEER c ids => String.eqb c cid && includes ids (localId m)
  | _ => false
  end.

(** The normal flow of a message [m] that [self] wrote in conversation
    [cid]: no read confirmation names it, local reads of the conversation
    are by [self], and the conversation is not cleared. *)
Definition normal_flow (self cid : string) (m : ChatMessage)
  (a : SocketAction) : bool :=
  match a with
  | MESSAGES_MARKED_READ c reader =>
      negb (String.eqb c cid) || String.eqb reader self
  | CLEAR_CHAT c => negb (String.eqb c cid)
  | _ => negb (confirms_read cid m a)
  end.

(** A sequence of actions in which every step is normal flow for the
    message that [cid] and [lid] identify at that point. *)
Fixpoint normal_trace (self cid lid : string) (s : SocketState)
  (acts : list SocketAction) : bool :=
  match acts with
  | [] => true
  | a :: rest =>
      match lookup_message s cid lid with
      | Some m => normal_flow self cid m a
      | None => true
      end && normal_trace self cid lid (reducer s a) rest
  end.

(** The messages an action brings with it. *)
Definition payload_of (a : SocketAction) : list ChatMessage :=
  match a with
  | DB_HYDRATED payload => payload
  | MESSAGE_ADDED payload => [payload]
  | MESSAGES_BULK_ADD payload => payload
  | _ => []
  end.

(** No message of the snapshot is at [Failed]. *)
Definition no_failed (s : SocketState) : Prop :=
  map_Forall (fun _ bucket => Forall (fun m => status m <> Failed) bucket)
    (messages s).

(** The actions that neither set [Failed] nor insert a message at
    [Failed]. *)
Definition assigns_no_failed (a : SocketAction) : Prop :=
  match a with
  | MESSAGES_UPDATED_STATUS _ _ st => st <> Failed
  | _ => Forall (fun m => status m <> Failed) (payload_of a)
  end.

(** The events that are not a hydration bringing rows at [Failed]. *)
Definition brings_no_failed (e : HookEvent) : Prop :=
  match e with
  | EvHydrate (Some rows) => Forall (fun m => status m <> Failed) rows
  | _ => True
  end.

(** ** Inbound message events *)

(** The conversation and [localId] of every message an inbound message
    frame carries ([new_message], [pending_messages], [history]). *)
Definition frame_keys (f : ServerFrame) : list (string * string) :=
  match f with
  | new_message msg => [(w_chatId msg, w_id msg)]
  | pending_messages msgs _ => map (fun m => (w_chatId m, w_id m)) msgs
  | history cid _ msgs => map (fun m => (cid, w_id m)) msgs
  | _ => []
  end.

(** The messages that the handler of such a frame builds, for the
    identity [self]. *)
Definition frame_messages (self : string) (f : ServerFrame)
  : list ChatMessage :=
  match f with
  | new_message msg => [incoming self msg]
  | pending_messages msgs _ => map (incoming self) msgs
  | history cid peer msgs => map (historical self cid peer) msgs
  | _ => []
  end.

Definition is_message_frame (f : ServerFrame) : bool :=
  match f with
  | new_message _ | pending_messages _ _ | history _ _ _ => true
  | _ => false
  end.

(** A hook that is mounted and has both credentials. *)
Definition live (h : Hook) : Prop :=
  isMountedRef h = true /\ truthy_opt (token h) = true
  /\ truthy_opt (myUsername h) = true.

(** ** Concrete values used in the examples *)

Definition wire (id cid from : string) (t : Z) : WireMessage :=
  {| w_id := id; w_localId := None; w_chatId := cid; w_from := from;
     w_to := "alice"; w_text := "hi"; w_timestamp := t |}.

(** A mounted hook of user alice whose socket is open; nothing received. *)
Definition fresh_hook : Hook :=
  {| token := Some "jwt"; myUsername := Some "alice";
     state := set_connection initialState Connected None;
     wsRef := Some WS_OPEN; isMountedRef := true;
     intentionalCloseRef := false; reconnectAttemptsRef := 0%nat;
     reconnectTimerRef := None; pingTimerRef := true; effects := [] |}.

(** Two incoming messages that carry the same identifier in two
    conversations. *)
Definition from_bob : ChatMessage :=
  {| localId := "m1"; serverId := None; chatId := "dm:alice:bob";
     senderUsername := "bob"; receiverUsername := "alice"; text := "hi";
     timestamp := 100; status := Delivered |}.

Definition from_carol : ChatMessage :=
  {| localId := "m1"; serverId := None; chatId := "dm:alice:carol";
     senderUsername := "carol"; receiverUsername := "alice"; text := "yo";
     timestamp := 200; status := Delivered |}.

(** A row of the durable store: a message alice wrote, read by bob in an
    earlier session. *)
Definition read_row : ChatMessage :=
  {| localId := "u0"; serverId := Some "srv0"; chatId := "dm:alice:bob";
     senderUsername := "alice"; receiverUsername := "bob"; text := "old";
     timestamp := 10; status := Read |}.

(** A stand-in for [String.prototype.trim] on texts without surrounding
    white space, and for [toLowerCase] on lower-case names. *)
Definition id_string (s : string) : string := s.

(** The acknowledgement of alice's message u1 by the server, as srv1 at
    time 60. *)
Definition ack_u1 : ServerFrame :=
  message_sent (Some "u1") (wire "srv1" "dm:alice:bob" "alice" 60).

(** Alice's hook after she sent hi to bob at time 50. *)
Definition sending_hook : Hook :=
  hook_step id_string id_string fresh_hook (EvSendMessage "bob" "hi" "u1" 50).

(** Alice's hook after the server acknowledged that message. *)
Definition sent_hook : Hook :=
  hook_step id_string id_string sending_hook (EvMessage (Some ack_u1)).

(* ===================================================================== *)
(** * Further code of the hook and of its callers *)
(* ===================================================================== *)

(** One iteration of the first loop of [buildMap]: create the bucket when
    it is missing, then push. *)
Definition buildMap_push (map : gmap string (list ChatMessage))
  (m : ChatMessage) : gmap string (list ChatMessage) :=
  let map1 :=
    match map !! chatId m with
    | None => <[chatId m := []]> map
    | Some _ => map
    end in
  <[chatId m := default [] (map1 !! chatId m) ++ [m]]> map1.

(** [function buildMap(msgs)]: group by conversation, sort every group. *)
Definition buildMap (msgs : list ChatMessage) : gmap string (list ChatMessage) :=
  sort_all (foldl buildMap_push ∅ msgs).

(** [const emitTypingStart = useCallback((to) => ...)]. *)
Definition emitTypingStart (to : string) (h : Hook) : Hook :=
  if ws_open h then emit h (FrameSent (typing_start_to to)) else h.

(** [const emitTypingStop = useCallback((to) => ...)]. *)
Definition emitTypingStop (to : string) (h : Hook) : Hook :=
  if ws_open h then emit h (FrameSent (typing_stop_to to)) else h.

(** Everything the presentation layer and the environment can do to a
    hook: the events, and the two typing emitters. *)
Inductive HookCall :=
| Event (e : HookEvent)
| EmitTypingStart (to : string)
| EmitTypingStop (to : string).

Definition hook_call (trim toLowerCase : string -> string)
  (h : Hook) (c : HookCall) : Hook :=
  match c with
  | Event e => hook_step trim toLowerCase h e
  | EmitTypingStart to => emitTypingStart to h
  | EmitTypingStop to => emitTypingStop to h
  end.

Definition hook_calls (trim toLowerCase : string -> string)
  (h : Hook) (cs : list HookCall) : Hook :=
  foldl (hook_call trim toLowerCase) h cs.

(** ** The conversation list of the dashboard
    ([src/components/chat/ChatDashboard.tsx]) *)

(** [(m) => m.senderUsername !== self && m.status !== "read"] *)
Definition is_unread (self : string) (m : ChatMessage) : bool :=
  negb (String.eqb (senderUsername m) self)
  && negb (bool_decide (status m = Read)).

(** [msgs.filter(...).length], the unread count of a conversation. *)
Definition unreadCount (self : string) (msgs : list ChatMessage) : nat :=
  length (List.filter (is_unread self) msgs).

(** [activeMessages.some(...)], the trigger of [markAsRead]. *)
Definition hasUnread (self : string) (msgs : list ChatMessage) : bool :=
  existsb (is_unread self) msgs.

(** [msgs[msgs.length - 1] ?? null] *)
Definition lastMessage (msgs : list ChatMessage) : option ChatMessage :=
  last msgs.

(** ** Vocabulary of the further properties *)

(** Every bucket holds at least one message, and only messages of its
    conversation. *)
Definition well_bucketed (s : SocketState) : Prop :=
  map_Forall (fun c bucket => bucket <> [] /\ Forall (fun m => chatId m = c) bucket)
    (messages s).

(** The sockets opened and the [close] calls made in a trace. *)
Definition sockets_opened (es : list Effect) : nat :=
  length (List.filter (fun e => match e with SocketOpened => true | _ => false end) es).

Definition sockets_closed (es : list Effect) : nat :=
  length (List.filter (fun e => match e with SocketClosed _ _ => true | _ => false end) es).

(** The calls that a torn-down hook has to ignore: everything that comes
    from a socket or a timer, and the actions that need a socket. *)
Definition needs_live_hook (c : HookCall) : bool :=
  match c with
  | Event (EvConnect | EvOpen | EvClose _ | EvMessage _ | EvReconnectTimer
          | EvPingTimer | EvTypingTimer _ | EvHydrate (Some _)
          | EvSendMessage _ _ _ _ | EvMarkAsRead _ _ | EvReconnect) => true
  | EmitTypingStart _ | EmitTypingStop _ => true
  | _ => false
  end.

(** The frames that carry neither messages nor read confirmations. *)
Definition is_ephemeral_frame (f : ServerFrame) : bool :=
  match f with
  | typing_start _ | typing_stop _ | user_status_change _ _ | pong _
  | error_frame _ _ => true
  | _ => false
  end.

(** The actions that change nothing but the status, the serverId or the
    timestamp of messages that are there. *)
Definition is_status_action (a : SocketAction) : bool :=
  match a with
  | MESSAGE_UPDATED _ _ | MESSAGES_MARKED_READ _ _ | MESSAGES_READ_BY_PEER _ _
  | MESSAGES_UPDATED_STATUS _ _ _ => true
  | _ => false
  end.

(** The frames sent in a trace, in order. *)
Definition frames_sent (es : list Effect) : list ClientFrame :=
  omap (fun e => match e with FrameSent f => Some f | _ => None end) es.

(** The identifiers a read receipt carries: for each stored row of the
    peer that is not read, its serverId when it has one, else its localId,
    rows without any identifier left out. *)
Definition receipt_ids (self : string) (rows : list ChatMessage) : list string :=
  map resolved_id
    (List.filter
       (fun m => is_unread self m && truthy (resolved_id m)) rows).

(** Every socket the hook opened has been closed by it, except the one it
    holds. *)
Definition socket_balance (h : Hook) : Prop :=
  sockets_opened (effects h)
  = (sockets_closed (effects h)
     + match wsRef h with Some _ => 1 | None => 0 end)%nat.

(** The backlog frame, whose handler acknowledges without looking at the
    ready state. *)
Definition is_backlog_frame (c : HookCall) : bool :=
  match c with
  | Event (EvMessage (Some (pending_messages _ _))) => true
  | _ => false
  end.

(* ===================================================================== *)
(** * The durable store ([src/services/db.ts]) *)
(* ===================================================================== *)

(** A table with an auto-incremented primary key ([++id]): its rows in the
    order of the key, and the next key its generator gives. Each function
    below is one transaction (or one statement), so it is one step. *)
Record Table (A : Type) := mkTable {
  t_rows : list (Z * A);
  t_next : Z;
}.
Arguments mkTable {A} _ _.
Arguments t_rows {A} _.
Arguments t_next {A} _.

(** [table.add(x)]: a new row under the next key. *)
Definition table_add {A} (x : A) (t : Table A) : Table A :=
  mkTable (t_rows t ++ [(t_next t, x)]) (t_next t + 1).

(** [table.update(id, changes)]: the row with that key, if any, changed. *)
Definition table_update {A} (id : Z) (f : A -> A) (t : Table A) : Table A :=
  mkTable (map (fun r => if fst r =? id then (fst r, f (snd r)) else r) (t_rows t))
          (t_next t).

(** The stored message after [update(id, msg)] with the object a caller
    passes: every field it has replaces the stored one. The callers build
    their objects without an [id], and a field the object lacks
    ([serverId] when it is not set) is left as stored. The row type is
    [DbMessage], whose fields are those of a [ChatMessage]; its status is
    declared a string and holds the status names the callers write. *)
Definition update_message (msg old : ChatMessage) : ChatMessage :=
  {| localId := localId msg;
     serverId := match serverId msg with Some x => Some x | None => serverId old end;
     chatId := chatId msg; senderUsername := senderUsername msg;
     receiverUsername := receiverUsername msg; text := text msg;
     timestamp := timestamp msg; status := status msg |}.

(** [db.messages.where('localId').equals(lid).first()] *)
Definition first_by_localId (lid : string) (t : Table ChatMessage)
  : option (Z * ChatMessage) :=
  find (fun r => String.eqb (localId (snd r)) lid) (t_rows t).

(** [export async function upsertMessage(msg)]. *)
Definition upsertMessage (msg : ChatMessage) (t : Table ChatMessage)
  : Table ChatMessage :=
  match first_by_localId (localId msg) t with
  | Some existing => table_update (fst existing) (update_message msg) t
  | None => table_add msg t
  end.

(** [export async function bulkUpsertMessages(msgs)]. *)
Definition bulkUpsertMessages (msgs : list ChatMessage) (t : Table ChatMessage)
  : Table ChatMessage :=
  foldl (fun t' msg => upsertMessage msg t') t msgs.

(** [export async function getRecentMessagesForHydration()]:
    [db.messages.reverse().limit(1000).toArray()], reversed. *)
Definition getRecentMessagesForHydration (t : Table ChatMessage)
  : list (Z * ChatMessage) :=
  rev (take 1000 (rev (t_rows t))).

(** [db.messages.where("chatId").equals(cid).toArray()], the query of
    [markAsRead]: the rows of one conversation, in the order of the key. *)
Definition messages_where_chatId (cid : string) (t : Table ChatMessage)
  : list ChatMessage :=
  map snd (List.filter (fun r => String.eqb (chatId (snd r)) cid) (t_rows t)).

(** [export async function markChatRead(chatId, readerUsername)]. *)
Definition markChatRead (cid reader : string) (t : Table ChatMessage)
  : Table ChatMessage :=
  let toMark :=
    List.filter
      (fun r => String.eqb (chatId (snd r)) cid && is_unread reader (snd r))
      (t_rows t) in
  foldl (fun t' r => table_update (fst r) (with_status Read) t') t toMark.

(** [export async function clearChatMessages(chatId)]. *)
Definition clearChatMessages (cid : string) (t : Table ChatMessage)
  : Table ChatMessage :=
  mkTable (List.filter (fun r => negb (String.eqb (chatId (snd r)) cid)) (t_rows t))
          (t_next t).

(** [interface DbContact], without its key. *)
Record DbContact := mkDbContact {
  c_username : string;
  c_nickname : string;
  c_avatarColor : option string;
  c_addedAt : Z;
}.

(** The changes of [upsertContact]:
    [{ nickname, ...(contact.avatarColor ? { avatarColor } : {}) }]. *)
Definition update_contact (contact old : DbContact) : DbContact :=
  {| c_username := c_username old;
     c_nickname := c_nickname contact;
     c_avatarColor := if truthy_opt (c_avatarColor contact)
                      then c_avatarColor contact else c_avatarColor old;
     c_addedAt := c_addedAt old |}.

(** [export async function upsertContact(contact)]. *)
Definition upsertContact (contact : DbContact) (t : Table DbContact)
  : Table DbContact :=
  match find (fun r => String.eqb (c_username (snd r)) (c_username contact))
          (t_rows t) with
  | Some existing => table_update (fst existing) (update_contact contact) t
  | None => table_add contact t
  end.

(** A table as the functions above keep it: keys below the generator and
    not repeated, and the unique index honoured. *)
Definition table_keys_ok {A} (t : Table A) : Prop :=
  NoDup (fst <$> t_rows t) /\ Forall (fun r => fst r < t_next t) (t_rows t).

Definition messages_table_ok (t : Table ChatMessage) : Prop :=
  table_keys_ok t /\ NoDup ((fun r => localId (snd r)) <$> t_rows t).

Definition contacts_table_ok (t : Table DbContact) : Prop :=
  table_keys_ok t /\ NoDup ((fun r => c_username (snd r)) <$> t_rows t).

Definition empty_table {A} : Table A := mkTable [] 1.

(** A stored row agrees with a message on every field the message has. *)
Definition agrees_with (msg stored : ChatMessage) : Prop :=
  update_message msg stored = stored.

(* ===================================================================== *)
(** * Properties *)
(* ===================================================================== *)

(** ** The sort *)

Lemma insert_by_timestamp_perm x l : insert_by_timestamp x l ≡ₚ x :: l.
Proof.
  induction l as [|y l IH]; simpl; [done|].
  destruct (timestamp x <=? timestamp y); [done|].
  rewrite IH. apply Permutation_swap.
Qed.

Lemma sort_by_timestamp_perm l : sort_by_timestamp l ≡ₚ l.
Proof.
  induction l as [|x l IH]; simpl; [done|].
  by rewrite insert_by_timestamp_perm, IH.
Qed.

Lemma insert_by_timestamp_sorted x l :
  sorted_by_timestamp l -> sorted_by_timestamp (insert_by_timestamp x l).
Proof.
  unfold sorted_by_timestamp.
  induction l as [|y l IH]; simpl; intros Hs.
  - repeat constructor.
  - destruct (Z.leb_spec (timestamp x) (timestamp y)) as [Hle|Hgt].
    + constructor; [done|].
      apply StronglySorted_inv in Hs as [_ Hall].
      constructor; [done|].
      eapply Forall_impl; [exact Hall|]. unfold ts_le. simpl. lia.
    + apply StronglySorted_inv in Hs as [Hs Hall].
      constructor; [by apply IH|].
      rewrite insert_by_timestamp_perm.
      constructor; [unfold ts_le; lia | done].
Qed.

Lemma sort_by_timestamp_sorted l : sorted_by_timestamp (sort_by_timestamp l).
Proof.
  induction l as [|x l IH]; simpl.
  - constructor.
  - by apply insert_by_timestamp_sorted.
Qed.

Lemma sort_by_timestamp_fixed l :
  sorted_by_timestamp l -> sort_by_timestamp l = l.
Proof.
  unfold sorted_by_timestamp.
  induction l as [|x l IH]; simpl; intros Hs; [done|].
  apply StronglySorted_inv in Hs as [Hs Hall].
  rewrite IH by done.
  destruct l as [|y l]; simpl; [done|].
  apply Forall_inv in Hall. unfold ts_le in Hall.
  destruct (Z.leb_spec (timestamp x) (timestamp y)); [done | lia].
Qed.

Lemma sort_by_timestamp_idemp l :
  sort_by_timestamp (sort_by_timestamp l) = sort_by_timestamp l.
Proof. apply sort_by_timestamp_fixed, sort_by_timestamp_sorted. Qed.

(** The sort is stable: the messages of one timestamp keep their order. *)
Lemma sort_by_timestamp_stable t l :
  filter (fun m => timestamp m = t) (sort_by_timestamp l)
  = filter (fun m => timestamp m = t) l.
Proof.
  assert (Hins : forall x l0, sorted_by_timestamp l0 ->
            filter (fun m => timestamp m = t) (insert_by_timestamp x l0)
            = filter (fun m => timestamp m = t) (x :: l0)).
  { intros x l0. unfold sorted_by_timestamp.
    induction l0 as [|y l0 IH]; simpl; intros Hs; [done|].
    destruct (Z.leb_spec (timestamp x) (timestamp y)) as [Hle|Hgt]; [done|].
    apply StronglySorted_inv in Hs as [Hs Hall].
    rewrite (filter_cons _ y (insert_by_timestamp x l0)), IH by done.
    rewrite !filter_cons.
    destruct (decide (timestamp y = t)), (decide (timestamp x = t)); try done.
    lia. }
  induction l as [|x l IH]; simpl; [done|].
  rewrite Hins by apply sort_by_timestamp_sorted.
  by rewrite !filter_cons, IH.
Qed.

Lemma sort_all_lookup m cid :
  sort_all m !! cid = sort_by_timestamp <$> (m !! cid).
Proof. unfold sort_all. apply lookup_fmap. Qed.

Lemma sort_all_idemp m : sort_all (sort_all m) = sort_all m.
Proof.
  apply map_eq. intros cid. rewrite !sort_all_lookup.
  destruct (m !! cid); simpl; [|done].
  by rewrite sort_by_timestamp_idemp.
Qed.

(** ** Backoff and close codes *)

Lemma scheduled_delays_app es es' :
  scheduled_delays (es ++ es') = scheduled_delays es ++ scheduled_delays es'.
Proof. unfold scheduled_delays. apply omap_app. Qed.

Lemma retryable_codes code :
  retryable code = true ->
  (code =? 4001) = false /\ (code =? 1006) = false
  /\ (code =? 1000) = false /\ (code =? 1001) = false.
Proof.
  unfold retryable. rewrite !andb_true_iff, !negb_true_iff. tauto.
Qed.

(** What [scheduleReconnect] does while the budget lasts. *)
Lemma scheduleReconnect_within_budget h :
  isMountedRef h = true ->
  (reconnectAttemptsRef h < MAX_RECONNECT_ATTEMPTS)%nat ->
  scheduleReconnect h =
    set_reconnectTimer
      (emit (dispatch (set_reconnectAttempts h (S (reconnectAttemptsRef h)))
               RECONNECTING)
         (ReconnectTimerSet (backoff_delay (reconnectAttemptsRef h))))
      (Some (backoff_delay (reconnectAttemptsRef h))).
Proof.
  intros Hm Hn. unfold scheduleReconnect.
  apply Nat.leb_gt in Hn. by rewrite Hm, Hn.
Qed.

(** What [scheduleReconnect] does once the budget is spent. *)
Lemma scheduleReconnect_exhausted h :
  isMountedRef h = true ->
  (MAX_RECONNECT_ATTEMPTS <= reconnectAttemptsRef h)%nat ->
  scheduleReconnect h = dispatch h (ERROR give_up_message).
Proof.
  intros Hm Hn. unfold scheduleReconnect.
  apply Nat.leb_le in Hn. by rewrite Hm, Hn.
Qed.

Lemma after_ping_cleanup_fields h :
  let h1 := after_ping_cleanup h in
  isMountedRef h1 = isMountedRef h /\ token h1 = token h
  /\ myUsername h1 = myUsername h /\ state h1 = state h
  /\ intentionalCloseRef h1 = intentionalCloseRef h
  /\ reconnectAttemptsRef h1 = reconnectAttemptsRef h
  /\ reconnectTimerRef h1 = reconnectTimerRef h
  /\ scheduled_delays (effects h1) = scheduled_delays (effects h).
Proof.
  unfold after_ping_cleanup. simpl. destruct (pingTimerRef h); simpl.
  - rewrite scheduled_delays_app. simpl. by rewrite app_nil_r.
  - done.
Qed.

(** A retryable close of a socket the hook did not close itself. *)
Lemma onclose_retryable code h :
  isMountedRef h = true -> intentionalCloseRef h = false ->
  retryable code = true ->
  onclose code h
  = scheduleReconnect (dispatch (after_ping_cleanup h) DISCONNECTED).
Proof.
  intros Hm Hi Hc.
  destruct (retryable_codes _ Hc) as (H1 & H2 & H3 & H4).
  destruct (after_ping_cleanup_fields h) as (_ & _ & _ & _ & Ei & _).
  unfold onclose. rewrite Hm, H1, H2, H3, H4. simpl.
  by rewrite Ei, Hi.
Qed.

(** A close with an authentication code. *)
Lemma onclose_auth code h :
  isMountedRef h = true -> code = 4001 \/ code = 1006 ->
  onclose code h
  = dispatch (after_ping_cleanup h) (AUTH_FAILED auth_failed_message).
Proof.
  intros Hm Hc. unfold onclose. rewrite Hm. simpl.
  by destruct Hc as [-> | ->].
Qed.

(** A retryable close with retries left: the retry is scheduled with the
    delay of the current counter, and the counter moves on. *)
Lemma onclose_retry code h :
  isMountedRef h = true -> intentionalCloseRef h = false ->
  retryable code = true ->
  (reconnectAttemptsRef h < MAX_RECONNECT_ATTEMPTS)%nat ->
  let h' := onclose code h in
  scheduled_delays (effects h')
    = scheduled_delays (effects h) ++ [backoff_delay (reconnectAttemptsRef h)]
  /\ reconnectTimerRef h' = Some (backoff_delay (reconnectAttemptsRef h))
  /\ reconnectAttemptsRef h' = S (reconnectAttemptsRef h)
  /\ connectionStatus (state h') = Reconnecting
  /\ isMountedRef h' = true /\ intentionalCloseRef h' = false
  /\ token h' = token h /\ myUsername h' = myUsername h.
Proof.
  intros Hm Hi Hc Hn h'. subst h'.
  destruct (after_ping_cleanup_fields h) as (Em & Et & Eu & Es & Ei & En & Er & Ed).
  rewrite onclose_retryable by done.
  rewrite scheduleReconnect_within_budget; simpl; [|congruence|by rewrite En].
  rewrite scheduled_delays_app, Ed, En, Em, Et, Eu, Ei. by simpl.
Qed.

(** A retryable close once the budget is spent: nothing is scheduled and
    the give-up error is the last error. *)
Lemma onclose_exhausted code h :
  isMountedRef h = true -> intentionalCloseRef h = false ->
  retryable code = true ->
  (MAX_RECONNECT_ATTEMPTS <= reconnectAttemptsRef h)%nat ->
  let h' := onclose code h in
  scheduled_delays (effects h') = scheduled_delays (effects h)
  /\ reconnectTimerRef h' = reconnectTimerRef h
  /\ reconnectAttemptsRef h' = reconnectAttemptsRef h
  /\ connectionStatus (state h') = Disconnected
  /\ error (state h') = Some give_up_message
  /\ isMountedRef h' = true /\ intentionalCloseRef h' = false.
Proof.
  intros Hm Hi Hc Hn h'. subst h'.
  destruct (after_ping_cleanup_fields h) as (Em & Et & Eu & Es & Ei & En & Er & Ed).
  rewrite onclose_retryable by done.
  rewrite scheduleReconnect_exhausted; simpl; [|congruence|by rewrite En].
  by rewrite Ed, En, Er, Em, Ei.
Qed.

(** Once the budget is spent, no number of further closes arms a timer. *)
Lemma onclose_exhausted_iter code h k :
  isMountedRef h = true -> intentionalCloseRef h = false ->
  retryable code = true ->
  (MAX_RECONNECT_ATTEMPTS <= reconnectAttemptsRef h)%nat ->
  let h' := Nat.iter k (onclose code) h in
  scheduled_delays (effects h') = scheduled_delays (effects h)
  /\ reconnectAttemptsRef h' = reconnectAttemptsRef h
  /\ isMountedRef h' = true /\ intentionalCloseRef h' = false.
Proof.
  intros Hm Hi Hc Hn. induction k as [|k IH]; [done|].
  destruct IH as (Hd & Ha & Hm' & Hi').
  change (Nat.iter (S k) (onclose code) h)
    with (onclose code (Nat.iter k (onclose code) h)).
  destruct (onclose_exhausted code _ Hm' Hi' Hc)
    as (Hd2 & _ & Ha2 & _ & _ & Hm2 & Hi2); [by rewrite Ha|].
  cbv zeta. by rewrite Hd2, Ha2, Hd, Ha.
Qed.

(** The reconnect timer fires on a live hook: a new socket is opened, the
    counter and the timers armed so far are as they were. *)
Lemma reconnect_timer_fired_live h :
  live h ->
  let h' := reconnect_timer_fired h in
  live h' /\ intentionalCloseRef h' = false
  /\ reconnectAttemptsRef h' = reconnectAttemptsRef h
  /\ scheduled_delays (effects h') = scheduled_delays (effects h)
  /\ connectionStatus (state h') = Connecting
  /\ wsRef h' = Some WS_CONNECTING.
Proof.
  intros (Hm & Ht & Hu) h'. subst h'.
  unfold reconnect_timer_fired, connect, live. rewrite Hm, Ht, Hu. simpl.
  destruct (wsRef h); simpl; rewrite !scheduled_delays_app; simpl;
    rewrite ?app_nil_r; done.
Qed.

Lemma fail_and_retry_spec code h :
  live h -> intentionalCloseRef h = false -> retryable code = true ->
  (reconnectAttemptsRef h < MAX_RECONNECT_ATTEMPTS)%nat ->
  let h' := fail_and_retry code h in
  live h' /\ intentionalCloseRef h' = false
  /\ reconnectAttemptsRef h' = S (reconnectAttemptsRef h)
  /\ scheduled_delays (effects h')
     = scheduled_delays (effects h) ++ [backoff_delay (reconnectAttemptsRef h)].
Proof.
  intros Hl Hi Hc Hn h'. subst h'. unfold fail_and_retry.
  destruct Hl as (Hm & Ht & Hu).
  destruct (onclose_retry code h Hm Hi Hc Hn)
    as (Hd & _ & Ha & _ & Hm' & Hi' & Ht' & Hu').
  destruct (reconnect_timer_fired_live (onclose code h))
    as (Hl2 & Hi2 & Ha2 & Hd2 & _).
  { unfold live. by rewrite Hm', Ht', Hu'. }
  by rewrite Ha2, Hd2, Ha, Hd.
Qed.

Lemma fail_and_retry_iter code h k :
  live h -> intentionalCloseRef h = false -> retryable code = true ->
  reconnectAttemptsRef h = 0%nat ->
  (k <= MAX_RECONNECT_ATTEMPTS)%nat ->
  let h' := Nat.iter k (fail_and_retry code) h in
  live h' /\ intentionalCloseRef h' = false
  /\ reconnectAttemptsRef h' = k
  /\ scheduled_delays (effects h')
     = scheduled_delays (effects h) ++ map backoff_delay (seq 0 k).
Proof.
  intros Hl Hi Hc H0. induction k as [|k IH]; intros Hk.
  - simpl. by rewrite app_nil_r.
  - destruct IH as (Hl' & Hi' & Ha' & Hd'); [lia|].
    destruct (fail_and_retry_spec code _ Hl' Hi' Hc) as (Hl2 & Hi2 & Ha2 & Hd2).
    { rewrite Ha'. lia. }
    change (Nat.iter (S k) (fail_and_retry code) h)
      with (fail_and_retry code (Nat.iter k (fail_and_retry code) h)).
    cbv zeta. rewrite seq_S, map_app, app_assoc, Hd2, Hd', Ha2, Ha'.
    repeat split; try apply Hl2; done.
Qed.

Lemma backoff_delays_six :
  map backoff_delay (seq 0 6) = [1000; 2000; 4000; 8000; 16000; 30000].
Proof. vm_compute. reflexivity. Qed.

(** C1. Backoff policy. On a mounted hook with credentials whose retry
    counter is zero, six consecutive failed connection attempts (each a
    retryable close followed by the firing of the timer it armed) arm
    timers of exactly 1000, 2000, 4000, 8000, 16000 and 30000 ms; the
    seventh failure arms no timer and surfaces the give-up error instead,
    and neither does any later one.
    Each scheduled retry has the delay min(1000 * 2^attempt, 30000) of the
    current counter and increments the counter, and an open resets the
    counter to zero, after which the first delay is 1000 ms again. *)
Theorem backoff_policy (h : Hook) (code : Z) :
  live h -> intentionalCloseRef h = false -> retryable code = true ->
  reconnectAttemptsRef h = 0%nat ->
  let h6 := Nat.iter 6 (fail_and_retry code) h in
  let h7 := onclose code h6 in
  scheduled_delays (effects h6)
    = scheduled_delays (effects h) ++ [1000; 2000; 4000; 8000; 16000; 30000]
  /\ scheduled_delays (effects h7) = scheduled_delays (effects h6)
  /\ reconnectTimerRef h7 = reconnectTimerRef h6
  /\ error (state h7) = Some give_up_message
  /\ give_up_message <> auth_failed_message
  /\ connectionStatus (state h7) = Disconnected
  /\ (forall k, scheduled_delays (effects (Nat.iter k (onclose code) h6))
                = scheduled_delays (effects h6))
  /\ (forall g : Hook,
        isMountedRef g = true ->
        (reconnectAttemptsRef g < MAX_RECONNECT_ATTEMPTS)%nat ->
        effects (scheduleReconnect g)
          = effects g
            ++ [ReconnectTimerSet
                  (Z.min (1000 * 2 ^ Z.of_nat (reconnectAttemptsRef g)) 30000)]
        /\ reconnectAttemptsRef (scheduleReconnect g)
           = S (reconnectAttemptsRef g))
  /\ (forall k, (k <= MAX_RECONNECT_ATTEMPTS)%nat ->
        let hk := onopen (Nat.iter k (fail_and_retry code) h) in
        reconnectAttemptsRef hk = 0%nat
        /\ scheduled_delays (effects (onclose code hk))
           = scheduled_delays (effects hk) ++ [1000]).
Proof.
  intros Hl Hi Hc H0 h6 h7.
  destruct (fail_and_retry_iter code h 6 Hl Hi Hc H0) as (Hl6 & Hi6 & Ha6 & Hd6);
    [done|]. fold h6 in Hl6, Hi6, Ha6, Hd6.
  destruct (onclose_exhausted code h6) as (Hd7 & Hr7 & Ha7 & Hs7 & He7 & _);
    [apply Hl6 | done | done | by rewrite Ha6 |]. fold h7 in Hd7, Hr7, Ha7, Hs7, He7.
  rewrite backoff_delays_six in Hd6.
  split; [exact Hd6|]. split; [exact Hd7|]. split; [exact Hr7|].
  split; [exact He7|]. split; [discriminate|]. split; [exact Hs7|]. split.
  { intros k.
    destruct (onclose_exhausted_iter code h6 k) as (Hdk & _);
      [apply Hl6 | done | done | by rewrite Ha6 | exact Hdk]. }
  split.
  - intros g Hm Hn. rewrite scheduleReconnect_within_budget by done.
    split; reflexivity.
  - intros k Hk hk.
    assert (Hmk : isMountedRef (Nat.iter k (fail_and_retry code) h) = true
                  /\ intentionalCloseRef (Nat.iter k (fail_and_retry code) h) = false).
    { destruct (fail_and_retry_iter code h k Hl Hi Hc H0) as (Hlk & Hik & _);
        [exact Hk|].
      split; [apply Hlk | exact Hik]. }
    destruct Hmk as [Hmk Hik].
    assert (Hopen : isMountedRef hk = true /\ intentionalCloseRef hk = false
                    /\ reconnectAttemptsRef hk = 0%nat).
    { subst hk. unfold onopen. simpl. rewrite Hmk. simpl.
      by destruct (pingTimerRef _). }
    destruct Hopen as (Hm' & Hi' & Ha').
    split; [exact Ha'|].
    destruct (onclose_retry code hk Hm' Hi' Hc) as (Hd & _).
    { rewrite Ha'. unfold MAX_RECONNECT_ATTEMPTS. lia. }
    rewrite Hd, Ha'. reflexivity.
Qed.

(** C1, at a concrete hook: alice's hook, closed six times with code 1011. *)
Lemma backoff_policy_witness :
  scheduled_delays (effects (Nat.iter 6 (fail_and_retry 1011) fresh_hook))
  = [1000; 2000; 4000; 8000; 16000; 30000]
  /\ error (state (onclose 1011 (Nat.iter 6 (fail_and_retry 1011) fresh_hook)))
     = Some give_up_message.
Proof.
  assert (Hlive : live fresh_hook) by (unfold live; simpl; done).
  pose proof (backoff_policy fresh_hook 1011 Hlive eq_refl eq_refl eq_refl) as H.
  destruct H as (H1 & _ & _ & H4 & _).
  split; [exact H1 | exact H4].
Defined.

(** C7, as stated, fails: after six failed attempts the counter is spent,
    and a further abnormal close (code 1011, not self-initiated) of the
    mounted hook arms no timer; the give-up error is reported instead. *)
Lemma close_after_six_failures_not_retried :
  let h := Nat.iter 6 (fail_and_retry 1011) fresh_hook in
  isMountedRef h = true /\ intentionalCloseRef h = false
  /\ retryable 1011 = true
  /\ effects (onclose 1011 h) = effects h
  /\ scheduled_delays (effects (onclose 1011 h)) = scheduled_delays (effects h)
  /\ reconnectTimerRef (onclose 1011 h) = reconnectTimerRef h
  /\ connectionStatus (state (onclose 1011 h)) = Disconnected
  /\ error (state (onclose 1011 h)) = Some give_up_message.
Proof. vm_compute. repeat split; reflexivity. Qed.

(** C7, amended. On a mounted hook: a close with code 4001 or 1006 is one
    transition to [auth_failed], arms no timer and leaves the retry counter
    alone; a close with any other code besides 1000 and 1001 that the hook
    did not initiate schedules a retry as long as fewer than six retries
    were scheduled since the last open, and otherwise schedules nothing and
    reports the give-up error. *)
Theorem close_codes (h : Hook) (code : Z) :
  isMountedRef h = true ->
  let h' := onclose code h in
  (code = 4001 \/ code = 1006 ->
     state h' = reducer (state h) (AUTH_FAILED auth_failed_message)
     /\ connectionStatus (state h') = AuthFailed
     /\ scheduled_delays (effects h') = scheduled_delays (effects h)
     /\ reconnectTimerRef h' = reconnectTimerRef h
     /\ reconnectAttemptsRef h' = reconnectAttemptsRef h)
  /\ (retryable code = true -> intentionalCloseRef h = false ->
      (reconnectAttemptsRef h < MAX_RECONNECT_ATTEMPTS)%nat ->
      scheduled_delays (effects h')
        = scheduled_delays (effects h) ++ [backoff_delay (reconnectAttemptsRef h)]
      /\ reconnectTimerRef h' = Some (backoff_delay (reconnectAttemptsRef h))
      /\ connectionStatus (state h') = Reconnecting)
  /\ (retryable code = true -> intentionalCloseRef h = false ->
      (MAX_RECONNECT_ATTEMPTS <= reconnectAttemptsRef h)%nat ->
      scheduled_delays (effects h') = scheduled_delays (effects h)
      /\ reconnectTimerRef h' = reconnectTimerRef h
      /\ error (state h') = Some give_up_message).
Proof.
  intros Hm h'. subst h'. split; [|split].
  - intros Hc. rewrite onclose_auth by done.
    destruct (after_ping_cleanup_fields h) as (_ & _ & _ & Es & _ & En & Er & Ed).
    simpl. by rewrite Es, En, Er, Ed.
  - intros Hc Hi Hn.
    destruct (onclose_retry code h Hm Hi Hc Hn) as (Hd & Hr & _ & Hs & _).
    done.
  - intros Hc Hi Hn.
    destruct (onclose_exhausted code h Hm Hi Hc Hn) as (Hd & Hr & _ & _ & He & _).
    done.
Qed.

(** C7, amended, at alice's hook: code 4001 ends in [auth_failed] with no
    timer, code 1011 arms the first retry. *)
Lemma close_codes_witness :
  isMountedRef fresh_hook = true
  /\ connectionStatus (state (onclose 4001 fresh_hook)) = AuthFailed
  /\ scheduled_delays (effects (onclose 4001 fresh_hook)) = []
  /\ scheduled_delays (effects (onclose 1011 fresh_hook)) = [1000].
Proof.
  split; [reflexivity|].
  pose proof (close_codes fresh_hook 4001 eq_refl) as H1.
  pose proof (close_codes fresh_hook 1011 eq_refl) as H2.
  destruct H1 as (H1 & _). destruct (H1 (or_introl eq_refl)) as (_ & Hs & Hd & _).
  destruct H2 as (_ & H2 & _).
  destruct (H2 eq_refl eq_refl) as (Hd2 & _).
  { unfold MAX_RECONNECT_ATTEMPTS. simpl. lia. }
  split; [exact Hs|]. split; [exact Hd | exact Hd2].
Defined.

(** ** Buckets *)

Lemma has_localId_elem lid bucket :
  has_localId lid bucket = true <-> lid ∈ localId <$> bucket.
Proof.
  unfold has_localId. rewrite existsb_exists, list_elem_of_fmap.
  split.
  - intros (m & Hin & Heq). apply String.eqb_eq in Heq.
    exists m. split; [done|]. by apply list_elem_of_In.
  - intros (m & Heq & Hin). exists m.
    split; [by apply list_elem_of_In|]. by apply String.eqb_eq.
Qed.

Lemma has_localId_not_elem lid bucket :
  has_localId lid bucket = false <-> lid ∉ localId <$> bucket.
Proof.
  rewrite <- has_localId_elem. destruct (has_localId lid bucket); naive_solver.
Qed.

Lemma includes_elem ids x : includes ids x = true <-> x ∈ ids.
Proof.
  unfold includes. rewrite existsb_exists. split.
  - intros (y & Hin & Heq). apply String.eqb_eq in Heq. subst.
    by apply list_elem_of_In.
  - intros Hin. exists x. split; [by apply list_elem_of_In|].
    apply String.eqb_refl.
Qed.

(** The hydration loop and the bulk-add loop merge a message alike. *)
Lemma hydrate_one_bulk_add_one next msg :
  hydrate_one next msg = bulk_add_one next msg.
Proof.
  unfold hydrate_one, bulk_add_one.
  destruct (next !! chatId msg) as [bucket|] eqn:E.
  - by rewrite E.
  - rewrite lookup_insert_eq. simpl. by rewrite insert_insert_eq.
Qed.

Lemma foldl_hydrate_bulk next msgs :
  foldl hydrate_one next msgs = foldl bulk_add_one next msgs.
Proof.
  revert next. induction msgs as [|msg msgs IH]; intros next; simpl; [done|].
  by rewrite hydrate_one_bulk_add_one, IH.
Qed.

Lemma map_bucket_lookup f cid (m : gmap string (list ChatMessage)) c :
  map_bucket f cid m !! c
  = if decide (cid = c) then map f <$> m !! c else m !! c.
Proof.
  unfold map_bucket. destruct (m !! cid) as [bucket|] eqn:E.
  - rewrite lookup_insert. destruct (decide (cid = c)) as [->|]; [|done].
    by rewrite E.
  - destruct (decide (cid = c)) as [<-|]; [|done]. by rewrite E.
Qed.

(** What one merge does to the bucket of a conversation. *)
Lemma bulk_add_one_bucket next msg c :
  default [] (bulk_add_one next msg !! c)
  = if decide (chatId msg = c)
    then if has_localId (localId msg) (default [] (next !! c))
         then default [] (next !! c)
         else default [] (next !! c) ++ [msg]
    else default [] (next !! c).
Proof.
  unfold bulk_add_one.
  destruct (decide (chatId msg = c)) as [<-|Hne].
  - destruct (has_localId _ _) eqn:E; [done|]. by rewrite lookup_insert_eq.
  - destruct (has_localId _ _); [done|]. by rewrite lookup_insert_ne.
Qed.

(** ** Uniqueness of [localId] within a bucket *)

Lemma unique_map_bulk_add_one m msg :
  unique_map m -> unique_map (bulk_add_one m msg).
Proof.
  intros Hu c bucket Hc.
  assert (Hb : bucket = default [] (bulk_add_one m msg !! c)) by (by rewrite Hc).
  rewrite bulk_add_one_bucket in Hb.
  assert (Hold : NoDup (localId <$> default [] (m !! c))).
  { destruct (m !! c) as [b|] eqn:E; simpl; [by apply (Hu c)|constructor]. }
  destruct (decide (chatId msg = c)); [|by subst].
  destruct (has_localId _ _) eqn:E; [by subst|].
  subst bucket. rewrite fmap_app. apply NoDup_app. split; [done|].
  split; [|simpl; apply NoDup_singleton].
  intros l Hl Hl'. simpl in Hl'. apply list_elem_of_singleton in Hl'. subst l.
  by apply has_localId_not_elem in E.
Qed.

Lemma unique_map_foldl_bulk m msgs :
  unique_map m -> unique_map (foldl bulk_add_one m msgs).
Proof.
  revert m. induction msgs as [|msg msgs IH]; intros m Hu; simpl; [done|].
  by apply IH, unique_map_bulk_add_one.
Qed.

Lemma unique_map_sort_all m : unique_map m -> unique_map (sort_all m).
Proof.
  intros Hu c bucket. rewrite sort_all_lookup.
  destruct (m !! c) as [b|] eqn:E; simpl; [|done].
  intros [= <-]. rewrite sort_by_timestamp_perm. by apply (Hu c).
Qed.

Lemma unique_map_map_bucket f cid m :
  (forall x, localId (f x) = localId x) ->
  unique_map m -> unique_map (map_bucket f cid m).
Proof.
  intros Hf Hu c bucket. rewrite map_bucket_lookup.
  destruct (decide (cid = c)) as [->|]; [|by apply Hu].
  destruct (m !! c) as [b|] eqn:E; simpl; [|done].
  intros [= <-].
  replace (localId <$> map f b) with (localId <$> b); [by apply (Hu c)|].
  clear E. induction b as [|x b IH]; [done|].
  change (localId x :: (localId <$> b)
          = localId (f x) :: (localId <$> map f b)).
  by rewrite Hf, IH.
Qed.

Lemma messages_MESSAGE_ADDED s payload :
  messages (reducer s (MESSAGE_ADDED payload))
  = bulk_add_one (messages s) payload.
Proof.
  simpl. unfold bulk_add_one. by destruct (has_localId _ _).
Qed.

(** Every transition keeps the buckets free of repeated [localId]s. *)
Lemma reducer_unique s a :
  unique_in_buckets s -> unique_in_buckets (reducer s a).
Proof.
  unfold unique_in_buckets. intros Hu.
  destruct a; try exact Hu.
  - simpl. rewrite foldl_hydrate_bulk.
    by apply unique_map_sort_all, unique_map_foldl_bulk.
  - rewrite messages_MESSAGE_ADDED. by apply unique_map_bulk_add_one.
  - simpl. apply unique_map_map_bucket; [|done].
    intros x. by destruct (String.eqb _ _).
  - simpl. by apply unique_map_sort_all, unique_map_foldl_bulk.
  - simpl. apply unique_map_map_bucket; [|done].
    intros x. by destruct (_ && _).
  - simpl. apply unique_map_map_bucket; [|done].
    intros x. by destruct (includes _ _).
  - simpl. intros c bucket Hc. apply lookup_delete_Some in Hc as [_ Hc].
    by apply (Hu c).
  - simpl. apply unique_map_map_bucket; [|done].
    intros x. by destruct (matches_ids _ _).
Qed.

Lemma reachable_unique s : reachable s -> unique_in_buckets s.
Proof.
  induction 1 as [|s a _ IH].
  - apply map_Forall_empty.
  - by apply reducer_unique.
Qed.






(** ** Order of the buckets *)

Lemma sort_all_sorted m c bucket :
  sort_all m !! c = Some bucket -> sorted_by_timestamp bucket.
Proof.
  rewrite sort_all_lookup. destruct (m !! c); simpl; [|done].
  intros [= <-]. apply sort_by_timestamp_sorted.
Qed.

(** After a bulk add every bucket of the snapshot is in ascending order of
    timestamp, whatever the order before. *)
Lemma bulk_add_sorted s payload c bucket :
  messages (reducer s (MESSAGES_BULK_ADD payload)) !! c = Some bucket ->
  sorted_by_timestamp bucket.
Proof. simpl. apply sort_all_sorted. Qed.

Lemma hydration_sorted s payload c bucket :
  messages (reducer s (DB_HYDRATED payload)) !! c = Some bucket ->
  sorted_by_timestamp bucket.
Proof. simpl. apply sort_all_sorted. Qed.

(** The history replay is a bulk add: every bucket is sorted afterwards. *)
Lemma history_buckets_sorted h cid peer hist c bucket :
  isMountedRef h = true ->
  messages (state (onmessage (Some (history cid peer hist)) h)) !! c = Some bucket ->
  sorted_by_timestamp bucket.
Proof.
  intros Hm. unfold onmessage. rewrite Hm. simpl. apply sort_all_sorted.
Qed.

(** The scenario of the out-of-order history: timestamps 300, 100, 200 into
    an empty conversation come out as 100, 200, 300. *)
Lemma history_out_of_order :
  let frame := history "dm:alice:bob" "bob"
                 [wire "a" "dm:alice:bob" "bob" 300;
                  wire "b" "dm:alice:bob" "bob" 100;
                  wire "c" "dm:alice:bob" "bob" 200] in
  timestamp <$> bucket_of (state (onmessage (Some frame) fresh_hook)) "dm:alice:bob"
  = [100; 200; 300].
Proof. by vm_compute. Qed.

(** C2. The backlog flush does not sort. A [pending_messages] frame that
    carries timestamps 300, 100, 200 for an empty conversation leaves the
    bucket in arrival order 300, 100, 200: the handler dispatches one
    [MESSAGE_ADDED] per message, and that transition appends without
    sorting. The bucket it touched is not in ascending order. *)
Theorem pending_messages_flush_unsorted :
  let frame := pending_messages
                 [wire "a" "dm:alice:bob" "bob" 300;
                  wire "b" "dm:alice:bob" "bob" 100;
                  wire "c" "dm:alice:bob" "bob" 200] ["a"; "b"; "c"] in
  let bucket :=
    bucket_of (state (onmessage (Some frame) fresh_hook)) "dm:alice:bob" in
  bucket_of (state fresh_hook) "dm:alice:bob" = []
  /\ timestamp <$> bucket = [300; 100; 200]
  /\ ~ sorted_by_timestamp bucket.
Proof.
  split; [by vm_compute|]. split; [by vm_compute|].
  intros Hs.
  assert (Hb : bucket_of
                 (state (onmessage
                    (Some (pending_messages
                       [wire "a" "dm:alice:bob" "bob" 300;
                        wire "b" "dm:alice:bob" "bob" 100;
                        wire "c" "dm:alice:bob" "bob" 200] ["a"; "b"; "c"]))
                    fresh_hook)) "dm:alice:bob"
               = [incoming "alice" (wire "a" "dm:alice:bob" "bob" 300);
                  incoming "alice" (wire "b" "dm:alice:bob" "bob" 100);
                  incoming "alice" (wire "c" "dm:alice:bob" "bob" 200)])
    by (by vm_compute).
  rewrite Hb in Hs. unfold sorted_by_timestamp in Hs.
  apply StronglySorted_inv in Hs as [_ Hall].
  apply Forall_inv in Hall. unfold ts_le in Hall. simpl in Hall. lia.
Qed.

(** ** Read confirmation *)

Lemma truthy_nonempty s : truthy s = true <-> s <> "".
Proof.
  unfold truthy. rewrite negb_true_iff. split.
  - intros H ->. discriminate H.
  - intros H. by apply String.eqb_neq.
Qed.

(** The predicate of [MESSAGES_UPDATED_STATUS], in words: the serverId is
    set (and not the empty string) and listed, or the localId is listed. *)
Lemma matches_ids_spec ids m :
  matches_ids ids m = true
  <-> (exists sid, serverId m = Some sid /\ sid <> "" /\ sid ∈ ids)
      \/ localId m ∈ ids.
Proof.
  unfold matches_ids. rewrite orb_true_iff, includes_elem.
  split.
  - intros [H|H]; [left|by right].
    destruct (serverId m) as [sid|]; [|done].
    apply andb_true_iff in H as [H1 H2].
    exists sid. split; [done|].
    split; [by apply truthy_nonempty | by apply includes_elem].
  - intros [(sid & -> & H1 & H2)|H]; [left|by right].
    apply andb_true_iff.
    split; [by apply truthy_nonempty | by apply includes_elem].
Qed.

Lemma map_bucket_bucket f cid m c :
  default [] (map_bucket f cid m !! c)
  = if decide (cid = c) then map f (default [] (m !! c)) else default [] (m !! c).
Proof.
  rewrite map_bucket_lookup. destruct (decide (cid = c)); [|done].
  by destruct (m !! c).
Qed.

Lemma list_lookup_map {A B} (f : A -> B) (l : list A) i :
  map f l !! i = f <$> l !! i.
Proof.
  revert i. induction l as [|x l IH]; intros [|i]; simpl; done.
Qed.

(** C5. The transition of a [messages_read] frame (on a mounted hook) keeps
    every bucket as long as it was and, position by position in the given
    conversation, sets status [Read] on the messages whose serverId is set
    and listed or whose localId is listed - whatever their status, so a
    message at [Sent] moves directly to [Read] - and leaves every other
    message as it was; other conversations and the rest of the snapshot are
    untouched. *)
Theorem messages_read_sets_read (h : Hook) (cid : string)
  (ids : list string) (by_ : string) :
  isMountedRef h = true ->
  let s := state h in
  let s' := state (onmessage (Some (messages_read cid ids by_)) h) in
  let listed m :=
    (exists sid, serverId m = Some sid /\ sid <> "" /\ sid ∈ ids)
    \/ localId m ∈ ids in
  length (bucket_of s' cid) = length (bucket_of s cid)
  /\ (forall i m, bucket_of s cid !! i = Some m ->
        (listed m -> bucket_of s' cid !! i = Some (with_status Read m))
        /\ (~ listed m -> bucket_of s' cid !! i = Some m))
  /\ (forall i m, bucket_of s cid !! i = Some m -> status m = Sent ->
        listed m -> status <$> bucket_of s' cid !! i = Some Read)
  /\ (forall c, c <> cid -> messages s' !! c = messages s !! c)
  /\ connectionStatus s' = connectionStatus s /\ error s' = error s
  /\ typingPeers s' = typingPeers s /\ peerStatuses s' = peerStatuses s.
Proof.
  intros Hm s s' listed. subst s s'. unfold onmessage. rewrite Hm. simpl.
  unfold bucket_of. simpl. rewrite map_bucket_bucket.
  destruct (decide (cid = cid)) as [_|]; [|done].
  assert (Hpos : forall i m, default [] (messages (state h) !! cid) !! i = Some m ->
            (listed m ->
               map (fun m0 => if matches_ids ids m0 then with_status Read m0 else m0)
                 (default [] (messages (state h) !! cid)) !! i
               = Some (with_status Read m))
            /\ (~ listed m ->
               map (fun m0 => if matches_ids ids m0 then with_status Read m0 else m0)
                 (default [] (messages (state h) !! cid)) !! i
               = Some m)).
  { intros i m Hi. rewrite list_lookup_map, Hi. simpl.
    pose proof (matches_ids_spec ids m) as Hspec. fold (listed m) in Hspec.
    destruct (matches_ids ids m).
    - split; [done|]. intros Hn. destruct Hn. by apply Hspec.
    - split; [|done]. intros Hl. apply Hspec in Hl. discriminate Hl. }
  split; [by rewrite length_map|]. split; [exact Hpos|]. split.
  - intros i m Hi Hs Hl. destruct (Hpos i m Hi) as [Hyes _].
    by rewrite (Hyes Hl).
  - split; [|done]. intros c Hc. rewrite map_bucket_lookup.
    destruct (decide (cid = c)); [by subst|done].
Qed.

(** C5, at alice's hook after the acknowledgement: her message is at
    [Sent] with serverId srv1, and a confirmation listing srv1 moves it to
    [Read]. *)
Lemma messages_read_sets_read_witness :
  isMountedRef sent_hook = true
  /\ status <$> bucket_of (state sent_hook) "dm:alice:bob" !! 0%nat = Some Sent
  /\ status <$> bucket_of
       (state (onmessage (Some (messages_read "dm:alice:bob" ["srv1"] "bob"))
                 sent_hook)) "dm:alice:bob" !! 0%nat
     = Some Read.
Proof.
  split; [reflexivity|]. split; [by vm_compute|].
  pose proof (messages_read_sets_read sent_hook "dm:alice:bob" ["srv1"] "bob"
                eq_refl) as H.
  destruct H as (_ & _ & H & _).
  eapply H.
  - by vm_compute.
  - reflexivity.
  - left. exists "srv1". split; [reflexivity|]. split; [done|]. apply list_elem_of_here.
Defined.

(** ** Sending and acknowledgement *)

Lemma with_localId_absent lid bucket :
  has_localId lid bucket = false -> with_localId lid bucket = [].
Proof.
  intros H. apply has_localId_not_elem in H. unfold with_localId.
  induction bucket as [|m bucket IH]; [done|].
  rewrite fmap_cons, not_elem_of_cons in H. destruct H as [Hne Hnot].
  rewrite filter_cons_False by done. by apply IH.
Qed.

(** Mapping an update over the messages of one [localId] updates exactly
    the messages with that [localId]. *)
Lemma with_localId_map_update lid g bucket :
  (forall m, localId (g m) = localId m) ->
  with_localId lid
    (map (fun m => if String.eqb (localId m) lid then g m else m) bucket)
  = map g (with_localId lid bucket).
Proof.
  intros Hg. unfold with_localId.
  induction bucket as [|m bucket IH]; [done|]. simpl.
  destruct (String.eqb_spec (localId m) lid) as [Heq|Hne].
  - rewrite !filter_cons_True by (by rewrite ?Hg). simpl. by rewrite IH.
  - by rewrite !filter_cons_False.
Qed.

Lemma map_update_absent lid g bucket :
  has_localId lid bucket = false ->
  map (fun m => if String.eqb (localId m) lid then g m else m) bucket = bucket.
Proof.
  intros H. apply has_localId_not_elem in H.
  induction bucket as [|m bucket IH]; [done|]. simpl.
  rewrite fmap_cons, not_elem_of_cons in H. destruct H as [Hne Hnot].
  destruct (String.eqb_spec (localId m) lid) as [Heq|_]; [done|].
  by rewrite IH.
Qed.

Lemma set_messages_same s : set_messages s (messages s) = s.
Proof. by destruct s. Qed.

Lemma set_state_same h : set_state h (state h) = h.
Proof. by destruct h. Qed.

(** An acknowledgement for a [localId] that the conversation does not hold
    changes nothing. *)
Lemma MESSAGE_UPDATED_absent s lid serverMsg :
  has_localId lid (bucket_of s (w_chatId serverMsg)) = false ->
  reducer s (MESSAGE_UPDATED lid serverMsg) = s.
Proof.
  unfold bucket_of. intros H. simpl. unfold map_bucket.
  destruct (messages s !! w_chatId serverMsg) as [bucket|] eqn:E; simpl in H.
  - rewrite map_update_absent by done. rewrite insert_id by done.
    apply set_messages_same.
  - apply set_messages_same.
Qed.

(** What [sendMessage] does once its three guards are passed. *)
Lemma sendMessage_passes trim toLowerCase receiver txt uuid now h self :
  myUsername h = Some self -> self <> "" -> ws_open h = true ->
  trim txt <> "" ->
  sendMessage trim toLowerCase receiver txt uuid now h
  = emit (dispatch h (MESSAGE_ADDED
            (optimistic toLowerCase self receiver (trim txt) uuid now)))
         (FrameSent (send_message receiver (trim txt) uuid)).
Proof.
  intros Hu Hs Hw Ht. unfold sendMessage, me. rewrite Hu, Hw. simpl.
  apply truthy_nonempty in Hs, Ht. by rewrite Hs, Ht.
Qed.

(** A message whose [localId] is new to its conversation is appended. *)
Lemma MESSAGE_ADDED_fresh s msg :
  has_localId (localId msg) (bucket_of s (chatId msg)) = false ->
  bucket_of (reducer s (MESSAGE_ADDED msg)) (chatId msg)
  = bucket_of s (chatId msg) ++ [msg].
Proof.
  unfold bucket_of. intros H. simpl. rewrite H. simpl.
  by rewrite lookup_insert_eq.
Qed.

(** *** A socket exists only while the hook has an identity *)

Lemma connect_ws_identity h : ws_identity h -> ws_identity (connect h).
Proof.
  unfold ws_identity, connect. intros Hi.
  destruct (truthy_opt (token h)); simpl; [|exact Hi].
  destruct (truthy_opt (myUsername h)) eqn:Eu; simpl;
    [|by rewrite Eu].
  destruct (isMountedRef h); simpl; [|by rewrite Eu].
  destruct (wsRef h); simpl; by rewrite Eu.
Qed.

Lemma scheduleReconnect_ws_identity h :
  ws_identity h -> ws_identity (scheduleReconnect h).
Proof.
  unfold ws_identity, scheduleReconnect. intros Hi.
  destruct (negb (isMountedRef h)); [done|].
  by destruct (_ <=? _)%nat.
Qed.

Lemma mount_ws_identity h : ws_identity h -> ws_identity (mount h).
Proof.
  intros Hi. unfold mount. destruct (_ || _); [done|].
  by apply connect_ws_identity.
Qed.

Lemma unmount_wsRef h : wsRef (unmount h) = None.
Proof. done. Qed.

Lemma onmessage_refs data h :
  wsRef (onmessage data h) = wsRef h
  /\ myUsername (onmessage data h) = myUsername h.
Proof.
  unfold onmessage. destruct (negb (isMountedRef h)); [done|].
  destruct data as [f|]; [|done]. destruct f; try done.
  change (wsRef (emit ?g ?e)) with (wsRef g).
  change (myUsername (emit ?g ?e)) with (myUsername g).
  generalize (map (incoming (me h)) msgs). intros l. clear msgs.
  revert h. induction l as [|m l IH]; intros h; [done|].
  simpl. destruct (IH (dispatch h (MESSAGE_ADDED m))) as [-> ->]. done.
Qed.

(** Every event keeps it so. *)
Lemma hook_step_ws_identity trim toLowerCase h e :
  ws_identity h -> ws_identity (hook_step trim toLowerCase h e).
Proof.
  intros Hi. destruct e; unfold hook_step.
  - by apply mount_ws_identity.
  - unfold ws_identity. by rewrite unmount_wsRef.
  - unfold rerender. destruct (bool_decide _); [done|].
    apply mount_ws_identity. unfold ws_identity. simpl.
    intros H. by destruct H.
  - by apply connect_ws_identity.
  - unfold ws_identity, onopen in *. simpl.
    destruct (negb (isMountedRef h)); simpl;
      destruct (wsRef h); try destruct (pingTimerRef h); simpl; auto.
  - unfold onclose. destruct (negb (isMountedRef h)).
    + unfold ws_identity in *. simpl. destruct (wsRef h); auto.
    + assert (H1 : ws_identity (after_ping_cleanup h)).
      { unfold ws_identity, after_ping_cleanup in *. simpl.
        destruct (pingTimerRef h); simpl; destruct (wsRef h); auto. }
      destruct (_ || _); [exact H1|].
      destruct (_ && _); [|exact H1].
      by apply scheduleReconnect_ws_identity.
  - unfold ws_identity. destruct (onmessage_refs data h) as [-> ->]. exact Hi.
  - by apply connect_ws_identity.
  - unfold ping_timer_fired. by destruct (ws_open h).
  - unfold typing_timer_fired. by destruct (isMountedRef h).
  - unfold hydrate. destruct (negb (truthy_opt _)); [done|].
    destruct rows; [|done]. by destruct (isMountedRef h).
  - unfold sendMessage. destruct (negb (truthy_opt _)); [done|].
    destruct (negb (ws_open h)); [done|]. by destruct (negb (truthy _)).
  - unfold markAsRead. destruct (negb (truthy_opt _)); [done|].
    destruct (map resolved_id _); [done|]. by destruct (negb (ws_open h)).
  - done.
  - unfold reconnect. by apply connect_ws_identity.
Qed.

(** From the first render on, whatever happens, a socket exists only while
    the hook has an identity. *)
Lemma hook_run_ws_identity trim toLowerCase t u es :
  ws_identity (hook_run trim toLowerCase (initial_hook t u) es).
Proof.
  unfold hook_run.
  assert (H0 : ws_identity (initial_hook t u)) by (by intros H).
  revert H0. generalize (initial_hook t u).
  induction es as [|e es IH]; intros h Hh; simpl; [done|].
  by apply IH, hook_step_ws_identity.
Qed.

(** C10. [sendMessage], in any state of the hook (in all of which a socket
    exists only while the hook has an identity, [hook_run_ws_identity]):
    when the text trims to the empty string, or the socket is absent or not
    open, the hook is left as it was - same snapshot, no frame in the trace
    (nothing is queued, nothing is marked failed). Otherwise exactly one
    [MESSAGE_ADDED] is dispatched with a message that carries the trimmed
    text, status [Sending], the generated [localId], the conversation key
    of the two users and the current time, one [send_message] frame is
    sent, and a [localId] that is new to the conversation makes the message
    the last of its bucket. *)
Theorem sendMessage_discards_or_appends
  (trim toLowerCase : string -> string) (receiver txt uuid : string)
  (now : Z) (h : Hook) :
  ws_identity h ->
  let h' := sendMessage trim toLowerCase receiver txt uuid now h in
  (trim txt = "" \/ ws_open h = false -> h' = h)
  /\ (trim txt <> "" -> ws_open h = true ->
      let msg :=
        {| localId := uuid; serverId := None;
           chatId := dmChatId toLowerCase (me h) receiver;
           senderUsername := me h; receiverUsername := receiver;
           text := trim txt; timestamp := now; status := Sending |} in
      state h' = reducer (state h) (MESSAGE_ADDED msg)
      /\ effects h' = effects h ++ [FrameSent (send_message receiver (trim txt) uuid)]
      /\ (has_localId uuid (bucket_of (state h) (chatId msg)) = false ->
          bucket_of (state h') (chatId msg)
          = bucket_of (state h) (chatId msg) ++ [msg])).
Proof.
  intros Hi h'. subst h'. split.
  - intros Hg. unfold sendMessage.
    destruct (truthy_opt (myUsername h)); simpl; [|done].
    destruct (ws_open h); simpl; [|done].
    destruct Hg as [Ht|Hw]; [|done].
    by rewrite Ht.
  - intros Ht Hw msg.
    assert (Hu : truthy_opt (myUsername h) = true).
    { apply Hi. unfold ws_open in Hw. by destruct (wsRef h). }
    destruct (myUsername h) as [self|] eqn:Eu; [|done].
    simpl in Hu. apply truthy_nonempty in Hu.
    assert (Hme : me h = self) by (unfold me; by rewrite Eu).
    subst msg. rewrite Hme.
    rewrite (sendMessage_passes _ _ _ _ _ _ _ self) by done.
    split; [done|]. split; [done|].
    intros Hfresh. simpl.
    exact (MESSAGE_ADDED_fresh (state h)
             (optimistic toLowerCase self receiver (trim txt) uuid now) Hfresh).
Qed.

(** C10, at alice's hook: a blank text changes nothing; hi is appended
    as a message at [Sending] and sent as one frame. *)
Lemma sendMessage_discards_or_appends_witness :
  ws_identity fresh_hook
  /\ sendMessage id_string id_string "bob" "" "u1" 50 fresh_hook = fresh_hook
  /\ bucket_of (state (sendMessage id_string id_string "bob" "hi" "u1" 50 fresh_hook))
       "dm:alice:bob"
     = [ {| localId := "u1"; serverId := None; chatId := "dm:alice:bob";
            senderUsername := "alice"; receiverUsername := "bob";
            text := "hi"; timestamp := 50; status := Sending |} ]
  /\ effects (sendMessage id_string id_string "bob" "hi" "u1" 50 fresh_hook)
     = [FrameSent (send_message "bob" "hi" "u1")].
Proof.
  assert (Hi : ws_identity fresh_hook) by (intros _; reflexivity).
  split; [exact Hi|].
  pose proof (sendMessage_discards_or_appends id_string id_string
                "bob" "" "u1" 50 fresh_hook Hi) as [Hblank _].
  pose proof (sendMessage_discards_or_appends id_string id_string
                "bob" "hi" "u1" 50 fresh_hook Hi) as [_ Hsend].
  split; [apply Hblank; by left|].
  destruct Hsend as (_ & He & Hb); [done | reflexivity |].
  split; [exact (Hb eq_refl) | exact He].
Defined.

Lemma state_dispatch h a : state (dispatch h a) = reducer (state h) a.
Proof. reflexivity. Qed.

Lemma onmessage_message_sent lid serverMsg h :
  isMountedRef h = true ->
  onmessage (Some (message_sent lid serverMsg)) h
  = dispatch h (MESSAGE_UPDATED (default "" lid) serverMsg).
Proof. intros Hm. unfold onmessage. by rewrite Hm. Qed.

(** The bucket of the acknowledged conversation after [MESSAGE_UPDATED]. *)
Lemma MESSAGE_UPDATED_bucket s lid serverMsg :
  bucket_of (reducer s (MESSAGE_UPDATED lid serverMsg)) (w_chatId serverMsg)
  = map (fun m => if String.eqb (localId m) lid
                  then acknowledged serverMsg m else m)
      (bucket_of s (w_chatId serverMsg)).
Proof.
  unfold bucket_of. simpl. rewrite map_bucket_bucket.
  by destruct (decide (w_chatId serverMsg = w_chatId serverMsg)).
Qed.

(** C6. Optimistic send then acknowledgement. On a mounted hook with an
    identity and an open socket, sending a text that does not trim to the
    empty string under a [localId] new to the conversation leaves exactly
    one message with that [localId] there, at [Sending]; the [message_sent]
    frame for that [localId] and conversation then leaves exactly one, with
    the serverId of the frame's message id, status [Sent] and the timestamp
    of the server, the rest of it as sent. A [message_sent] frame whose
    [localId] no message of its conversation carries leaves the hook as it
    was. *)
Theorem optimistic_send_then_ack
  (trim toLowerCase : string -> string) (receiver txt uuid self : string)
  (now : Z) (serverMsg : WireMessage) (h : Hook) :
  isMountedRef h = true ->
  let cid := dmChatId toLowerCase self receiver in
  let h1 := sendMessage trim toLowerCase receiver txt uuid now h in
  let h2 := onmessage (Some (message_sent (Some uuid) serverMsg)) h1 in
  (myUsername h = Some self -> self <> "" -> ws_open h = true ->
   trim txt <> "" ->
   has_localId uuid (bucket_of (state h) cid) = false ->
   w_chatId serverMsg = cid ->
   with_localId uuid (bucket_of (state h1) cid)
   = [ {| localId := uuid; serverId := None; chatId := cid;
          senderUsername := self; receiverUsername := receiver;
          text := trim txt; timestamp := now; status := Sending |} ]
   /\ with_localId uuid (bucket_of (state h2) cid)
      = [ {| localId := uuid; serverId := Some (w_id serverMsg); chatId := cid;
             senderUsername := self; receiverUsername := receiver;
             text := trim txt; timestamp := w_timestamp serverMsg;
             status := Sent |} ])
  /\ (forall lid,
        has_localId (default "" lid) (bucket_of (state h) (w_chatId serverMsg))
          = false ->
        onmessage (Some (message_sent lid serverMsg)) h = h).
Proof.
  intros Hm cid h1 h2. split.
  - intros Hu Hs Hw Ht Hfresh Hcid.
    assert (E1 : h1 = emit (dispatch h (MESSAGE_ADDED
                   (optimistic toLowerCase self receiver (trim txt) uuid now)))
                   (FrameSent (send_message receiver (trim txt) uuid)))
      by (by apply sendMessage_passes).
    assert (Hb1 : bucket_of (state h1) cid
                  = bucket_of (state h) cid
                    ++ [optimistic toLowerCase self receiver (trim txt) uuid now]).
    { rewrite E1. simpl.
      exact (MESSAGE_ADDED_fresh (state h)
               (optimistic toLowerCase self receiver (trim txt) uuid now) Hfresh). }
    assert (Hw1 : with_localId uuid (bucket_of (state h1) cid)
                  = [optimistic toLowerCase self receiver (trim txt) uuid now]).
    { rewrite Hb1. unfold with_localId. rewrite filter_app.
      fold (with_localId uuid (bucket_of (state h) cid)).
      rewrite with_localId_absent by done.
      by rewrite filter_cons_True. }
    split; [exact Hw1|].
    assert (Hm1 : isMountedRef h1 = true) by (by rewrite E1).
    subst h2. rewrite onmessage_message_sent, state_dispatch by done.
    simpl default.
    rewrite <- Hcid, MESSAGE_UPDATED_bucket, Hcid.
    rewrite with_localId_map_update by done.
    by rewrite Hw1.
  - intros lid Habsent. rewrite onmessage_message_sent by done.
    unfold dispatch. rewrite MESSAGE_UPDATED_absent by done.
    apply set_state_same.
Qed.

(** C6, at alice's hook: hi to bob under u1, acknowledged as srv1 at time
    60; and an acknowledgement for an unknown [localId] is dropped. *)
Lemma optimistic_send_then_ack_witness :
  with_localId "u1" (bucket_of (state sent_hook) "dm:alice:bob")
  = [ {| localId := "u1"; serverId := Some "srv1"; chatId := "dm:alice:bob";
         senderUsername := "alice"; receiverUsername := "bob";
         text := "hi"; timestamp := 60; status := Sent |} ]
  /\ onmessage (Some ack_u1) fresh_hook = fresh_hook.
Proof.
  pose proof (optimistic_send_then_ack id_string id_string "bob" "hi" "u1"
                "alice" 50 (wire "srv1" "dm:alice:bob" "alice" 60) fresh_hook
                eq_refl) as [Hsend Hdrop].
  split.
  - destruct Hsend as [_ H]; [reflexivity | done | reflexivity | done
                             | reflexivity | reflexivity |].
    exact H.
  - apply (Hdrop (Some "u1")). reflexivity.
Defined.

(** ** Merging inbound messages *)

Lemma has_localId_app lid b1 b2 :
  has_localId lid (b1 ++ b2) = has_localId lid b1 || has_localId lid b2.
Proof. unfold has_localId. apply existsb_app. Qed.

Lemma has_localId_perm lid b1 b2 :
  b1 ≡ₚ b2 -> has_localId lid b1 = has_localId lid b2.
Proof.
  intros Hp.
  destruct (has_localId lid b1) eqn:E1, (has_localId lid b2) eqn:E2; try done.
  - apply has_localId_elem in E1. apply has_localId_not_elem in E2.
    destruct E2. by rewrite <- Hp.
  - apply has_localId_elem in E2. apply has_localId_not_elem in E1.
    destruct E1. by rewrite Hp.
Qed.

(** A merge keeps what a bucket holds. *)
Lemma bulk_add_one_keeps m msg c lid :
  has_localId lid (default [] (m !! c)) = true ->
  has_localId lid (default [] (bulk_add_one m msg !! c)) = true.
Proof.
  intros H. rewrite bulk_add_one_bucket.
  destruct (decide (chatId msg = c)); [|done].
  set (b := default [] (m !! c)) in *.
  destruct (has_localId (localId msg) b); [done|].
  by rewrite has_localId_app, H.
Qed.

(** After its merge a message is held by its bucket. *)
Lemma bulk_add_one_has m msg :
  has_localId (localId msg) (default [] (bulk_add_one m msg !! chatId msg))
  = true.
Proof.
  rewrite bulk_add_one_bucket.
  destruct (decide (chatId msg = chatId msg)); [|done].
  set (b := default [] (m !! chatId msg)).
  destruct (has_localId (localId msg) b) eqn:E; [done|].
  rewrite has_localId_app. simpl. by rewrite String.eqb_refl, orb_true_r.
Qed.

Lemma foldl_bulk_keeps msgs m c lid :
  has_localId lid (default [] (m !! c)) = true ->
  has_localId lid (default [] (foldl bulk_add_one m msgs !! c)) = true.
Proof.
  revert m. induction msgs as [|msg msgs IH]; intros m H; simpl; [done|].
  by apply IH, bulk_add_one_keeps.
Qed.

Lemma foldl_bulk_has msgs m msg :
  msg ∈ msgs ->
  has_localId (localId msg)
    (default [] (foldl bulk_add_one m msgs !! chatId msg)) = true.
Proof.
  revert m. induction msgs as [|x msgs IH]; intros m Hin; [by inversion Hin|].
  simpl. apply elem_of_cons in Hin as [->|Hin].
  - apply foldl_bulk_keeps, bulk_add_one_has.
  - by apply IH.
Qed.

(** Merging a message that its bucket holds changes nothing. *)
Lemma bulk_add_one_held m msg :
  has_localId (localId msg) (default [] (m !! chatId msg)) = true ->
  bulk_add_one m msg = m.
Proof. intros H. unfold bulk_add_one. by rewrite H. Qed.

Lemma foldl_bulk_held msgs m :
  (forall msg, msg ∈ msgs ->
     has_localId (localId msg) (default [] (m !! chatId msg)) = true) ->
  foldl bulk_add_one m msgs = m.
Proof.
  induction msgs as [|x msgs IH]; intros H; simpl; [done|].
  rewrite bulk_add_one_held by (apply H, list_elem_of_here).
  apply IH. intros msg Hin. by apply H, list_elem_of_further.
Qed.

Lemma sort_all_bucket m c :
  default [] (sort_all m !! c) ≡ₚ default [] (m !! c).
Proof.
  rewrite sort_all_lookup. destruct (m !! c); simpl; [|done].
  apply sort_by_timestamp_perm.
Qed.

(** Merging a list of messages a second time changes nothing, also once
    the buckets have been sorted. *)
Lemma foldl_bulk_twice msgs m :
  foldl bulk_add_one (foldl bulk_add_one m msgs) msgs
  = foldl bulk_add_one m msgs.
Proof. apply foldl_bulk_held. intros msg Hin. by apply foldl_bulk_has. Qed.

Lemma foldl_bulk_sorted_twice msgs m :
  foldl bulk_add_one (sort_all (foldl bulk_add_one m msgs)) msgs
  = sort_all (foldl bulk_add_one m msgs).
Proof.
  apply foldl_bulk_held. intros msg Hin.
  rewrite (has_localId_perm _ _ _ (sort_all_bucket _ _)).
  by apply foldl_bulk_has.
Qed.

Lemma MESSAGE_ADDED_state s payload :
  reducer s (MESSAGE_ADDED payload)
  = set_messages s (bulk_add_one (messages s) payload).
Proof.
  simpl. unfold bulk_add_one.
  destruct (has_localId _ _); [|done]. by rewrite set_messages_same.
Qed.

Lemma set_messages_twice s m1 m2 :
  set_messages (set_messages s m1) m2 = set_messages s m2.
Proof. done. Qed.

(** The state after the [forEach] of the backlog flush. *)
Lemma foldl_MESSAGE_ADDED_state msgs h :
  state (foldl (fun h' m => dispatch h' (MESSAGE_ADDED m)) h msgs)
  = set_messages (state h) (foldl bulk_add_one (messages (state h)) msgs).
Proof.
  revert h. induction msgs as [|msg msgs IH]; intros h; simpl.
  - by rewrite set_messages_same.
  - rewrite IH, state_dispatch, MESSAGE_ADDED_state. by simpl.
Qed.

Lemma foldl_MESSAGE_ADDED_refs msgs h :
  isMountedRef (foldl (fun h' m => dispatch h' (MESSAGE_ADDED m)) h msgs)
  = isMountedRef h
  /\ myUsername (foldl (fun h' m => dispatch h' (MESSAGE_ADDED m)) h msgs)
     = myUsername h.
Proof.
  revert h. induction msgs as [|msg msgs IH]; intros h; simpl; [done|].
  destruct (IH (dispatch h (MESSAGE_ADDED msg))) as [-> ->]. done.
Qed.

(** The snapshot after an inbound message frame: its messages are merged
    into the buckets, and a history replay sorts every bucket. *)
Lemma onmessage_message_frame f h :
  isMountedRef h = true -> is_message_frame f = true ->
  let h' := onmessage (Some f) h in
  state h'
  = set_messages (state h)
      ((match f with history _ _ _ => sort_all | _ => fun m => m end)
         (foldl bulk_add_one (messages (state h)) (frame_messages (me h) f)))
  /\ isMountedRef h' = true /\ myUsername h' = myUsername h.
Proof.
  intros Hm Hf h'. subst h'. unfold onmessage. rewrite Hm. cbn [negb].
  destruct f; try discriminate Hf.
  - rewrite state_dispatch, MESSAGE_ADDED_state. done.
  - change (state (emit ?g ?e)) with (state g).
    change (isMountedRef (emit ?g ?e)) with (isMountedRef g).
    change (myUsername (emit ?g ?e)) with (myUsername g).
    rewrite foldl_MESSAGE_ADDED_state.
    destruct (foldl_MESSAGE_ADDED_refs (map (incoming (me h)) msgs) h) as [-> ->].
    done.
  - rewrite state_dispatch. done.
Qed.

Lemma frame_keys_messages self f :
  frame_keys f = map (fun m => (chatId m, localId m)) (frame_messages self f).
Proof.
  destruct f; simpl; try done.
  - induction msgs as [|m msgs IH]; simpl; [done|]. by rewrite IH.
  - induction msgs as [|m msgs IH]; simpl; [done|]. by rewrite IH.
Qed.

(** In a bucket without repeated [localId]s, a [localId] that is held is
    held by exactly one message. *)
Lemma with_localId_one lid bucket :
  NoDup (localId <$> bucket) -> has_localId lid bucket = true ->
  length (with_localId lid bucket) = 1%nat.
Proof.
  unfold with_localId. induction bucket as [|m bucket IH]; [done|].
  rewrite fmap_cons, NoDup_cons. intros [Hnot Hnd] Hhas.
  destruct (decide (localId m = lid)) as [Heq|Hne].
  - rewrite filter_cons_True by done. simpl. f_equal.
    subst lid. apply has_localId_not_elem in Hnot.
    fold (with_localId (localId m) bucket).
    by rewrite with_localId_absent.
  - rewrite filter_cons_False by done. apply IH; [done|].
    simpl in Hhas. apply orb_true_iff in Hhas as [Hhas|Hhas]; [|done].
    by apply String.eqb_eq in Hhas.
Qed.

Lemma unique_map_bucket m c :
  unique_map m -> NoDup (localId <$> default [] (m !! c)).
Proof.
  intros Hu. destruct (m !! c) as [b|] eqn:E; simpl; [by apply (Hu c)|].
  constructor.
Qed.

(** C9. Idempotent merge. For every reachable snapshot and every inbound
    message frame ([new_message], [pending_messages], [history]) received
    by the mounted hook, receiving the same frame a second time leaves the
    snapshot exactly as the first reception left it, and after one or two
    receptions each message of the frame is the only message with its
    [localId] in its conversation bucket. *)
Theorem inbound_merge_idempotent (h : Hook) (f : ServerFrame) :
  isMountedRef h = true -> is_message_frame f = true ->
  reachable (state h) ->
  let h1 := onmessage (Some f) h in
  let h2 := onmessage (Some f) h1 in
  state h2 = state h1
  /\ forall c l, (c, l) ∈ frame_keys f ->
       length (with_localId l (bucket_of (state h1) c)) = 1%nat
       /\ length (with_localId l (bucket_of (state h2) c)) = 1%nat.
Proof.
  intros Hm Hf Hr h1 h2.
  destruct (onmessage_message_frame f h Hm Hf) as (Es1 & Hm1 & Hu1).
  fold h1 in Es1, Hm1, Hu1.
  destruct (onmessage_message_frame f h1 Hm1 Hf) as (Es2 & _).
  fold h2 in Es2.
  assert (Hme : me h1 = me h) by (unfold me; by rewrite Hu1).
  rewrite Hme in Es2.
  set (msgs := frame_messages (me h) f) in *.
  set (M := foldl bulk_add_one (messages (state h)) msgs) in *.
  assert (Hsame : state h2 = state h1).
  { rewrite Es2, Es1, set_messages_twice.
    change (messages (set_messages ?s ?m)) with m.
    f_equal. subst M.
    destruct f; try discriminate Hf.
    - apply foldl_bulk_twice.
    - apply foldl_bulk_twice.
    - by rewrite foldl_bulk_sorted_twice, sort_all_idemp. }
  split; [exact Hsame|].
  intros c l Hin. rewrite Hsame.
  enough (length (with_localId l (bucket_of (state h1) c)) = 1%nat) by done.
  rewrite (frame_keys_messages (me h)) in Hin. fold msgs in Hin.
  apply list_elem_of_In, in_map_iff in Hin as (msg & Hkey & Hin).
  apply list_elem_of_In in Hin. injection Hkey as <- <-.
  assert (HuM : unique_map M).
  { subst M. apply unique_map_foldl_bulk. by apply reachable_unique. }
  assert (HhasM : has_localId (localId msg) (default [] (M !! chatId msg)) = true)
    by (by apply foldl_bulk_has).
  rewrite Es1. unfold bucket_of. simpl.
  destruct f; try discriminate Hf.
  - apply with_localId_one; [by apply unique_map_bucket|done].
  - apply with_localId_one; [by apply unique_map_bucket|done].
  - apply with_localId_one.
    + by apply unique_map_bucket, unique_map_sort_all.
    + by rewrite (has_localId_perm _ _ _ (sort_all_bucket _ _)).
Qed.

(** C9, at alice's hook: the same [new_message] frame twice. *)
Lemma inbound_merge_idempotent_witness :
  let f := new_message (wire "m1" "dm:alice:bob" "bob" 100) in
  state (onmessage (Some f) (onmessage (Some f) fresh_hook))
  = state (onmessage (Some f) fresh_hook)
  /\ length (with_localId "m1"
       (bucket_of (state (onmessage (Some f) (onmessage (Some f) fresh_hook)))
          "dm:alice:bob")) = 1%nat.
Proof.
  intros f.
  assert (Hr : reachable (state fresh_hook))
    by exact (reachable_step initialState CONNECTED reachable_init).
  pose proof (inbound_merge_idempotent fresh_hook f eq_refl eq_refl Hr) as [H1 H2].
  split; [exact H1|].
  apply (H2 "dm:alice:bob" "m1"). apply list_elem_of_here.
Defined.

(** ** Status of a message along the transitions *)

Lemma find_localId_elem lid bucket m :
  find (fun x => String.eqb (localId x) lid) bucket = Some m ->
  m ∈ bucket /\ localId m = lid.
Proof.
  intros H. apply find_some in H as [Hin Heq].
  split; [by apply list_elem_of_In | by apply String.eqb_eq].
Qed.

(** In a bucket without repeated [localId]s the search by [localId] finds
    each message of the bucket. *)
Lemma find_localId_unique bucket m :
  NoDup (localId <$> bucket) -> m ∈ bucket ->
  find (fun x => String.eqb (localId x) (localId m)) bucket = Some m.
Proof.
  induction bucket as [|x bucket IH]; [by inversion 2|].
  rewrite fmap_cons, NoDup_cons. intros [Hnot Hnd] Hin. simpl.
  apply elem_of_cons in Hin as [->|Hin].
  - by rewrite String.eqb_refl.
  - destruct (String.eqb_spec (localId x) (localId m)) as [Heq|_]; [|by apply IH].
    destruct Hnot. rewrite Heq. apply list_elem_of_fmap. by exists m.
Qed.

Lemma find_localId_map lid f bucket :
  (forall x, localId (f x) = localId x) ->
  find (fun x => String.eqb (localId x) lid) (map f bucket)
  = f <$> find (fun x => String.eqb (localId x) lid) bucket.
Proof.
  intros Hf. induction bucket as [|x bucket IH]; [done|]. simpl.
  rewrite Hf. by destruct (String.eqb (localId x) lid).
Qed.

Lemma bulk_add_one_elem m msg c x :
  x ∈ default [] (m !! c) -> x ∈ default [] (bulk_add_one m msg !! c).
Proof.
  intros H. rewrite bulk_add_one_bucket.
  destruct (decide (chatId msg = c)); [|done].
  set (b := default [] (m !! c)) in *.
  destruct (has_localId (localId msg) b); [done|].
  apply elem_of_app. by left.
Qed.

Lemma foldl_bulk_elem msgs m c x :
  x ∈ default [] (m !! c) -> x ∈ default [] (foldl bulk_add_one m msgs !! c).
Proof.
  revert m. induction msgs as [|msg msgs IH]; intros m H; simpl; [done|].
  by apply IH, bulk_add_one_elem.
Qed.

(** Where the messages of a merged bucket come from. *)
Lemma foldl_bulk_origin msgs m c x :
  x ∈ default [] (foldl bulk_add_one m msgs !! c) ->
  x ∈ default [] (m !! c) \/ x ∈ msgs.
Proof.
  revert m. induction msgs as [|msg msgs IH]; intros m H; simpl in *; [by left|].
  apply IH in H as [H|H]; [|right; by apply list_elem_of_further].
  rewrite bulk_add_one_bucket in H.
  destruct (decide (chatId msg = c)); [|by left].
  set (b := default [] (m !! c)) in *.
  destruct (has_localId (localId msg) b); [by left|].
  apply elem_of_app in H as [H|H]; [by left|].
  apply list_elem_of_singleton in H as ->. right. apply list_elem_of_here.
Qed.

(** A merge (with or without the sort) keeps each message findable under
    its [localId]. *)
Lemma lookup_after_merge (sorted : bool) msgs m cid x :
  unique_map m -> x ∈ default [] (m !! cid) ->
  find (fun y => String.eqb (localId y) (localId x))
    (default []
       ((if sorted then sort_all else fun m0 => m0)
          (foldl bulk_add_one m msgs) !! cid))
  = Some x.
Proof.
  intros Hu Hin.
  pose proof (unique_map_foldl_bulk m msgs Hu) as HuM.
  pose proof (foldl_bulk_elem msgs m cid x Hin) as HinM.
  destruct sorted.
  - apply find_localId_unique.
    + by apply unique_map_bucket, unique_map_sort_all.
    + by rewrite sort_all_bucket.
  - apply find_localId_unique; [by apply unique_map_bucket|done].
Qed.

(** One transition of the normal flow of a message: it stays findable, its
    author is who it was, and its status is what it was or [Sent]. *)
Lemma normal_flow_step self cid lid s a m :
  unique_in_buckets s ->
  lookup_message s cid lid = Some m -> senderUsername m = self ->
  normal_flow self cid m a = true ->
  exists m', lookup_message (reducer s a) cid lid = Some m'
             /\ senderUsername m' = self
             /\ (status m' = status m \/ status m' = Sent).
Proof.
  unfold lookup_message, bucket_of. intros Hu Hl Hs Hn.
  destruct (find_localId_elem _ _ _ Hl) as [Hin Hlid].
  assert (Hkeep : forall s', messages s' = messages s ->
            exists m', find (fun x => String.eqb (localId x) lid)
                         (default [] (messages s' !! cid)) = Some m'
                       /\ senderUsername m' = self
                       /\ (status m' = status m \/ status m' = Sent)).
  { intros s' ->. exists m. by repeat split; [| |left]. }
  assert (Hmap : forall f c,
            (forall x, localId (f x) = localId x) ->
            (c = cid -> senderUsername (f m) = self
                        /\ (status (f m) = status m \/ status (f m) = Sent)) ->
            exists m', find (fun x => String.eqb (localId x) lid)
                         (default [] (map_bucket f c (messages s) !! cid)) = Some m'
                       /\ senderUsername m' = self
                       /\ (status m' = status m \/ status m' = Sent)).
  { intros f c Hf Hc. rewrite map_bucket_bucket.
    destruct (decide (c = cid)) as [->|Hne].
    - rewrite find_localId_map, Hl by done. simpl.
      exists (f m). split; [done|]. by apply Hc.
    - exists m. by repeat split; [| |left]. }
  assert (Hmerge : forall (sorted : bool) msgs,
            exists m', find (fun x => String.eqb (localId x) lid)
                         (default []
                            ((if sorted then sort_all else fun m0 => m0)
                               (foldl bulk_add_one (messages s) msgs) !! cid))
                       = Some m'
                       /\ senderUsername m' = self
                       /\ (status m' = status m \/ status m' = Sent)).
  { intros sorted msgs. exists m. rewrite <- Hlid.
    rewrite lookup_after_merge by done. by repeat split; [|left]. }
  destruct a; try (apply Hkeep; reflexivity).
  - simpl. rewrite foldl_hydrate_bulk. apply (Hmerge true).
  - rewrite messages_MESSAGE_ADDED.
    apply (Hmerge false [payload]).
  - simpl. apply Hmap.
    + intros x. by destruct (String.eqb _ _).
    + intros _. destruct (String.eqb _ _); simpl; [by split; [|right]|].
      by split; [|left].
  - simpl. apply (Hmerge true).
  - simpl. apply Hmap.
    + intros x. by destruct (_ && _).
    + intros ->. simpl in Hn. rewrite String.eqb_refl in Hn. simpl in Hn.
      apply String.eqb_eq in Hn. subst readerUsername.
      rewrite <- Hs, String.eqb_refl. simpl. by split; [|left].
  - simpl. apply Hmap.
    + intros x. by destruct (includes _ _).
    + intros ->. simpl in Hn. rewrite String.eqb_refl in Hn. simpl in Hn.
      apply negb_true_iff in Hn. rewrite Hn. by split; [|left].
  - simpl. simpl in Hn. apply negb_true_iff, String.eqb_neq in Hn.
    rewrite lookup_delete_ne by done. exists m. by repeat split; [| |left].
  - simpl. apply Hmap.
    + intros x. by destruct (matches_ids _ _).
    + intros ->. simpl in Hn. rewrite String.eqb_refl in Hn. simpl in Hn.
      apply negb_true_iff in Hn. rewrite Hn. by split; [|left].
Qed.

(** C3, as stated, fails: alice's message u0 is hydrated at [Read] (bob
    read it in an earlier session); a [message_sent] frame for u0 - an
    acknowledgement, not a read confirmation - puts it back to [Sent]. *)
Lemma acknowledgement_regresses_read :
  let h1 := hydrate (Some [read_row]) fresh_hook in
  let a := MESSAGE_UPDATED "u0" (wire "srv0" "dm:alice:bob" "alice" 10) in
  let h2 := onmessage (Some (message_sent (Some "u0")
                               (wire "srv0" "dm:alice:bob" "alice" 10))) h1 in
  reachable (state h1)
  /\ lookup_message (state h1) "dm:alice:bob" "u0" = Some read_row
  /\ senderUsername read_row = me h1
  /\ status read_row = Read
  /\ confirms_read "dm:alice:bob" read_row a = false
  /\ state h2 = reducer (state h1) a
  /\ status <$> lookup_message (state h2) "dm:alice:bob" "u0" = Some Sent
  /\ progresses Read Sent = false.
Proof.
  split.
  { exact (reachable_step _ (DB_HYDRATED [read_row])
             (reachable_step initialState CONNECTED reachable_init)). }
  repeat split; by vm_compute.
Qed.

(** C3, amended. For a message that [self] wrote and that is at [Sending]
    or [Sent], over every sequence of reducer transitions from a reachable
    snapshot in which no read confirmation names it, the local reads of its
    conversation are by [self] and its conversation is not cleared: the
    message stays in its bucket under its [localId] with its author, its
    status only ever stays or moves from [Sending] to [Sent] - never back,
    never to [Delivered], [Read] or [Failed]. *)
Theorem status_progress_in_normal_flow (self cid lid : string)
  (acts : list SocketAction) (s : SocketState) (m : ChatMessage) :
  reachable s ->
  lookup_message s cid lid = Some m -> senderUsername m = self ->
  status m = Sending \/ status m = Sent ->
  normal_trace self cid lid s acts = true ->
  exists m', lookup_message (dispatch_all s acts) cid lid = Some m'
             /\ senderUsername m' = self
             /\ (status m' = status m
                 \/ (status m = Sending /\ status m' = Sent))
             /\ progresses (status m) (status m') = true.
Proof.
  intros Hr. apply reachable_unique in Hr.
  revert s m Hr. induction acts as [|a acts IH]; intros s m Hu Hl Hs Hst Hn.
  - exists m. simpl. split; [done|]. split; [done|]. split; [by left|].
    by destruct Hst as [-> | ->].
  - simpl in Hn. rewrite Hl in Hn. apply andb_true_iff in Hn as [Hn Hrest].
    destruct (normal_flow_step self cid lid s a m Hu Hl Hs Hn)
      as (m1 & Hl1 & Hs1 & Hst1).
    assert (Hst1' : status m1 = Sending \/ status m1 = Sent).
    { destruct Hst1 as [E|E]; rewrite E; [done | by right]. }
    destruct (IH (reducer s a) m1 (reducer_unique s a Hu) Hl1 Hs1 Hst1' Hrest)
      as (m' & Hl' & Hs' & Hst' & _).
    exists m'. simpl. split; [done|]. split; [done|].
    assert (Hfin : status m' = status m
                   \/ (status m = Sending /\ status m' = Sent)).
    { destruct Hst as [E|E], Hst1 as [E1|E1], Hst' as [E'|[E' E'']];
        rewrite ?E, ?E1, ?E', ?E'' in *; try congruence; auto. }
    split; [exact Hfin|].
    destruct Hfin as [E|[E1 E2]]; [|by rewrite E1, E2].
    rewrite E. by destruct Hst as [E1|E1]; rewrite E1.
Qed.

(** C3, amended, at alice's hook: the message she sent, over a trace with a
    duplicate send, the acknowledgement, a local read by alice and an
    incoming message. *)
Lemma status_progress_in_normal_flow_witness :
  exists m',
    lookup_message
      (dispatch_all (state sending_hook)
         [MESSAGE_ADDED (optimistic id_string "alice" "bob" "hi" "u1" 70);
          MESSAGE_UPDATED "u1" (wire "srv1" "dm:alice:bob" "alice" 60);
          MESSAGES_MARKED_READ "dm:alice:bob" "alice";
          MESSAGE_ADDED from_bob])
      "dm:alice:bob" "u1" = Some m'
    /\ status m' = Sent.
Proof.
  assert (Hr : reachable (state sending_hook)).
  { exact (reachable_step _
             (MESSAGE_ADDED (optimistic id_string "alice" "bob" "hi" "u1" 50))
             (reachable_step initialState CONNECTED reachable_init)). }
  destruct (status_progress_in_normal_flow "alice" "dm:alice:bob" "u1"
              [MESSAGE_ADDED (optimistic id_string "alice" "bob" "hi" "u1" 70);
               MESSAGE_UPDATED "u1" (wire "srv1" "dm:alice:bob" "alice" 60);
               MESSAGES_MARKED_READ "dm:alice:bob" "alice";
               MESSAGE_ADDED from_bob]
              (state sending_hook)
              (optimistic id_string "alice" "bob" "hi" "u1" 50)
              Hr eq_refl eq_refl (or_introl eq_refl) eq_refl)
    as (m' & Hl & _ & Hst & _).
  exists m'. split; [exact Hl|].
  assert (E : lookup_message
      (dispatch_all (state sending_hook)
         [MESSAGE_ADDED (optimistic id_string "alice" "bob" "hi" "u1" 70);
          MESSAGE_UPDATED "u1" (wire "srv1" "dm:alice:bob" "alice" 60);
          MESSAGES_MARKED_READ "dm:alice:bob" "alice";
          MESSAGE_ADDED from_bob])
      "dm:alice:bob" "u1"
      = Some {| localId := "u1"; serverId := Some "srv1";
                chatId := "dm:alice:bob"; senderUsername := "alice";
                receiverUsername := "bob"; text := "hi"; timestamp := 60;
                status := Sent |}) by (by vm_compute).
  rewrite E in Hl. by injection Hl as <-.
Defined.

(** ** The [Failed] status *)

Lemma no_failed_bulk_add_one m msg :
  map_Forall (fun _ b => Forall (fun x => status x <> Failed) b) m ->
  status msg <> Failed ->
  map_Forall (fun _ b => Forall (fun x => status x <> Failed) b)
    (bulk_add_one m msg).
Proof.
  intros Hm Hmsg c bucket Hc.
  assert (Hb : bucket = default [] (bulk_add_one m msg !! c)) by (by rewrite Hc).
  rewrite bulk_add_one_bucket in Hb.
  assert (Hold : Forall (fun x => status x <> Failed) (default [] (m !! c))).
  { destruct (m !! c) as [b|] eqn:E; simpl; [by apply (Hm c)|constructor]. }
  destruct (decide (chatId msg = c)); [|by subst].
  set (b := default [] (m !! c)) in *.
  destruct (has_localId (localId msg) b); [by subst|].
  subst bucket. apply Forall_app. split; [done|]. by constructor.
Qed.

Lemma no_failed_foldl_bulk msgs m :
  map_Forall (fun _ b => Forall (fun x => status x <> Failed) b) m ->
  Forall (fun x => status x <> Failed) msgs ->
  map_Forall (fun _ b => Forall (fun x => status x <> Failed) b)
    (foldl bulk_add_one m msgs).
Proof.
  revert m. induction msgs as [|msg msgs IH]; intros m Hm Hmsgs; simpl; [done|].
  apply Forall_cons in Hmsgs as [H1 H2].
  by apply IH; [apply no_failed_bulk_add_one|].
Qed.

Lemma no_failed_sort_all m :
  map_Forall (fun _ b => Forall (fun x => status x <> Failed) b) m ->
  map_Forall (fun _ b => Forall (fun x => status x <> Failed) b) (sort_all m).
Proof.
  intros Hm c bucket. rewrite sort_all_lookup.
  destruct (m !! c) as [b|] eqn:E; simpl; [|done].
  intros [= <-]. rewrite sort_by_timestamp_perm. by apply (Hm c).
Qed.

Lemma no_failed_map_bucket f cid m :
  (forall x, status x <> Failed -> status (f x) <> Failed) ->
  map_Forall (fun _ b => Forall (fun x => status x <> Failed) b) m ->
  map_Forall (fun _ b => Forall (fun x => status x <> Failed) b)
    (map_bucket f cid m).
Proof.
  intros Hf Hm c bucket. rewrite map_bucket_lookup.
  destruct (decide (cid = c)) as [->|]; [|by apply Hm].
  destruct (m !! c) as [b|] eqn:E; simpl; [|done].
  intros [= <-]. apply (Hm c) in E.
  induction E as [|x b Hx Hb IH]; simpl; constructor; [by apply Hf | done].
Qed.

(** A transition that neither sets nor inserts [Failed] keeps the snapshot
    free of failed messages. *)
Lemma reducer_no_failed s a :
  no_failed s -> assigns_no_failed a -> no_failed (reducer s a).
Proof.
  unfold no_failed. intros Hs Ha.
  destruct a; try exact Hs; simpl in Ha.
  - simpl. rewrite foldl_hydrate_bulk.
    by apply no_failed_sort_all, no_failed_foldl_bulk.
  - rewrite messages_MESSAGE_ADDED. apply no_failed_bulk_add_one; [done|].
    by apply Forall_inv in Ha.
  - simpl. apply no_failed_map_bucket; [|done].
    intros x Hx. by destruct (String.eqb _ _).
  - simpl. by apply no_failed_sort_all, no_failed_foldl_bulk.
  - simpl. apply no_failed_map_bucket; [|done].
    intros x Hx. by destruct (_ && _).
  - simpl. apply no_failed_map_bucket; [|done].
    intros x Hx. by destruct (includes _ _).
  - simpl. intros c bucket Hc. apply lookup_delete_Some in Hc as [_ Hc].
    by apply (Hs c).
  - simpl. apply no_failed_map_bucket; [|done].
    intros x Hx. by destruct (matches_ids _ _).
Qed.

Lemma dispatch_no_failed h a :
  no_failed (state h) -> assigns_no_failed a -> no_failed (state (dispatch h a)).
Proof. apply reducer_no_failed. Qed.

Lemma incoming_not_failed self msgs :
  Forall (fun m => status m <> Failed) (map (incoming self) msgs).
Proof. induction msgs; simpl; constructor; done. Qed.

Lemma historical_not_failed self cid peer msgs :
  Forall (fun m => status m <> Failed) (map (historical self cid peer) msgs).
Proof.
  induction msgs as [|m msgs IH]; simpl; constructor; [|done].
  simpl. by destruct (String.eqb _ _).
Qed.

Lemma foldl_MESSAGE_ADDED_no_failed msgs h :
  no_failed (state h) -> Forall (fun m => status m <> Failed) msgs ->
  no_failed (state (foldl (fun h' m => dispatch h' (MESSAGE_ADDED m)) h msgs)).
Proof.
  revert h. induction msgs as [|msg msgs IH]; intros h Hh Hmsgs; simpl; [done|].
  apply Forall_cons in Hmsgs as [H1 H2].
  apply IH; [|done]. apply dispatch_no_failed; [done|].
  simpl. by constructor.
Qed.

Lemma connect_no_failed h : no_failed (state h) -> no_failed (state (connect h)).
Proof.
  intros Hh. unfold connect.
  destruct (_ || _); [done|].
  by destruct (wsRef h).
Qed.

Lemma scheduleReconnect_no_failed h :
  no_failed (state h) -> no_failed (state (scheduleReconnect h)).
Proof.
  intros Hh. unfold scheduleReconnect.
  destruct (negb (isMountedRef h)); [done|].
  by destruct (_ <=? _)%nat.
Qed.

Lemma onclose_no_failed code h :
  no_failed (state h) -> no_failed (state (onclose code h)).
Proof.
  intros Hh. unfold onclose.
  destruct (negb (isMountedRef h)); [done|].
  destruct (after_ping_cleanup_fields h) as (_ & _ & _ & Es & _).
  destruct (_ || _); [simpl; by rewrite Es|].
  destruct (_ && _).
  - apply scheduleReconnect_no_failed. simpl. by rewrite Es.
  - simpl. by rewrite Es.
Qed.

Lemma onmessage_no_failed data h :
  no_failed (state h) -> no_failed (state (onmessage data h)).
Proof.
  intros Hh. unfold onmessage.
  destruct (negb (isMountedRef h)); [done|].
  destruct data as [f|]; [|done].
  destruct f;
    change (state (emit ?g ?e)) with (state g);
    try (apply dispatch_no_failed; [done|]; simpl; by repeat constructor);
    try done.
  - apply foldl_MESSAGE_ADDED_no_failed; [done|]. apply incoming_not_failed.
  - apply dispatch_no_failed; [done|]. apply historical_not_failed.
Qed.

Lemma sendMessage_no_failed trim toLowerCase receiver txt uuid now h :
  no_failed (state h) ->
  no_failed (state (sendMessage trim toLowerCase receiver txt uuid now h)).
Proof.
  intros Hh. unfold sendMessage.
  destruct (negb (truthy_opt _)); [done|].
  destruct (negb (ws_open h)); [done|].
  destruct (negb (truthy _)); [done|].
  change (state (emit ?g ?e)) with (state g).
  apply dispatch_no_failed; [done|]. simpl. by repeat constructor.
Qed.

Lemma markAsRead_no_failed toLowerCase peer dbMsgs h :
  no_failed (state h) ->
  no_failed (state (markAsRead toLowerCase peer dbMsgs h)).
Proof.
  intros Hh. unfold markAsRead.
  destruct (negb (truthy_opt _)); [done|].
  destruct (map resolved_id _); [done|].
  destruct (negb (ws_open h)); [done|].
  apply dispatch_no_failed; [done|]. simpl. constructor.
Qed.

Lemma mount_no_failed h : no_failed (state h) -> no_failed (state (mount h)).
Proof.
  intros Hh. unfold mount. destruct (_ || _); [done|]. by apply connect_no_failed.
Qed.

Lemma unmount_no_failed h : no_failed (state h) -> no_failed (state (unmount h)).
Proof.
  intros Hh. destruct h as [t u s w m i n r p es]. unfold unmount. simpl in *.
  destruct r, p, w; exact Hh.
Qed.

(** Every event of the hook keeps the snapshot free of failed messages,
    unless the hydration brings rows at [Failed]. *)
Lemma hook_step_no_failed trim toLowerCase h e :
  no_failed (state h) -> brings_no_failed e ->
  no_failed (state (hook_step trim toLowerCase h e)).
Proof.
  intros Hh He. destruct e; unfold hook_step.
  - by apply mount_no_failed.
  - by apply unmount_no_failed.
  - unfold rerender. destruct (bool_decide _); [done|].
    apply mount_no_failed. simpl. by apply unmount_no_failed.
  - by apply connect_no_failed.
  - unfold onopen. simpl. destruct (negb (isMountedRef h)); [done|].
    simpl. by destruct (pingTimerRef h).
  - by apply onclose_no_failed.
  - by apply onmessage_no_failed.
  - by apply connect_no_failed.
  - unfold ping_timer_fired. by destruct (ws_open h).
  - unfold typing_timer_fired. by destruct (isMountedRef h).
  - unfold hydrate. destruct (negb (truthy_opt _)); [done|].
    destruct rows as [rows|].
    + destruct (isMountedRef h); [|done]. by apply dispatch_no_failed.
    + apply dispatch_no_failed; [done|]. constructor.
  - by apply sendMessage_no_failed.
  - by apply markAsRead_no_failed.
  - unfold clearChat. apply dispatch_no_failed; [done|]. constructor.
  - unfold reconnect. by apply connect_no_failed.
Qed.

(** So does every sequence of events. *)
Lemma hook_run_no_failed trim toLowerCase es h :
  no_failed (state h) -> Forall brings_no_failed es ->
  no_failed (state (hook_run trim toLowerCase h es)).
Proof.
  unfold hook_run. revert h.
  induction es as [|e es IH]; intros h Hh Hes; [done|].
  apply Forall_cons in Hes as [He Hes]. cbn [foldl].
  apply IH; [|done]. by apply hook_step_no_failed.
Qed.

(** C8. The send failure that is never marked. Alice's hook mounts, its
    socket opens and she sends hi to bob; the socket closes with code 1011
    before any acknowledgement, the six retries fail the same way and the
    hook gives up. Her message was sent once and never acknowledged; it is
    still at [Sending], the failure is visible as the global error and the
    connection status only, and whatever happens afterwards (a hydration
    that brings rows at [Failed] apart) the message is never at [Failed]:
    no event of the hook assigns that status. *)
Theorem send_failure_never_marked_failed :
  let run := [EvMount; EvOpen; EvSendMessage "bob" "hi" "u1" 50]
             ++ concat (replicate 6 [EvClose 1011; EvReconnectTimer])
             ++ [EvClose 1011] in
  let h := hook_run id_string id_string
             (initial_hook (Some "jwt") (Some "alice")) run in
  frames_sent (effects h) = [send_message "bob" "hi" "u1"]
  /\ scheduled_delays (effects h) = [1000; 2000; 4000; 8000; 16000; 30000]
  /\ connectionStatus (state h) = Disconnected
  /\ error (state h) = Some give_up_message
  /\ status <$> lookup_message (state h) "dm:alice:bob" "u1" = Some Sending
  /\ forall es, Forall brings_no_failed es ->
       forall c l m,
         lookup_message (state (hook_run id_string id_string h es)) c l = Some m ->
         status m <> Failed.
Proof.
  intros run h.
  split; [vm_compute; reflexivity|]. split; [vm_compute; reflexivity|].
  split; [vm_compute; reflexivity|]. split; [vm_compute; reflexivity|].
  split; [vm_compute; reflexivity|].
  intros es Hes c l m Hm.
  assert (Hh : no_failed (state h)).
  { apply hook_run_no_failed; [apply map_Forall_empty|].
    subst run. cbn [replicate concat app]. repeat constructor. }
  pose proof (hook_run_no_failed id_string id_string es h Hh Hes) as Hno.
  apply find_localId_elem in Hm as [Hin _].
  unfold bucket_of in Hin.
  destruct (messages (state (hook_run id_string id_string h es)) !! c)
    as [bucket|] eqn:E; [|by inversion Hin].
  exact (proj1 (Forall_forall _ _) (Hno c bucket E) m Hin).
Qed.

(* ===================================================================== *)
(** * Further properties of the code *)
(* ===================================================================== *)

(** ** The conversation key *)

Lemma string_ltb_asym a b : String.ltb a b = true -> String.ltb b a = false.
Proof.
  unfold String.ltb. rewrite (String.compare_antisym b a).
  by destruct (String.compare a b).
Qed.

Lemma string_ltb_total a b :
  String.ltb a b = false -> String.ltb b a = false -> a = b.
Proof.
  unfold String.ltb. rewrite (String.compare_antisym b a).
  destruct (String.compare a b) eqn:E; try done.
  intros _ _. by apply String.compare_eq_iff.
Qed.

(** X1. The conversation key does not depend on which participant
    computes it: [dmChatId a b = dmChatId b a], whatever [toLowerCase]
    does. *)
Theorem dmChatId_symmetric (toLowerCase : string -> string) (a b : string) :
  dmChatId toLowerCase a b = dmChatId toLowerCase b a.
Proof.
  unfold dmChatId.
  destruct (String.ltb (toLowerCase b) (toLowerCase a)) eqn:E1.
  - by rewrite (string_ltb_asym _ _ E1).
  - destruct (String.ltb (toLowerCase a) (toLowerCase b)) eqn:E2; [done|].
    by rewrite (string_ltb_total _ _ E1 E2).
Qed.

(** ** Grouping *)

Lemma buildMap_push_lookup map m c :
  buildMap_push map m !! c
  = if decide (chatId m = c) then Some (default [] (map !! c) ++ [m])
    else map !! c.
Proof.
  unfold buildMap_push.
  destruct (decide (chatId m = c)) as [<-|Hne].
  - rewrite lookup_insert_eq.
    destruct (map !! chatId m) as [b|] eqn:E; [by rewrite E|].
    by rewrite lookup_insert_eq.
  - rewrite lookup_insert_ne by done.
    destruct (map !! chatId m); [done|]. by rewrite lookup_insert_ne.
Qed.

Lemma foldl_buildMap_push_lookup msgs map c :
  foldl buildMap_push map msgs !! c
  = match filter (fun m => chatId m = c) msgs with
    | [] => map !! c
    | group => Some (default [] (map !! c) ++ group)
    end.
Proof.
  revert map. induction msgs as [|m msgs IH]; intros map; simpl; [done|].
  rewrite IH, buildMap_push_lookup, filter_cons.
  destruct (decide (chatId m = c)) as [Heq|Hne]; simpl.
  - destruct (filter _ msgs) as [|x group]; [done|].
    by rewrite <- app_assoc.
  - done.
Qed.

(** X2. [buildMap] loses and invents nothing: the bucket of a conversation
    is exactly the stable sort by timestamp of the messages of the input
    that carry its [chatId], in their order of arrival, repeated [localId]s
    included; a conversation without messages has no bucket. So every
    bucket is in ascending order, a permutation of its group, and not
    empty. *)
Theorem buildMap_groups (msgs : list ChatMessage) (c : string) :
  buildMap msgs !! c
  = match filter (fun m => chatId m = c) msgs with
    | [] => None
    | group => Some (sort_by_timestamp group)
    end
  /\ forall bucket, buildMap msgs !! c = Some bucket ->
       sorted_by_timestamp bucket
       /\ bucket ≡ₚ filter (fun m => chatId m = c) msgs
       /\ bucket <> [].
Proof.
  assert (E : buildMap msgs !! c
              = match filter (fun m => chatId m = c) msgs with
                | [] => None
                | group => Some (sort_by_timestamp group)
                end).
  { unfold buildMap. rewrite sort_all_lookup, foldl_buildMap_push_lookup.
    rewrite lookup_empty. by destruct (filter _ msgs). }
  split; [exact E|].
  intros bucket Hb. rewrite E in Hb.
  destruct (filter (fun m => chatId m = c) msgs) as [|x group] eqn:Eg; [done|].
  set (g := x :: group) in *.
  assert (Hbg : bucket = sort_by_timestamp g) by congruence.
  rewrite Hbg.
  split; [apply sort_by_timestamp_sorted|].
  split; [apply sort_by_timestamp_perm|].
  intros Hnil.
  pose proof (sort_by_timestamp_perm g) as Hp.
  rewrite Hnil in Hp. subst g. by apply Permutation_nil_cons in Hp.
Qed.

(** X2, for three messages of two conversations that arrive out of order. *)
Lemma buildMap_groups_witness :
  buildMap [from_carol; from_bob; read_row] !! "dm:alice:bob"
  = Some [read_row; from_bob]
  /\ buildMap [from_carol; from_bob; read_row] !! "dm:alice:dave" = None.
Proof.
  split.
  - rewrite (proj1 (buildMap_groups _ _)). by vm_compute.
  - rewrite (proj1 (buildMap_groups _ _)). by vm_compute.
Defined.

(** ** Shape of the buckets *)

Lemma well_bucketed_bulk_add_one m msg :
  map_Forall (fun c b => b <> [] /\ Forall (fun x => chatId x = c) b) m ->
  map_Forall (fun c b => b <> [] /\ Forall (fun x => chatId x = c) b)
    (bulk_add_one m msg).
Proof.
  intros Hm c bucket Hc. unfold bulk_add_one in Hc.
  destruct (has_localId _ _) eqn:E; [by apply Hm|].
  destruct (decide (chatId msg = c)) as [<-|Hne].
  - rewrite lookup_insert_eq in Hc. injection Hc as <-.
    split; [by destruct (default [] _)|].
    apply Forall_app. split; [|by repeat constructor].
    destruct (m !! chatId msg) as [b|] eqn:Eb; simpl; [|constructor].
    by apply (Hm _ _ Eb).
  - rewrite lookup_insert_ne in Hc by done. by apply Hm.
Qed.

Lemma well_bucketed_foldl_bulk msgs m :
  map_Forall (fun c b => b <> [] /\ Forall (fun x => chatId x = c) b) m ->
  map_Forall (fun c b => b <> [] /\ Forall (fun x => chatId x = c) b)
    (foldl bulk_add_one m msgs).
Proof.
  revert m. induction msgs as [|msg msgs IH]; intros m Hm; simpl; [done|].
  by apply IH, well_bucketed_bulk_add_one.
Qed.

Lemma well_bucketed_sort_all m :
  map_Forall (fun c b => b <> [] /\ Forall (fun x => chatId x = c) b) m ->
  map_Forall (fun c b => b <> [] /\ Forall (fun x => chatId x = c) b)
    (sort_all m).
Proof.
  intros Hm c bucket. rewrite sort_all_lookup.
  destruct (m !! c) as [b|] eqn:E; simpl; [|done].
  intros [= <-]. destruct (Hm _ _ E) as [Hne Hall]. split.
  - intros Hnil. pose proof (sort_by_timestamp_perm b) as Hp.
    rewrite Hnil in Hp. apply Permutation_nil in Hp. done.
  - by rewrite sort_by_timestamp_perm.
Qed.

Lemma well_bucketed_map_bucket f cid m :
  (forall x, chatId (f x) = chatId x) ->
  map_Forall (fun c b => b <> [] /\ Forall (fun x => chatId x = c) b) m ->
  map_Forall (fun c b => b <> [] /\ Forall (fun x => chatId x = c) b)
    (map_bucket f cid m).
Proof.
  intros Hf Hm c bucket. rewrite map_bucket_lookup.
  destruct (decide (cid = c)) as [->|]; [|by apply Hm].
  destruct (m !! c) as [b|] eqn:E; simpl; [|done].
  intros [= <-]. destruct (Hm _ _ E) as [Hne Hall]. split.
  - by destruct b.
  - clear E Hne. induction Hall as [|x b Hx Hb IH]; simpl; constructor;
      [by rewrite Hf | done].
Qed.

Lemma reducer_well_bucketed s a :
  well_bucketed s -> well_bucketed (reducer s a).
Proof.
  unfold well_bucketed. intros Hs.
  destruct a; try exact Hs.
  - simpl. rewrite foldl_hydrate_bulk.
    by apply well_bucketed_sort_all, well_bucketed_foldl_bulk.
  - rewrite messages_MESSAGE_ADDED. by apply well_bucketed_bulk_add_one.
  - simpl. apply well_bucketed_map_bucket; [|done].
    intros x. by destruct (String.eqb _ _).
  - simpl. by apply well_bucketed_sort_all, well_bucketed_foldl_bulk.
  - simpl. apply well_bucketed_map_bucket; [|done].
    intros x. by destruct (_ && _).
  - simpl. apply well_bucketed_map_bucket; [|done].
    intros x. by destruct (includes _ _).
  - simpl. intros c bucket Hc. apply lookup_delete_Some in Hc as [_ Hc].
    by apply (Hs c).
  - simpl. apply well_bucketed_map_bucket; [|done].
    intros x. by destruct (matches_ids _ _).
Qed.

Lemma reachable_is_well_bucketed s : reachable s -> well_bucketed s.
Proof.
  induction 1 as [|s a _ IH]; [apply map_Forall_empty|].
  by apply reducer_well_bucketed.
Qed.

(** X3. In every snapshot reachable from the initial state, every bucket
    of the message map holds at least one message (so it has a last
    message), and every message lies in the bucket of its own [chatId]. *)
Theorem reachable_well_bucketed (s : SocketState) :
  reachable s ->
  forall c bucket, messages s !! c = Some bucket ->
    bucket <> [] /\ is_Some (lastMessage bucket)
    /\ forall m, m ∈ bucket -> chatId m = c.
Proof.
  intros Hr. pose proof (reachable_is_well_bucketed s Hr) as Hw.
  intros c bucket Hc. destruct (Hw _ _ Hc) as [Hne Hall].
  split; [done|]. split.
  - unfold lastMessage. destruct bucket as [|x b] using rev_ind; [done|].
    rewrite last_snoc. by eexists.
  - intros m Hin. by eapply (proj1 (Forall_forall _ _) Hall).
Qed.

(** X3, at the snapshot of alice after her send was acknowledged. *)
Lemma reachable_well_bucketed_witness :
  is_Some (lastMessage (bucket_of (state sent_hook) "dm:alice:bob"))
  /\ forall m, m ∈ bucket_of (state sent_hook) "dm:alice:bob" ->
       chatId m = "dm:alice:bob".
Proof.
  assert (Hr : reachable (state sent_hook)).
  { exact (reachable_step _
             (MESSAGE_UPDATED "u1" (wire "srv1" "dm:alice:bob" "alice" 60))
             (reachable_step _
                (MESSAGE_ADDED (optimistic id_string "alice" "bob" "hi" "u1" 50))
                (reachable_step initialState CONNECTED reachable_init))). }
  assert (Hc : messages (state sent_hook) !! "dm:alice:bob"
               = Some (bucket_of (state sent_hook) "dm:alice:bob"))
    by (by vm_compute).
  destruct (reachable_well_bucketed _ Hr _ _ Hc) as (_ & Hl & Hm).
  split; [exact Hl | exact Hm].
Defined.

(** ** Hydration *)

Lemma has_localId_find lid bucket :
  has_localId lid bucket = true ->
  is_Some (find (fun x => String.eqb (localId x) lid) bucket).
Proof.
  induction bucket as [|m bucket IH]; simpl; [done|].
  destruct (String.eqb (localId m) lid); [by eexists | done].
Qed.

Lemma sorted_last_is_latest bucket :
  sorted_by_timestamp bucket -> bucket <> [] ->
  exists m, lastMessage bucket = Some m
            /\ forall x, x ∈ bucket -> timestamp x <= timestamp m.
Proof.
  unfold sorted_by_timestamp, lastMessage.
  destruct bucket as [|y b] using rev_ind; [done|]. intros Hs _.
  exists y. rewrite last_snoc. split; [done|].
  intros x Hx. apply elem_of_app in Hx as [Hx|Hx].
  - apply StronglySorted_app in Hs as (Hall & _ & _).
    apply (Hall x y Hx). apply list_elem_of_here.
  - apply list_elem_of_singleton in Hx as ->. lia.
Qed.

(** X4. Hydration merges without overwriting. When the hook has an
    identity and the durable store answers (the hook still mounted) or
    fails, hydration is complete afterwards ([dbLoaded]); every message
    that was in memory is found under its [localId] exactly as it was, also
    when a stored row carries the same [localId] with other content; every
    stored row's [localId] is present in its conversation; every bucket is
    in ascending order; nothing is sent. *)
Theorem hydrate_keeps_memory (rows : option (list ChatMessage)) (h : Hook) :
  reachable (state h) -> truthy_opt (myUsername h) = true ->
  isMountedRef h = true \/ rows = None ->
  let s' := state (hydrate rows h) in
  dbLoaded s' = true
  /\ (forall c l m, lookup_message (state h) c l = Some m ->
        lookup_message s' c l = Some m)
  /\ (forall row, row ∈ default [] rows ->
        is_Some (lookup_message s' (chatId row) (localId row)))
  /\ (forall c bucket, messages s' !! c = Some bucket ->
        sorted_by_timestamp bucket)
  /\ effects (hydrate rows h) = effects h.
Proof.
  intros Hr Hu Hm s'.
  assert (Es : s' = reducer (state h) (DB_HYDRATED (default [] rows))).
  { subst s'. unfold hydrate. rewrite Hu. simpl.
    destruct rows as [msgs|]; [|done].
    destruct Hm as [Hm|Hm]; [by rewrite Hm | done]. }
  assert (Ee : effects (hydrate rows h) = effects h).
  { unfold hydrate. rewrite Hu. simpl.
    destruct rows as [msgs|]; [|done]. by destruct (isMountedRef h). }
  rewrite Es. split; [done|]. split; [|split; [|split; [|exact Ee]]].
  - intros c l m Hl. unfold lookup_message, bucket_of in *.
    destruct (find_localId_elem _ _ _ Hl) as [Hin <-].
    simpl. rewrite foldl_hydrate_bulk.
    apply (lookup_after_merge true); [by apply reachable_unique | done].
  - intros row Hin. unfold lookup_message, bucket_of. simpl.
    rewrite foldl_hydrate_bulk. apply has_localId_find.
    rewrite (has_localId_perm _ _ _ (sort_all_bucket _ _)).
    by apply foldl_bulk_has.
  - intros c bucket. apply hydration_sorted.
Qed.

(** X4, at alice's hook after her acknowledged send: the store returns a
    stale copy of her message (still at sending) and an older row. *)
Lemma hydrate_keeps_memory_witness :
  let stale := optimistic id_string "alice" "bob" "hi" "u1" 50 in
  let h' := hydrate (Some [stale; read_row]) sent_hook in
  status <$> lookup_message (state h') "dm:alice:bob" "u1" = Some Sent
  /\ localId <$> bucket_of (state h') "dm:alice:bob" = ["u0"; "u1"]
  /\ dbLoaded (state h') = true.
Proof.
  intros stale h'.
  assert (Hr : reachable (state sent_hook)).
  { exact (reachable_step _
             (MESSAGE_UPDATED "u1" (wire "srv1" "dm:alice:bob" "alice" 60))
             (reachable_step _
                (MESSAGE_ADDED (optimistic id_string "alice" "bob" "hi" "u1" 50))
                (reachable_step initialState CONNECTED reachable_init))). }
  destruct (hydrate_keeps_memory (Some [stale; read_row]) sent_hook Hr eq_refl
              (or_introl eq_refl)) as (Hd & Hk & _).
  split; [|split; [by vm_compute | exact Hd]].
  erewrite Hk; [|by vm_compute]. done.
Defined.

(** X5. After a bulk add or a hydration from a reachable snapshot, the
    last message of every bucket - the one the conversation list shows -
    carries the greatest timestamp of its bucket. *)
Theorem last_message_is_latest (s : SocketState) (a : SocketAction) :
  reachable s ->
  (exists payload, a = MESSAGES_BULK_ADD payload \/ a = DB_HYDRATED payload) ->
  forall c bucket, messages (reducer s a) !! c = Some bucket ->
    exists m, lastMessage bucket = Some m
              /\ forall x, x ∈ bucket -> timestamp x <= timestamp m.
Proof.
  intros Hr (payload & Ha) c bucket Hc.
  apply sorted_last_is_latest.
  - destruct Ha as [-> | ->]; [by eapply bulk_add_sorted | by eapply hydration_sorted].
  - by destruct (reachable_is_well_bucketed _ (reachable_step s a Hr) c bucket Hc).
Qed.

(** X5, for the out-of-order history of bob. *)
Lemma last_message_is_latest_witness :
  let a := MESSAGES_BULK_ADD
             [historical "alice" "dm:alice:bob" "bob" (wire "a" "dm:alice:bob" "bob" 300);
              historical "alice" "dm:alice:bob" "bob" (wire "b" "dm:alice:bob" "bob" 100)] in
  exists m,
    lastMessage (bucket_of (reducer (state fresh_hook) a) "dm:alice:bob") = Some m
    /\ timestamp m = 300.
Proof.
  intros a.
  assert (Hr : reachable (state fresh_hook))
    by exact (reachable_step initialState CONNECTED reachable_init).
  destruct (last_message_is_latest (state fresh_hook) a Hr
              (ex_intro _ _ (or_introl eq_refl)) "dm:alice:bob"
              (bucket_of (reducer (state fresh_hook) a) "dm:alice:bob"))
    as (m & Hl & _); [by vm_compute|].
  exists m. split; [exact Hl|].
  assert (E : lastMessage (bucket_of (reducer (state fresh_hook) a) "dm:alice:bob")
              = Some (historical "alice" "dm:alice:bob" "bob"
                        (wire "a" "dm:alice:bob" "bob" 300))) by (by vm_compute).
  rewrite E in Hl. by injection Hl as <-.
Defined.

(** ** Reading and unread counts *)

Lemma filter_bool_eq {A} (f : A -> bool) (l : list A) :
  filter (fun x => f x = true) l = List.filter f l.
Proof.
  induction l as [|x l IH]; [done|].
  rewrite filter_cons. simpl. destruct (f x) eqn:E.
  - rewrite decide_True by done. by rewrite IH.
  - rewrite decide_False by done. exact IH.
Qed.

Lemma is_unread_marked self m :
  is_unread self
    (if negb (String.eqb (senderUsername m) self)
        && negb (bool_decide (status m = Read))
     then with_status Read m else m) = false.
Proof.
  unfold is_unread.
  destruct (negb (String.eqb (senderUsername m) self)) eqn:E1; simpl.
  - destruct (bool_decide (status m = Read)) eqn:E2; simpl.
    + by rewrite E1, E2.
    + by rewrite E1.
  - by rewrite E1.
Qed.

(** After the local read of a conversation by [self], nothing in it is
    unread for [self]. *)
Lemma MARKED_READ_unread s cid self :
  unreadCount self (bucket_of (reducer s (MESSAGES_MARKED_READ cid self)) cid) = 0%nat
  /\ hasUnread self (bucket_of (reducer s (MESSAGES_MARKED_READ cid self)) cid) = false.
Proof.
  unfold bucket_of. simpl. rewrite map_bucket_bucket.
  destruct (decide (cid = cid)); [|done].
  generalize (default [] (messages s !! cid)). intros b.
  unfold unreadCount, hasUnread.
  induction b as [|m b [IH1 IH2]]; [done|]. simpl.
  rewrite is_unread_marked. by split.
Qed.

Lemma receipt_ids_nonempty self rows : Forall (fun i => i <> "") (receipt_ids self rows).
Proof.
  unfold receipt_ids. induction rows as [|m rows IH]; simpl; [constructor|].
  destruct (is_unread self m && truthy (resolved_id m)) eqn:E; [|done].
  simpl. constructor; [|done].
  apply andb_true_iff in E as [_ E]. by apply truthy_nonempty.
Qed.

(** X6. [markAsRead] sends the receipt and flips the local statuses
    together or not at all. With no stored unread row of the peer, no open
    socket or no identity the hook is left as it was. Otherwise exactly one
    [mark_read] frame goes out, carrying for each stored unread row of the
    peer its serverId if it has one and else its localId (never an empty
    identifier), and [MESSAGES_MARKED_READ] is dispatched: afterwards the
    conversation has no unread message for the user, the user's own
    messages are as they were, and the other conversations are untouched. *)
Theorem markAsRead_receipt_and_flip (toLowerCase : string -> string)
  (peer : string) (rows : list ChatMessage) (h : Hook) :
  let h' := markAsRead toLowerCase peer rows h in
  let cid := dmChatId toLowerCase (me h) peer in
  let ids := receipt_ids (me h) rows in
  (ids = [] \/ ws_open h = false \/ truthy_opt (myUsername h) = false -> h' = h)
  /\ (ids <> [] -> ws_open h = true -> truthy_opt (myUsername h) = true ->
      effects h' = effects h ++ [FrameSent (mark_read peer ids)]
      /\ Forall (fun i => i <> "") ids
      /\ state h' = reducer (state h) (MESSAGES_MARKED_READ cid (me h))
      /\ unreadCount (me h) (bucket_of (state h') cid) = 0%nat
      /\ hasUnread (me h) (bucket_of (state h') cid) = false
      /\ (forall i m, bucket_of (state h) cid !! i = Some m ->
            senderUsername m = me h -> bucket_of (state h') cid !! i = Some m)
      /\ (forall c, c <> cid -> messages (state h') !! c = messages (state h) !! c)).
Proof.
  intros h' cid ids.
  assert (Eids : map resolved_id
                   (filter (fun m => negb (String.eqb (senderUsername m) (me h))
                                     && negb (bool_decide (status m = Read))
                                     && truthy (resolved_id m) = true) rows)
                 = ids).
  { subst ids. unfold receipt_ids. by rewrite filter_bool_eq. }
  subst h'. unfold markAsRead. rewrite Eids. fold cid. split.
  - intros Hg. destruct (truthy_opt (myUsername h)); simpl; [|done].
    destruct ids as [|i ids']; [done|].
    destruct (ws_open h); simpl; [|done].
    destruct Hg as [Hg|[Hg|Hg]]; done.
  - intros Hne Hw Hu. rewrite Hu, Hw. simpl.
    destruct ids as [|i ids'] eqn:Ei; [done|]. rewrite <- Ei.
    split; [done|]. split; [subst ids; apply receipt_ids_nonempty|].
    split; [done|]. rewrite state_dispatch.
    change (state (emit ?g ?e)) with (state g).
    destruct (MARKED_READ_unread (state h) cid (me h)) as [H1 H2].
    split; [exact H1|]. split; [exact H2|]. split.
    + intros k m Hk Hs. unfold bucket_of in *. simpl.
      rewrite map_bucket_bucket. destruct (decide (cid = cid)); [|done].
      rewrite list_lookup_map, Hk. simpl. by rewrite Hs, String.eqb_refl.
    + intros c Hc. simpl. rewrite map_bucket_lookup.
      destruct (decide (cid = c)); [by subst|done].
Qed.

(** X6, at alice's hook once the message of bob has arrived: the stored row
    of bob is unread, so the receipt for m1 goes out and nothing is left
    unread. *)
Lemma markAsRead_receipt_and_flip_witness :
  let h := onmessage (Some (new_message (wire "m1" "dm:alice:bob" "bob" 100)))
             fresh_hook in
  let h' := markAsRead id_string "bob" [from_bob] h in
  unreadCount "alice" (bucket_of (state h) "dm:alice:bob") = 1%nat
  /\ frames_sent (effects h') = [mark_read "bob" ["m1"]]
  /\ unreadCount "alice" (bucket_of (state h') "dm:alice:bob") = 0%nat.
Proof.
  intros h h'.
  destruct (markAsRead_receipt_and_flip id_string "bob" [from_bob] h)
    as [_ H].
  destruct H as (He & _ & _ & Hu & _); [done | reflexivity | reflexivity |].
  split; [by vm_compute|]. split; [|exact Hu].
  subst h'. rewrite He. by vm_compute.
Defined.

Lemma unreadCount_snoc self b m :
  unreadCount self (b ++ [m])
  = (unreadCount self b + (if is_unread self m then 1 else 0))%nat.
Proof.
  unfold unreadCount. rewrite List.filter_app, length_app. simpl.
  by destruct (is_unread self m).
Qed.

Lemma MESSAGE_ADDED_held s msg :
  has_localId (localId msg) (bucket_of s (chatId msg)) = true ->
  reducer s (MESSAGE_ADDED msg) = s.
Proof. unfold bucket_of. intros H. simpl. by rewrite H. Qed.

(** X7. A [new_message] frame on a mounted hook. If the conversation
    already holds its id, the hook is left exactly as it was. Otherwise the
    message becomes the last of its conversation, at [Delivered] and
    addressed to the user, and for any user [self] the unread count of the
    conversation grows by one when the sender is not [self] and stays when
    it is. No frame is sent and the other conversations are untouched. *)
Theorem new_message_appends (msg : WireMessage) (h : Hook) :
  isMountedRef h = true ->
  let h' := onmessage (Some (new_message msg)) h in
  let b := bucket_of (state h) (w_chatId msg) in
  let b' := bucket_of (state h') (w_chatId msg) in
  (has_localId (w_id msg) b = true -> h' = h)
  /\ (has_localId (w_id msg) b = false ->
      b' = b ++ [incoming (me h) msg]
      /\ lastMessage b' = Some (incoming (me h) msg)
      /\ forall self,
           unreadCount self b'
           = (unreadCount self b
              + (if String.eqb (w_from msg) self then 0 else 1))%nat)
  /\ effects h' = effects h
  /\ (forall c, c <> w_chatId msg ->
        messages (state h') !! c = messages (state h) !! c).
Proof.
  intros Hm h' b b'. subst h' b b'. unfold onmessage. rewrite Hm. cbn [negb].
  split; [|split; [|split]].
  - intros Hhas. unfold dispatch.
    rewrite (MESSAGE_ADDED_held (state h) (incoming (me h) msg)) by done.
    apply set_state_same.
  - intros Hfresh. rewrite state_dispatch.
    pose proof (MESSAGE_ADDED_fresh (state h) (incoming (me h) msg) Hfresh) as Hb.
    simpl chatId in Hb. rewrite Hb.
    split; [done|]. split; [unfold lastMessage; by rewrite last_snoc|].
    intros self. rewrite unreadCount_snoc. unfold is_unread. simpl.
    by destruct (String.eqb (w_from msg) self).
  - done.
  - intros c Hc. rewrite state_dispatch, messages_MESSAGE_ADDED.
    unfold bulk_add_one. destruct (has_localId _ _); [done|].
    by rewrite lookup_insert_ne.
Qed.

(** X7, at alice's hook: the first message of bob, then the same frame
    again. *)
Lemma new_message_appends_witness :
  let f := new_message (wire "m1" "dm:alice:bob" "bob" 100) in
  let h1 := onmessage (Some f) fresh_hook in
  unreadCount "alice" (bucket_of (state h1) "dm:alice:bob") = 1%nat
  /\ onmessage (Some f) h1 = h1.
Proof.
  intros f h1.
  destruct (new_message_appends (wire "m1" "dm:alice:bob" "bob" 100) fresh_hook
              eq_refl) as (_ & Hnew & _).
  destruct (Hnew eq_refl) as (_ & _ & Hu).
  split; [exact (Hu "alice")|].
  destruct (new_message_appends (wire "m1" "dm:alice:bob" "bob" 100) h1
              eq_refl) as (Hdup & _).
  apply Hdup. by vm_compute.
Defined.

(** ** Sockets and frames *)

Lemma sockets_opened_app es es' :
  sockets_opened (es ++ es') = (sockets_opened es + sockets_opened es')%nat.
Proof. unfold sockets_opened. by rewrite List.filter_app, length_app. Qed.

Lemma sockets_closed_app es es' :
  sockets_closed (es ++ es') = (sockets_closed es + sockets_closed es')%nat.
Proof. unfold sockets_closed. by rewrite List.filter_app, length_app. Qed.

Lemma frames_sent_app es es' :
  frames_sent (es ++ es') = frames_sent es ++ frames_sent es'.
Proof. unfold frames_sent. apply omap_app. Qed.

Lemma foldl_MESSAGE_ADDED_effects msgs h :
  effects (foldl (fun h' m => dispatch h' (MESSAGE_ADDED m)) h msgs) = effects h.
Proof.
  revert h. induction msgs as [|m msgs IH]; intros h; simpl; [done|].
  by rewrite IH.
Qed.

(** What a frame adds to the trace. *)
Lemma onmessage_effects data h :
  effects (onmessage data h)
  = effects h
    ++ (if isMountedRef h then
          match data with
          | Some (pending_messages _ ids) => [FrameSent (ack_pending ids)]
          | Some (typing_start from) =>
              [TypingTimerCleared from; TypingTimerSet from 3000]
          | Some (typing_stop from) => [TypingTimerCleared from]
          | _ => []
          end
        else []).
Proof.
  unfold onmessage. destruct (isMountedRef h); simpl; [|by rewrite app_nil_r].
  destruct data as [f|]; [|by rewrite app_nil_r].
  destruct f; simpl; rewrite ?app_nil_r; try done.
  - by rewrite foldl_MESSAGE_ADDED_effects.
  - by rewrite <- app_assoc.
Qed.

Lemma connect_socket_balance h : socket_balance h -> socket_balance (connect h).
Proof.
  unfold socket_balance, connect. intros Hb.
  destruct (_ || _); [done|].
  destruct (wsRef h); simpl in *;
    rewrite !sockets_opened_app, !sockets_closed_app;
    unfold sockets_opened, sockets_closed in *; simpl; lia.
Qed.

Lemma scheduleReconnect_socket_balance h :
  socket_balance h -> socket_balance (scheduleReconnect h).
Proof.
  unfold socket_balance, scheduleReconnect. intros Hb.
  destruct (negb (isMountedRef h)); [done|].
  destruct (_ <=? _)%nat; simpl; [done|].
  rewrite sockets_opened_app, sockets_closed_app.
    unfold sockets_opened, sockets_closed in *. simpl. lia.
Qed.

Lemma unmount_socket_balance h : socket_balance h -> socket_balance (unmount h).
Proof.
  destruct h as [t u s w m i n r p es]. unfold socket_balance, unmount.
  simpl. intros Hb.
  destruct r, p, w; simpl in *;
    rewrite ?sockets_opened_app, ?sockets_closed_app;
      unfold sockets_opened, sockets_closed in *; simpl; lia.
Qed.

Lemma mount_socket_balance h : socket_balance h -> socket_balance (mount h).
Proof.
  intros Hb. unfold mount. destruct (_ || _); [done|].
  by apply connect_socket_balance.
Qed.

Lemma hook_step_socket_balance trim toLowerCase h e :
  socket_balance h -> socket_balance (hook_step trim toLowerCase h e).
Proof.
  intros Hb. destruct e; unfold hook_step.
  - by apply mount_socket_balance.
  - by apply unmount_socket_balance.
  - unfold rerender. destruct (bool_decide _); [done|].
    apply mount_socket_balance.
    apply unmount_socket_balance in Hb. exact Hb.
  - by apply connect_socket_balance.
  - destruct h as [t u s w m i n r p es]. unfold socket_balance, onopen in *.
    simpl in *. destruct m, p, w; simpl in *;
      rewrite ?sockets_opened_app, ?sockets_closed_app;
      unfold sockets_opened, sockets_closed in *; simpl; lia.
  - unfold onclose. destruct (negb (isMountedRef h)).
    + unfold socket_balance in *. simpl. by destruct (wsRef h).
    + assert (H1 : socket_balance (after_ping_cleanup h)).
      { unfold socket_balance, after_ping_cleanup in *. simpl.
        destruct (pingTimerRef h); simpl; destruct (wsRef h); simpl in *;
          rewrite ?sockets_opened_app, ?sockets_closed_app;
      unfold sockets_opened, sockets_closed in *; simpl; lia. }
      destruct (_ || _); [exact H1|].
      destruct (_ && _); [|exact H1].
      by apply scheduleReconnect_socket_balance.
  - unfold socket_balance in *.
    destruct (onmessage_refs data h) as [-> _]. rewrite onmessage_effects.
    rewrite sockets_opened_app, sockets_closed_app.
    unfold sockets_opened, sockets_closed in *.
    destruct (isMountedRef h); [|simpl; lia].
    destruct data as [f|]; [|simpl; lia]. destruct f; simpl; lia.
  - by apply connect_socket_balance.
  - unfold ping_timer_fired, socket_balance in *. destruct (ws_open h); [|done].
    simpl. rewrite sockets_opened_app, sockets_closed_app.
    unfold sockets_opened, sockets_closed in *. simpl. lia.
  - unfold typing_timer_fired. by destruct (isMountedRef h).
  - unfold hydrate. destruct (negb (truthy_opt _)); [done|].
    destruct rows; [|done]. by destruct (isMountedRef h).
  - unfold sendMessage, socket_balance in *.
    destruct (negb (truthy_opt _)); [done|].
    destruct (negb (ws_open h)); [done|]. destruct (negb (truthy _)); [done|].
    simpl. rewrite sockets_opened_app, sockets_closed_app.
    unfold sockets_opened, sockets_closed in *. simpl. lia.
  - unfold markAsRead, socket_balance in *.
    destruct (negb (truthy_opt _)); [done|].
    destruct (map resolved_id _); [done|]. destruct (negb (ws_open h)); [done|].
    simpl. rewrite sockets_opened_app, sockets_closed_app.
    unfold sockets_opened, sockets_closed in *. simpl. lia.
  - done.
  - unfold reconnect. by apply connect_socket_balance.
Qed.

Lemma hook_call_socket_balance trim toLowerCase h c :
  socket_balance h -> socket_balance (hook_call trim toLowerCase h c).
Proof.
  intros Hb. destruct c; simpl.
  - by apply hook_step_socket_balance.
  - unfold emitTypingStart, socket_balance in *. destruct (ws_open h); [|done].
    simpl. rewrite sockets_opened_app, sockets_closed_app.
    unfold sockets_opened, sockets_closed in *. simpl. lia.
  - unfold emitTypingStop, socket_balance in *. destruct (ws_open h); [|done].
    simpl. rewrite sockets_opened_app, sockets_closed_app.
    unfold sockets_opened, sockets_closed in *. simpl. lia.
Qed.

(** X8. One socket at a time. From the first render on, whatever is called
    and whatever happens, every socket the hook has opened has been closed
    by the hook itself, except the one it currently holds: the number of
    sockets opened is the number of [close] calls plus one when
    [wsRef] is set, plus zero when it is not. A socket is superseded only
    after it was closed. *)
Theorem one_socket_at_a_time (trim toLowerCase : string -> string)
  (t u : option string) (cs : list HookCall) :
  let h := hook_calls trim toLowerCase (initial_hook t u) cs in
  sockets_opened (effects h)
  = (sockets_closed (effects h)
     + match wsRef h with Some _ => 1 | None => 0 end)%nat.
Proof.
  intros h. subst h. unfold hook_calls.
  assert (H0 : socket_balance (initial_hook t u)) by done.
  revert H0. generalize (initial_hook t u).
  induction cs as [|c cs IH]; intros h Hh; simpl; [exact Hh|].
  by apply IH, hook_call_socket_balance.
Qed.

Lemma connect_frames h : frames_sent (effects (connect h)) = frames_sent (effects h).
Proof.
  unfold connect. destruct (_ || _); [done|].
  destruct (wsRef h); simpl; rewrite !frames_sent_app; simpl;
    by rewrite ?app_nil_r.
Qed.

Lemma scheduleReconnect_frames h :
  frames_sent (effects (scheduleReconnect h)) = frames_sent (effects h).
Proof.
  unfold scheduleReconnect. destruct (negb (isMountedRef h)); [done|].
  destruct (_ <=? _)%nat; simpl; [done|].
  rewrite frames_sent_app. simpl. by rewrite app_nil_r.
Qed.

Lemma unmount_frames h : frames_sent (effects (unmount h)) = frames_sent (effects h).
Proof.
  destruct h as [t u s w m i n r p es]. unfold unmount. simpl.
  destruct r, p, w; simpl; rewrite ?frames_sent_app; simpl;
    by rewrite ?app_nil_r.
Qed.

Lemma mount_frames h : frames_sent (effects (mount h)) = frames_sent (effects h).
Proof. unfold mount. destruct (_ || _); [done|]. by rewrite connect_frames. Qed.

(** X9. Without an open socket nothing is sent: whatever is called on a
    hook whose socket is absent or not open - a send, a typing signal, a
    read, a ping tick, a reconnect - the frames sent so far stay the frames
    sent. The one exception is the handler of the backlog frame, which
    acknowledges without looking at the ready state. *)
Theorem no_frame_without_open_socket (trim toLowerCase : string -> string)
  (h : Hook) (c : HookCall) :
  ws_open h = false -> is_backlog_frame c = false ->
  frames_sent (effects (hook_call trim toLowerCase h c))
  = frames_sent (effects h).
Proof.
  intros Hw Hc. destruct c as [e| |]; simpl.
  - destruct e; unfold hook_step.
    + apply mount_frames.
    + apply unmount_frames.
    + unfold rerender. destruct (bool_decide _); [done|].
      rewrite mount_frames. simpl. apply unmount_frames.
    + apply connect_frames.
    + destruct h as [t u s w m i n r p es]. unfold onopen. simpl.
      destruct m, p; simpl; rewrite ?frames_sent_app; simpl;
        by rewrite ?app_nil_r.
    + unfold onclose. destruct (negb (isMountedRef h)); [done|].
      assert (H1 : frames_sent (effects (after_ping_cleanup h))
                   = frames_sent (effects h)).
      { unfold after_ping_cleanup. simpl. destruct (pingTimerRef h); simpl;
          rewrite ?frames_sent_app; simpl; by rewrite ?app_nil_r. }
      destruct (_ || _); [exact H1|].
      destruct (_ && _); [|exact H1].
      by rewrite scheduleReconnect_frames.
    + rewrite onmessage_effects, frames_sent_app.
      destruct (isMountedRef h); [|by rewrite app_nil_r].
      destruct data as [f|]; [|by rewrite app_nil_r].
      destruct f; simpl in *; try discriminate Hc; by rewrite app_nil_r.
    + apply connect_frames.
    + unfold ping_timer_fired. by rewrite Hw.
    + unfold typing_timer_fired. by destruct (isMountedRef h).
    + unfold hydrate. destruct (negb (truthy_opt _)); [done|].
      destruct rows; [|done]. by destruct (isMountedRef h).
    + unfold sendMessage. destruct (negb (truthy_opt _)); [done|].
      by rewrite Hw.
    + unfold markAsRead. destruct (negb (truthy_opt _)); [done|].
      destruct (map resolved_id _); [done|]. by rewrite Hw.
    + done.
    + unfold reconnect. by rewrite connect_frames.
  - unfold emitTypingStart. by rewrite Hw.
  - unfold emitTypingStop. by rewrite Hw.
Qed.

(** X9, at alice's hook once its socket was closed by the server: her next
    message is not sent. *)
Lemma no_frame_without_open_socket_witness :
  let h := onclose 1011 fresh_hook in
  ws_open h = false
  /\ frames_sent (effects (sendMessage id_string id_string "bob" "hi" "u1" 50 h))
     = [].
Proof.
  intros h. split; [reflexivity|].
  exact (no_frame_without_open_socket id_string id_string h
           (Event (EvSendMessage "bob" "hi" "u1" 50)) eq_refl eq_refl).
Defined.

(** ** Teardown *)

Lemma torn_down_call_inert trim toLowerCase h c :
  isMountedRef h = false -> wsRef h = None -> needs_live_hook c = true ->
  let h' := hook_call trim toLowerCase h c in
  state h' = state h /\ effects h' = effects h
  /\ isMountedRef h' = false /\ wsRef h' = None.
Proof.
  intros Hm Hw Hc.
  assert (Ho : ws_open h = false) by (unfold ws_open; by rewrite Hw).
  destruct c as [e| |]; simpl.
  - destruct e; try discriminate Hc; unfold hook_step.
    + unfold connect. rewrite Hm. simpl. by rewrite !orb_true_r.
    + unfold onopen. simpl. by rewrite Hm, Hw.
    + unfold onclose. by rewrite Hm, Hw.
    + unfold onmessage. by rewrite Hm.
    + unfold reconnect_timer_fired, connect. rewrite Hm. simpl.
      by rewrite !orb_true_r.
    + unfold ping_timer_fired. by rewrite Ho.
    + unfold typing_timer_fired. by rewrite Hm.
    + destruct rows as [rows|]; [|discriminate Hc].
      unfold hydrate. destruct (negb (truthy_opt _)); [done|]. by rewrite Hm.
    + unfold sendMessage. destruct (negb (truthy_opt _)); [done|].
      by rewrite Ho.
    + unfold markAsRead. destruct (negb (truthy_opt _)); [done|].
      destruct (map resolved_id _); [done|]. by rewrite Ho.
    + unfold reconnect, connect. simpl. rewrite Hm. simpl.
      by rewrite !orb_true_r.
  - unfold emitTypingStart. by rewrite Ho.
  - unfold emitTypingStop. by rewrite Ho.
Qed.

(** X10. Teardown. Unmounting closes the socket the hook holds with code
    1000 as a self-initiated close, forgets it and leaves the snapshot
    alone; and from then on nothing that comes from a socket or a timer,
    and no send, read, typing signal or reconnect, changes the snapshot or
    does anything to the outside world, in whatever number and order. *)
Theorem unmounted_hook_is_inert (trim toLowerCase : string -> string)
  (h : Hook) (cs : list HookCall) :
  Forall (fun c => needs_live_hook c = true) cs ->
  let u := unmount h in
  let h' := hook_calls trim toLowerCase u cs in
  isMountedRef u = false /\ wsRef u = None /\ intentionalCloseRef u = true
  /\ state u = state h
  /\ (wsRef h <> None ->
      exists es, effects u = es ++ [SocketClosed 1000 "Unmounted"])
  /\ state h' = state h /\ effects h' = effects u.
Proof.
  intros Hcs u h'.
  assert (Hu : isMountedRef u = false /\ wsRef u = None
               /\ intentionalCloseRef u = true /\ state u = state h).
  { subst u. destruct h as [t us s w m i n r p es]. unfold unmount. simpl.
    by destruct r, p, w. }
  destruct Hu as (Hm & Hw & Hi & Hs).
  split; [exact Hm|]. split; [exact Hw|]. split; [exact Hi|].
  split; [exact Hs|]. split.
  { intros Hne. subst u. destruct h as [t us s w m i n r p es].
    unfold unmount. simpl in *. destruct w as [w|]; [|done].
    destruct r, p; simpl; by eexists. }
  rewrite <- Hs. subst h'. unfold hook_calls.
  clearbody u. clear Hi Hs. revert u Hm Hw.
  induction Hcs as [|c cs Hc Hcs IH]; intros u Hm Hw; simpl; [done|].
  destruct (torn_down_call_inert trim toLowerCase u c Hm Hw Hc)
    as (Es & Ee & Hm' & Hw').
  destruct (IH _ Hm' Hw') as [E1 E2].
  by rewrite E1, E2, Es, Ee.
Qed.

(** X10, at alice's hook: after the unmount a late frame, the close event
    of the socket and a send leave the snapshot as it was. *)
Lemma unmounted_hook_is_inert_witness :
  let cs := [Event (EvMessage (Some (new_message (wire "m1" "dm:alice:bob" "bob" 100))));
             Event (EvClose 1006);
             Event (EvSendMessage "bob" "hi" "u1" 50)] in
  state (hook_calls id_string id_string (unmount fresh_hook) cs) = state fresh_hook
  /\ effects (hook_calls id_string id_string (unmount fresh_hook) cs)
     = [PingTimerCleared; SocketClosed 1000 "Unmounted"].
Proof.
  intros cs.
  destruct (unmounted_hook_is_inert id_string id_string fresh_hook cs)
    as (_ & _ & _ & _ & _ & Hs & He).
  { subst cs. repeat constructor. }
  split; [exact Hs|]. rewrite He. reflexivity.
Defined.

(** ** Closing and reconnecting *)

(** X11. A normal close is not retried. On a mounted hook a close event
    with code 1000 or 1001 ends in [disconnected], whatever the state of
    the hook - after failed attempts too, and whatever its intentional
    flag says: no timer is armed, the retry counter, the last error and
    the messages stay as they are, a retry armed earlier stays armed, and
    the ping interval is stopped. *)
Theorem close_without_retry (h : Hook) (code : Z) :
  isMountedRef h = true -> code = 1000 \/ code = 1001 ->
  let h' := onclose code h in
  connectionStatus (state h') = Disconnected
  /\ error (state h') = error (state h)
  /\ messages (state h') = messages (state h)
  /\ scheduled_delays (effects h') = scheduled_delays (effects h)
  /\ reconnectTimerRef h' = reconnectTimerRef h
  /\ reconnectAttemptsRef h' = reconnectAttemptsRef h
  /\ pingTimerRef h' = false.
Proof.
  intros Hm Hc h'. subst h'. unfold onclose. rewrite Hm. simpl.
  assert (H1 : (code =? 4001) = false) by (apply Z.eqb_neq; lia).
  assert (H2 : (code =? 1006) = false) by (apply Z.eqb_neq; lia).
  rewrite H1, H2. simpl.
  destruct (after_ping_cleanup_fields h) as (_ & _ & _ & Es & Ei & En & Er & Ed).
  assert (Ep : pingTimerRef (after_ping_cleanup h) = false).
  { unfold after_ping_cleanup. simpl. by destruct (pingTimerRef h) eqn:E. }
  assert (Hno : negb (code =? 1000) && negb (code =? 1001)
                && negb (intentionalCloseRef (after_ping_cleanup h)) = false).
  { destruct Hc as [-> | ->]; simpl; [done|].
    by destruct (intentionalCloseRef _). }
  rewrite Hno. simpl. by rewrite Es, Ed, Er, En, Ep.
Qed.

(** X11, at alice's hook: the server goes away with code 1001. *)
Lemma close_without_retry_witness :
  connectionStatus (state (onclose 1001 fresh_hook)) = Disconnected
  /\ scheduled_delays (effects (onclose 1001 fresh_hook)) = [].
Proof.
  destruct (close_without_retry fresh_hook 1001 eq_refl) as (Hs & _ & _ & Hd & _);
    [by right|].
  split; [exact Hs | exact Hd].
Defined.

(** X12. The manual retry. On a mounted hook with credentials [reconnect]
    sets the retry counter to zero, closes the socket it holds (if any)
    with code 1000 and then opens a new one - these are its only effects,
    in this order -, moves to [connecting] and clears the last error - the
    give-up error included; the next failure is retried after 1000 ms
    again. Without credentials, or unmounted, it only resets the
    counter. *)
Theorem manual_reconnect (h : Hook) :
  let h' := reconnect h in
  reconnectAttemptsRef h' = 0%nat
  /\ (live h ->
      connectionStatus (state h') = Connecting
      /\ error (state h') = None
      /\ messages (state h') = messages (state h)
      /\ wsRef h' = Some WS_CONNECTING
      /\ intentionalCloseRef h' = false
      /\ sockets_opened (effects h') = S (sockets_opened (effects h))
      /\ effects h'
         = effects h
           ++ match wsRef h with
              | Some _ => [SocketClosed 1000 "Reconnecting"; SocketOpened]
              | None => [SocketOpened]
              end
      /\ sockets_closed (effects h')
         = (sockets_closed (effects h)
            + match wsRef h with Some _ => 1 | None => 0 end)%nat
      /\ forall code, retryable code = true ->
           scheduled_delays (effects (onclose code h'))
           = scheduled_delays (effects h) ++ [1000])
  /\ (~ live h -> state h' = state h /\ effects h' = effects h).
Proof.
  intros h'. subst h'. unfold reconnect.
  split; [|split].
  - unfold connect. simpl. destruct (_ || _); [done|]. by destruct (wsRef h).
  - intros (Hm & Ht & Hu).
    assert (Hl : live (set_reconnectAttempts h 0)) by done.
    destruct (reconnect_timer_fired_live _ Hl) as (Hl' & Hi & Ha & Hd & Hs & Hw).
    unfold reconnect_timer_fired in *.
    split; [exact Hs|]. split.
    { unfold connect. simpl. rewrite Hm, Ht, Hu. simpl. by destruct (wsRef h). }
    split.
    { unfold connect. simpl. rewrite Hm, Ht, Hu. simpl. by destruct (wsRef h). }
    split; [exact Hw|]. split; [exact Hi|]. split.
    { unfold connect. simpl. rewrite Hm, Ht, Hu. simpl.
      destruct (wsRef h); simpl; rewrite !sockets_opened_app;
        unfold sockets_opened; simpl; lia. }
    split.
    { unfold connect. simpl. rewrite Hm, Ht, Hu. simpl.
      destruct (wsRef h); simpl; by rewrite <- ?app_assoc. }
    split.
    { unfold connect. simpl. rewrite Hm, Ht, Hu. simpl.
      destruct (wsRef h); simpl; rewrite !sockets_closed_app;
        unfold sockets_closed; simpl; lia. }
    intros code Hc.
    destruct (onclose_retry code _ (proj1 Hl') Hi Hc) as (Hd' & _).
    { rewrite Ha. simpl. unfold MAX_RECONNECT_ATTEMPTS. lia. }
    rewrite Hd', Hd, Ha. reflexivity.
  - intros Hn. unfold connect. simpl.
    destruct (negb (truthy_opt (token h)) || negb (truthy_opt (myUsername h))
              || negb (isMountedRef h)) eqn:E; [done|].
    destruct Hn. apply orb_false_iff in E as [E E3].
    apply orb_false_iff in E as [E1 E2].
    apply negb_false_iff in E1, E2, E3. by repeat split.
Qed.

(** X12, at alice's hook after it gave up: the manual retry clears the
    give-up error, sets the counter back to zero, closes the dead socket
    the hook still holds and opens a new one. *)
Lemma manual_reconnect_witness :
  let h := onclose 1011 (Nat.iter 6 (fail_and_retry 1011) fresh_hook) in
  error (state h) = Some give_up_message
  /\ error (state (reconnect h)) = None
  /\ reconnectAttemptsRef (reconnect h) = 0%nat
  /\ effects (reconnect h)
     = effects h ++ [SocketClosed 1000 "Reconnecting"; SocketOpened].
Proof.
  intros h.
  destruct (manual_reconnect h) as (Ha & Hl & _).
  assert (Hlive : live h) by (vm_compute; repeat split).
  assert (Hw : wsRef h = Some WS_CLOSED) by (vm_compute; reflexivity).
  destruct (Hl Hlive) as (_ & He & _ & _ & _ & _ & Hfx & _).
  rewrite Hw in Hfx.
  split; [vm_compute; reflexivity|]. split; [exact He|].
  split; [exact Ha | exact Hfx].
Defined.

(** ** Typing, presence and other frames without messages *)

(** X13. The typing indicator of a peer. On a mounted hook a
    [typing_start] frame sets the flag of the peer and arms a timer of
    3000 ms after clearing the peer's previous one; the expiry of the timer
    and a [typing_stop] frame each put the flag back to false (the stop
    clears the timer); the flags of the other peers are never touched. *)
Theorem typing_indicator (from : string) (h : Hook) :
  isMountedRef h = true ->
  let h1 := onmessage (Some (typing_start from)) h in
  let h2 := typing_timer_fired from h1 in
  let h3 := onmessage (Some (typing_stop from)) h1 in
  typingPeers (state h1) !! from = Some true
  /\ effects h1 = effects h ++ [TypingTimerCleared from; TypingTimerSet from 3000]
  /\ typingPeers (state h2) !! from = Some false
  /\ typingPeers (state h3) !! from = Some false
  /\ effects h3 = effects h1 ++ [TypingTimerCleared from]
  /\ forall other, other <> from ->
       typingPeers (state h1) !! other = typingPeers (state h) !! other
       /\ typingPeers (state h2) !! other = typingPeers (state h) !! other
       /\ typingPeers (state h3) !! other = typingPeers (state h) !! other.
Proof.
  intros Hm h1 h2 h3.
  assert (E1 : h1 = emit (emit (dispatch h (TYPING_UPDATE from true))
                            (TypingTimerCleared from))
                       (TypingTimerSet from 3000)).
  { subst h1. unfold onmessage. by rewrite Hm. }
  assert (Hm1 : isMountedRef h1 = true) by (rewrite E1; exact Hm).
  assert (E2 : h2 = dispatch h1 (TYPING_UPDATE from false)).
  { subst h2. unfold typing_timer_fired. by rewrite Hm1. }
  assert (E3 : h3 = dispatch (emit h1 (TypingTimerCleared from))
                      (TYPING_UPDATE from false)).
  { subst h3. unfold onmessage. by rewrite Hm1. }
  clearbody h1 h2 h3. subst h1 h2 h3. simpl.
  rewrite !lookup_insert_eq, <- app_assoc.
  split; [done|]. split; [done|]. split; [done|]. split; [done|].
  split; [done|].
  intros other Hne. by rewrite !lookup_insert_ne.
Qed.

(** X13, at alice's hook: bob starts typing and the timer expires. *)
Lemma typing_indicator_witness :
  typingPeers (state (onmessage (Some (typing_start "bob")) fresh_hook)) !! "bob"
  = Some true
  /\ typingPeers
       (state (typing_timer_fired "bob"
                 (onmessage (Some (typing_start "bob")) fresh_hook))) !! "bob"
     = Some false.
Proof.
  destruct (typing_indicator "bob" fresh_hook eq_refl) as (H1 & _ & H2 & _).
  split; [exact H1 | exact H2].
Defined.

(** X14. Frames without messages never touch the ledger. A typing,
    presence, [pong] or [error] frame - and a frame that is not valid JSON,
    and any frame at all on an unmounted hook - leaves every conversation
    bucket, the connection status and the hydration flag as they were and
    sends nothing; a frame that is not valid JSON and a [pong] leave the
    whole hook as it was. *)
Theorem ephemeral_frames_keep_ledger (data : option ServerFrame) (h : Hook) :
  (match data with Some f => is_ephemeral_frame f = true | None => True end)
  \/ isMountedRef h = false ->
  let h' := onmessage data h in
  messages (state h') = messages (state h)
  /\ connectionStatus (state h') = connectionStatus (state h)
  /\ dbLoaded (state h') = dbLoaded (state h)
  /\ frames_sent (effects h') = frames_sent (effects h)
  /\ (match data with Some (pong _) | None => True | _ => isMountedRef h = false end
      -> h' = h).
Proof.
  intros Hd h'. subst h'.
  rewrite onmessage_effects, frames_sent_app.
  unfold onmessage. destruct (isMountedRef h) eqn:Hm; simpl.
  - destruct Hd as [Hd|Hd]; [|done].
    destruct data as [f|]; [|by rewrite app_nil_r].
    destruct f; try discriminate Hd; simpl; rewrite app_nil_r;
      repeat split; try done; intros Hf; discriminate Hf.
  - by rewrite app_nil_r.
Qed.

(** X14, at alice's hook after her send: a server error sets the global
    error and leaves her message where it was. *)
Lemma ephemeral_frames_keep_ledger_witness :
  messages (state (onmessage (Some (error_frame "rate limited" 429)) sending_hook))
  = messages (state sending_hook).
Proof.
  exact (proj1 (ephemeral_frames_keep_ledger
                  (Some (error_frame "rate limited" 429)) sending_hook
                  (or_introl eq_refl))).
Defined.

(** ** Clearing a conversation *)

(** X15. [clearChat] forgets one conversation and nothing else: its bucket
    is gone (no message, nothing unread), every other bucket is as it was,
    nothing is sent; and on the mounted hook a late acknowledgement or
    read confirmation for the cleared conversation finds nothing to update
    and leaves the snapshot as the clearing left it. *)
Theorem clearChat_forgets (cid : string) (h : Hook) :
  let h' := clearChat cid h in
  messages (state h') !! cid = None
  /\ bucket_of (state h') cid = []
  /\ (forall self, unreadCount self (bucket_of (state h') cid) = 0%nat)
  /\ (forall c, c <> cid -> messages (state h') !! c = messages (state h) !! c)
  /\ effects h' = effects h
  /\ (isMountedRef h = true ->
      (forall lid serverMsg, w_chatId serverMsg = cid ->
         onmessage (Some (message_sent lid serverMsg)) h' = h')
      /\ (forall ids by_,
            state (onmessage (Some (messages_read cid ids by_)) h') = state h')).
Proof.
  intros h'.
  assert (Hn : messages (state h') !! cid = None).
  { subst h'. unfold clearChat. simpl. apply lookup_delete_eq. }
  assert (Hb : bucket_of (state h') cid = []).
  { unfold bucket_of. by rewrite Hn. }
  split; [exact Hn|]. split; [exact Hb|]. split; [by rewrite Hb|].
  split; [|split; [done|]].
  - intros c Hc. subst h'. unfold clearChat. simpl. by apply lookup_delete_ne.
  - intros Hm. assert (Hm' : isMountedRef h' = true) by done.
    clearbody h'. split.
    + intros lid serverMsg Hc. rewrite onmessage_message_sent by done.
      unfold dispatch. rewrite MESSAGE_UPDATED_absent; [apply set_state_same|].
      by rewrite Hc, Hb.
    + intros ids by_. unfold onmessage. rewrite Hm'. cbn [negb].
      rewrite state_dispatch. simpl. unfold map_bucket. rewrite Hn.
      apply set_messages_same.
Qed.

(** X15, at alice's hook: she clears the conversation with bob while her
    message is still unacknowledged; the acknowledgement is dropped. *)
Lemma clearChat_forgets_witness :
  let h' := clearChat "dm:alice:bob" sending_hook in
  bucket_of (state sending_hook) "dm:alice:bob" <> []
  /\ bucket_of (state h') "dm:alice:bob" = []
  /\ onmessage (Some ack_u1) h' = h'.
Proof.
  intros h'.
  destruct (clearChat_forgets "dm:alice:bob" sending_hook)
    as (_ & Hb & _ & _ & _ & Hlate).
  split; [by vm_compute|]. split; [exact Hb|].
  destruct (Hlate eq_refl) as [Hack _]. by apply Hack.
Defined.

(** ** What the status transitions leave alone *)

Lemma map_preserving_fields f (b : list ChatMessage) :
  (forall x, localId (f x) = localId x /\ chatId (f x) = chatId x
             /\ senderUsername (f x) = senderUsername x
             /\ receiverUsername (f x) = receiverUsername x
             /\ text (f x) = text x) ->
  map (fun m => (localId m, chatId m, senderUsername m, receiverUsername m, text m))
    (map f b)
  = map (fun m => (localId m, chatId m, senderUsername m, receiverUsername m, text m)) b.
Proof.
  intros Hf. induction b as [|x b IH]; [done|]. simpl.
  destruct (Hf x) as (-> & -> & -> & -> & ->). by rewrite IH.
Qed.

(** X16. The transitions that update statuses - acknowledgement, local
    read, the two read confirmations - never add, remove or reorder
    messages and never touch identity or content: in every bucket the
    sequence of ([localId], [chatId], sender, receiver, text) is the same
    before and after (the acknowledgement overwrites the timestamp without
    sorting again), and no bucket appears or disappears. *)
Theorem status_actions_keep_positions (s : SocketState) (a : SocketAction) :
  is_status_action a = true ->
  forall c,
    map (fun m => (localId m, chatId m, senderUsername m, receiverUsername m, text m))
      (bucket_of (reducer s a) c)
    = map (fun m => (localId m, chatId m, senderUsername m, receiverUsername m, text m))
        (bucket_of s c)
    /\ length (bucket_of (reducer s a) c) = length (bucket_of s c)
    /\ (is_Some (messages (reducer s a) !! c) <-> is_Some (messages s !! c)).
Proof.
  intros Ha c.
  assert (Hmap : forall f cid,
            (forall x, localId (f x) = localId x /\ chatId (f x) = chatId x
                       /\ senderUsername (f x) = senderUsername x
                       /\ receiverUsername (f x) = receiverUsername x
                       /\ text (f x) = text x) ->
            map (fun m => (localId m, chatId m, senderUsername m,
                           receiverUsername m, text m))
              (default [] (map_bucket f cid (messages s) !! c))
            = map (fun m => (localId m, chatId m, senderUsername m,
                             receiverUsername m, text m))
                (default [] (messages s !! c))
            /\ length (default [] (map_bucket f cid (messages s) !! c))
               = length (default [] (messages s !! c))
            /\ (is_Some (map_bucket f cid (messages s) !! c)
                <-> is_Some (messages s !! c))).
  { intros f cid Hf. rewrite map_bucket_bucket, map_bucket_lookup.
    destruct (decide (cid = c)); [|done].
    split; [by apply map_preserving_fields|].
    split; [apply length_map|].
    destruct (messages s !! c); simpl; split; intros [? ?]; by eexists. }
  unfold bucket_of.
  destruct a; try discriminate Ha; simpl; apply Hmap; intros x.
  - by destruct (String.eqb _ _).
  - by destruct (_ && _).
  - by destruct (includes _ _).
  - by destruct (matches_ids _ _).
Qed.

(** X16, at the acknowledgement of alice's message. *)
Lemma status_actions_keep_positions_witness :
  length (bucket_of (state sent_hook) "dm:alice:bob")
  = length (bucket_of (state sending_hook) "dm:alice:bob").
Proof.
  destruct (status_actions_keep_positions (state sending_hook)
              (MESSAGE_UPDATED "u1" (wire "srv1" "dm:alice:bob" "alice" 60))
              eq_refl "dm:alice:bob") as (_ & Hlen & _).
  exact Hlen.
Defined.

(** ** What a bulk add brings *)

(** X17. A bulk add loses nothing and invents nothing: every message that
    was in a bucket is still in it, and the [localId]s of a bucket
    afterwards are exactly those it had together with those of the payload
    messages of that conversation. *)
Theorem bulk_add_localIds (s : SocketState) (payload : list ChatMessage)
  (c : string) :
  let s' := reducer s (MESSAGES_BULK_ADD payload) in
  (forall x, x ∈ bucket_of s c -> x ∈ bucket_of s' c)
  /\ (forall x, x ∈ bucket_of s' c -> x ∈ bucket_of s c \/ x ∈ payload)
  /\ forall l,
       l ∈ localId <$> bucket_of s' c
       <-> l ∈ localId <$> bucket_of s c
           \/ exists x, x ∈ payload /\ chatId x = c /\ localId x = l.
Proof.
  intros s'. subst s'. unfold bucket_of. simpl.
  split; [|split].
  - intros x Hx. rewrite sort_all_bucket. by apply foldl_bulk_elem.
  - intros x Hx. rewrite sort_all_bucket in Hx. by apply foldl_bulk_origin in Hx.
  - intros l. rewrite sort_all_bucket. split.
    + intros Hl. apply list_elem_of_fmap in Hl as (x & -> & Hx).
      destruct (foldl_bulk_origin _ _ _ _ Hx) as [Hold|Hnew].
      * left. apply list_elem_of_fmap. by exists x.
      * destruct (decide (x ∈ default [] (messages s !! c))) as [Hin|Hnin].
        { left. apply list_elem_of_fmap. by exists x. }
        right. exists x. split; [done|]. split; [|done].
        clear Hnew. revert Hx Hnin. generalize (messages s).
        induction payload as [|y payload IH]; intros m Hx Hnin; simpl in Hx;
          [done|].
        destruct (decide (x ∈ default [] (bulk_add_one m y !! c))) as [Hin|Hn'].
        -- rewrite bulk_add_one_bucket in Hin.
           destruct (decide (chatId y = c)) as [Hc|Hc]; [|done].
           set (b := default [] (m !! c)) in *.
           destruct (has_localId (localId y) b); [done|].
           apply elem_of_app in Hin as [Hin|Hin]; [done|].
           apply list_elem_of_singleton in Hin. by subst.
        -- by apply (IH (bulk_add_one m y)).
    + intros [Hl|(x & Hx & Hc & Hl)].
      * apply has_localId_elem. apply foldl_bulk_keeps.
        by apply has_localId_elem.
      * apply has_localId_elem. subst c l. by apply foldl_bulk_has.
Qed.

(** ** The durable store *)

Lemma find_split {A} (p : A -> bool) (l : list A) (x : A) :
  find p l = Some x ->
  exists pre post, l = pre ++ x :: post
                   /\ Forall (fun y => p y = false) pre /\ p x = true.
Proof.
  induction l as [|y l IH]; simpl; [done|].
  destruct (p y) eqn:E.
  - intros [= <-]. exists [], l. by repeat split.
  - intros H. destruct (IH H) as (pre & post & -> & Hpre & Hx).
    exists (y :: pre), post. repeat split; [|done]. by constructor.
Qed.

Lemma find_none_forall {A} (p : A -> bool) (l : list A) :
  find p l = None -> Forall (fun y => p y = false) l.
Proof.
  induction l as [|y l IH]; simpl; [constructor|].
  destruct (p y) eqn:E; [done|]. intros H. constructor; [done | by apply IH].
Qed.

Lemma find_app_skip {A} (p : A -> bool) (pre l : list A) :
  Forall (fun y => p y = false) pre -> find p (pre ++ l) = find p l.
Proof.
  induction 1 as [|y pre Hy Hpre IH]; simpl; [done|]. by rewrite Hy.
Qed.

(** Updating the row of a key that is not repeated changes that row only. *)
Lemma table_update_split {A} (f : A -> A) (pre post : list (Z * A)) id old next :
  NoDup (fst <$> (pre ++ (id, old) :: post)) ->
  t_rows (table_update id f (mkTable (pre ++ (id, old) :: post) next))
  = pre ++ (id, f old) :: post.
Proof.
  intros Hnd. unfold table_update. simpl.
  rewrite fmap_app, fmap_cons in Hnd. simpl in Hnd.
  apply NoDup_app in Hnd as (_ & Hpre & Hnd).
  apply NoDup_cons in Hnd as [Hpost _].
  assert (Hid : forall l : list (Z * A), id ∉ fst <$> l ->
            map (fun r => if fst r =? id then (fst r, f (snd r)) else r) l = l).
  { intros l Hl. induction l as [|r l IH]; [done|]. simpl.
    rewrite fmap_cons, not_elem_of_cons in Hl. destruct Hl as [Hne Hl].
    destruct (Z.eqb_spec (fst r) id) as [Heq|_]; [by destruct Hne|].
    by rewrite IH. }
  rewrite map_app. simpl. rewrite Z.eqb_refl.
  rewrite (Hid pre), (Hid post); [done | done |].
  intros Hin. apply (Hpre id); [done|]. apply list_elem_of_here.
Qed.

(** The update branch of [upsertMessage]. *)
Lemma upsertMessage_existing msg t id old :
  messages_table_ok t ->
  first_by_localId (localId msg) t = Some (id, old) ->
  exists pre post,
    t_rows t = pre ++ (id, old) :: post
    /\ t_rows (upsertMessage msg t) = pre ++ (id, update_message msg old) :: post
    /\ t_next (upsertMessage msg t) = t_next t
    /\ localId old = localId msg
    /\ Forall (fun r => String.eqb (localId (snd r)) (localId msg) = false) pre.
Proof.
  intros ((Hk & _) & _) Hf. unfold upsertMessage. rewrite Hf.
  unfold first_by_localId in Hf.
  destruct (find_split _ _ _ Hf) as (pre & post & Hr & Hpre & Hx).
  exists pre, post. destruct t as [rows next]. simpl in *. subst rows.
  split; [done|].
  split; [exact (table_update_split (update_message msg) pre post id old next Hk)|].
  split; [done|]. split; [by apply String.eqb_eq|done].
Qed.

Lemma messages_table_ok_upsert msg t :
  messages_table_ok t -> messages_table_ok (upsertMessage msg t).
Proof.
  intros Hok.
  destruct (first_by_localId (localId msg) t) as [[id old]|] eqn:Hf.
  - destruct (upsertMessage_existing msg t id old Hok Hf)
      as (pre & post & Hr & Hr' & Hn & Hl & _).
    destruct Hok as ((Hk & Hb) & Hu). unfold messages_table_ok, table_keys_ok.
    rewrite Hr', Hn. rewrite Hr in Hk, Hb, Hu.
    rewrite fmap_app, fmap_cons in *. simpl in *.
    split; [split; [done|]|].
    + apply Forall_app in Hb as [Hb1 Hb2]. apply Forall_app. split; [done|].
      apply Forall_cons in Hb2 as [Hb2 Hb3]. by constructor.
    + rewrite fmap_app, fmap_cons in Hu |- *. simpl in *. by rewrite <- Hl.
  - unfold upsertMessage. rewrite Hf.
    destruct Hok as ((Hk & Hb) & Hu).
    unfold messages_table_ok, table_keys_ok, table_add. simpl.
    rewrite !fmap_app. simpl. split; [split|].
    + apply NoDup_app. split; [done|]. split; [|apply NoDup_singleton].
      intros k Hk1 Hk2. apply list_elem_of_singleton in Hk2. subst k.
      apply list_elem_of_fmap in Hk1 as (r & Hr1 & Hr2).
      apply (proj1 (Forall_forall _ _) Hb) in Hr2. lia.
    + apply Forall_app. split.
      * eapply Forall_impl; [exact Hb|]. simpl. intros r Hr. lia.
      * repeat constructor. simpl. lia.
    + apply NoDup_app. split; [done|]. split; [|apply NoDup_singleton].
      intros l Hl1 Hl2. apply list_elem_of_singleton in Hl2. subst l.
      apply list_elem_of_fmap in Hl1 as (r & Hr1 & Hr2).
      unfold first_by_localId in Hf. apply find_none_forall in Hf.
      apply (proj1 (Forall_forall _ _) Hf) in Hr2.
      apply String.eqb_neq in Hr2. by destruct Hr2.
Qed.

(** Where [upsertMessage] puts the message: the insert and the update. *)
Lemma upsertMessage_find msg t :
  messages_table_ok t ->
  (first_by_localId (localId msg) t = None ->
   t_rows (upsertMessage msg t) = t_rows t ++ [(t_next t, msg)]
   /\ first_by_localId (localId msg) (upsertMessage msg t) = Some (t_next t, msg))
  /\ (forall id old, first_by_localId (localId msg) t = Some (id, old) ->
      first_by_localId (localId msg) (upsertMessage msg t)
      = Some (id, update_message msg old)
      /\ fst <$> t_rows (upsertMessage msg t) = fst <$> t_rows t).
Proof.
  intros Hok. split.
  - intros Hf. unfold upsertMessage. rewrite Hf.
    split; [done|]. unfold first_by_localId, table_add. simpl.
    rewrite find_app_skip by (by apply find_none_forall).
    simpl. by rewrite String.eqb_refl.
  - intros id old Hf.
    destruct (upsertMessage_existing msg t id old Hok Hf)
      as (pre & post & Hr & Hr' & _ & _ & Hpre).
    split.
    + unfold first_by_localId. rewrite Hr', find_app_skip by done.
      simpl. by rewrite String.eqb_refl.
    + rewrite Hr, Hr', !fmap_app. done.
Qed.

(** X18. [upsertMessage] on a table that honours its keys and its unique
    index: the table still does; the message is stored under its
    [localId], every field of the stored row being the one given (last
    write wins), except that a row keeps its key and keeps its serverId
    when the given message has none; an unknown [localId] is inserted as
    the last row under the next key, a known one is updated in place
    without adding a row; and the rows of the other messages are left as
    they were. *)
Theorem upsertMessage_stores (msg : ChatMessage) (t : Table ChatMessage) :
  messages_table_ok t ->
  let t' := upsertMessage msg t in
  messages_table_ok t'
  /\ (first_by_localId (localId msg) t = None ->
      t_rows t' = t_rows t ++ [(t_next t, msg)]
      /\ first_by_localId (localId msg) t' = Some (t_next t, msg))
  /\ (forall id old, first_by_localId (localId msg) t = Some (id, old) ->
      first_by_localId (localId msg) t' = Some (id, update_message msg old)
      /\ status (update_message msg old) = status msg
      /\ (serverId msg = None ->
          serverId (update_message msg old) = serverId old)
      /\ fst <$> t_rows t' = fst <$> t_rows t)
  /\ (forall r, r ∈ t_rows t -> localId (snd r) <> localId msg ->
        r ∈ t_rows t').
Proof.
  intros Hok t'. split; [by apply messages_table_ok_upsert|].
  destruct (upsertMessage_find msg t Hok) as [Hins Hupd].
  split; [exact Hins|]. split.
  - intros id old Hf. destruct (Hupd id old Hf) as [Hfound Hkeys].
    split; [exact Hfound|]. split; [done|]. split; [|exact Hkeys].
    intros Hs. simpl. by rewrite Hs.
  - intros r Hin Hne. subst t'.
    destruct (first_by_localId (localId msg) t) as [[id old]|] eqn:Hf.
    + destruct (upsertMessage_existing msg t id old Hok Hf)
        as (pre & post & Hr & Hr' & _ & Hl & _).
      rewrite Hr', Hr in *. rewrite elem_of_app, elem_of_cons in *.
      destruct Hin as [Hin|[->|Hin]]; [by left | | by right; right].
      simpl in Hne. by destruct Hne.
    + unfold upsertMessage. rewrite Hf. simpl. apply elem_of_app. by left.
Qed.

(** X18, for a stored message that is upserted again at another status. *)
Lemma upsertMessage_stores_witness :
  let t := upsertMessage read_row empty_table in
  first_by_localId "u0" (upsertMessage (with_status Sent read_row) t)
  = Some (1, with_status Sent read_row)
  /\ length (t_rows (upsertMessage (with_status Sent read_row) t)) = 1%nat.
Proof.
  intros t.
  assert (Hok : messages_table_ok t).
  { apply messages_table_ok_upsert. repeat split; simpl; constructor. }
  destruct (upsertMessage_stores (with_status Sent read_row) t Hok)
    as (_ & _ & Hupd & _).
  destruct (Hupd 1 read_row eq_refl) as (Hf & _ & _ & Hk).
  split; [exact Hf|].
  change (length (fst <$> t_rows (upsertMessage (with_status Sent read_row) t))
          = length (fst <$> t_rows t)) .
  by rewrite Hk.
Defined.

Lemma update_message_twice msg old :
  update_message msg (update_message msg old) = update_message msg old.
Proof. unfold update_message. simpl. by destruct (serverId msg). Qed.

Lemma update_message_self msg : update_message msg msg = msg.
Proof. destruct msg as [l sid c sn r tx ts st]. by destruct sid. Qed.

(** X19. Writing the same message twice is writing it once: a repeated
    [upsertMessage] leaves the table exactly as the first one left it, so a
    re-delivered message never makes a second row. *)
Theorem upsertMessage_idempotent (msg : ChatMessage) (t : Table ChatMessage) :
  messages_table_ok t ->
  upsertMessage msg (upsertMessage msg t) = upsertMessage msg t.
Proof.
  intros Hok.
  pose proof (messages_table_ok_upsert msg t Hok) as Hok'.
  destruct (upsertMessage_find msg t Hok) as [Hins Hupd].
  assert (Hf' : exists id stored,
            first_by_localId (localId msg) (upsertMessage msg t) = Some (id, stored)
            /\ update_message msg stored = stored).
  { destruct (first_by_localId (localId msg) t) as [[id old]|] eqn:Hf.
    - destruct (Hupd id old eq_refl) as (H & _). exists id, (update_message msg old).
      split; [done | apply update_message_twice].
    - destruct (Hins eq_refl) as (_ & H). exists (t_next t), msg.
      split; [done | apply update_message_self]. }
  destruct Hf' as (id & stored & Hf & Hfix).
  destruct (upsertMessage_existing msg _ id stored Hok' Hf)
    as (pre & post & Hr & Hr' & Hn & _).
  rewrite Hfix, <- Hr in Hr'.
  destruct (upsertMessage msg (upsertMessage msg t)) as [rows2 next2].
  destruct (upsertMessage msg t) as [rows1 next1]. simpl in *. congruence.
Qed.

(** X19, for the row of alice's old message written to an empty table. *)
Lemma upsertMessage_idempotent_witness :
  t_rows (upsertMessage read_row (upsertMessage read_row empty_table))
  = [(1, read_row)].
Proof.
  rewrite upsertMessage_idempotent; [reflexivity|].
  repeat split; simpl; constructor.
Defined.

Lemma find_app_cases {A} (p : A -> bool) (l1 l2 : list A) :
  find p (l1 ++ l2)
  = match find p l1 with Some y => Some y | None => find p l2 end.
Proof.
  induction l1 as [|x l1 IH]; simpl; [done|]. by destruct (p x).
Qed.

(** Writing one message leaves the rows of the other messages findable. *)
Lemma upsertMessage_other msg t lid :
  messages_table_ok t -> lid <> localId msg ->
  first_by_localId lid (upsertMessage msg t) = first_by_localId lid t.
Proof.
  intros Hok Hne.
  destruct (first_by_localId (localId msg) t) as [[id old]|] eqn:Hf.
  - destruct (upsertMessage_existing msg t id old Hok Hf)
      as (pre & post & Hr & Hr' & _ & Hl & _).
    unfold first_by_localId. rewrite Hr, Hr', !find_app_cases. simpl.
    rewrite Hl. by destruct (String.eqb_spec (localId msg) lid) as [E|_];
      [destruct Hne|].
  - unfold upsertMessage. rewrite Hf. unfold first_by_localId, table_add. simpl.
    rewrite find_app_cases. simpl.
    destruct (String.eqb_spec (localId msg) lid) as [E|_]; [by destruct Hne|].
    by destruct (find _ (t_rows t)).
Qed.

Lemma messages_table_ok_bulk msgs t :
  messages_table_ok t -> messages_table_ok (bulkUpsertMessages msgs t).
Proof.
  unfold bulkUpsertMessages. revert t.
  induction msgs as [|m msgs IH]; intros t Hok; simpl; [done|].
  by apply IH, messages_table_ok_upsert.
Qed.

(** X20. [bulkUpsertMessages] writes the messages one after the other in
    one transaction: the table still honours its keys and its unique
    index, adds at most one row per message, and holds a row for every
    message of the list; when the list carries each [localId] once, the row
    of each message agrees with it on every field (whatever was stored
    before, its status included), and the rows of messages that are not in
    the list are found as they were. *)
Theorem bulkUpsertMessages_stores (msgs : list ChatMessage)
  (t : Table ChatMessage) :
  messages_table_ok t ->
  let t' := bulkUpsertMessages msgs t in
  messages_table_ok t'
  /\ (length (t_rows t') <= length (t_rows t) + length msgs)%nat
  /\ (forall m, m ∈ msgs -> is_Some (first_by_localId (localId m) t'))
  /\ (NoDup (localId <$> msgs) ->
      forall m, m ∈ msgs ->
        exists id stored, first_by_localId (localId m) t' = Some (id, stored)
                          /\ agrees_with m stored)
  /\ (forall lid, lid ∉ localId <$> msgs ->
        first_by_localId lid t' = first_by_localId lid t).
Proof.
  intros Hok t'. subst t'. split; [by apply messages_table_ok_bulk|].
  unfold bulkUpsertMessages. revert t Hok.
  induction msgs as [|m msgs IH]; intros t Hok.
  { simpl. split; [lia|]. split; [by inversion 1|].
    split; [intros _ m Hm; by inversion Hm | done]. }
  simpl.
  pose proof (messages_table_ok_upsert m t Hok) as Hok1.
  destruct (IH _ Hok1) as (Hlen & Hsome & Hagree & Hother).
  destruct (upsertMessage_find m t Hok) as [Hins Hupd].
  assert (Hstored : exists id stored,
            first_by_localId (localId m) (upsertMessage m t) = Some (id, stored)
            /\ agrees_with m stored
            /\ (length (t_rows (upsertMessage m t)) <= S (length (t_rows t)))%nat).
  { destruct (first_by_localId (localId m) t) as [[id old]|] eqn:Hf.
    - destruct (Hupd id old eq_refl) as (H & Hk).
      exists id, (update_message m old). split; [done|].
      split; [apply update_message_twice|].
      rewrite <- (length_fmap fst), Hk, length_fmap. lia.
    - destruct (Hins eq_refl) as (Hr & H). exists (t_next t), m.
      split; [done|]. split; [apply update_message_self|].
      rewrite Hr, length_app. simpl. lia. }
  destruct Hstored as (id0 & stored0 & Hf0 & Hag0 & Hlen0).
  split; [lia|]. split; [|split].
  - intros x Hx. apply elem_of_cons in Hx as [->|Hx]; [|by apply Hsome].
    destruct (decide (localId m ∈ localId <$> msgs)) as [Hin|Hnin].
    + apply list_elem_of_fmap in Hin as (y & Hy & Hin). rewrite Hy.
      by apply Hsome.
    + rewrite Hother by done. rewrite Hf0. by eexists.
  - intros Hnd x Hx. change (NoDup (localId m :: (localId <$> msgs))) in Hnd.
    apply NoDup_cons in Hnd as [Hnin Hnd].
    apply elem_of_cons in Hx as [->|Hx]; [|by apply Hagree].
    exists id0, stored0. by rewrite Hother.
  - intros lid Hlid. change (lid ∉ localId m :: (localId <$> msgs)) in Hlid.
    rewrite not_elem_of_cons in Hlid.
    destruct Hlid as [Hne Hnin].
    rewrite Hother by done. by apply upsertMessage_other.
Qed.

(** X20, for the history of bob written over a stored row at [Read]. *)
Lemma bulkUpsertMessages_stores_witness :
  let t := upsertMessage (with_status Read from_bob) empty_table in
  exists id stored,
    first_by_localId "m1" (bulkUpsertMessages [from_bob] t) = Some (id, stored)
    /\ status stored = Delivered.
Proof.
  intros t.
  assert (Hok : messages_table_ok t).
  { apply messages_table_ok_upsert. repeat split; simpl; constructor. }
  destruct (bulkUpsertMessages_stores [from_bob] t Hok) as (_ & _ & _ & Hag & _).
  destruct (Hag (NoDup_singleton _) from_bob (list_elem_of_here _ _))
    as (id & stored & Hf & Ha).
  exists id, stored. split; [exact Hf|].
  unfold agrees_with in Ha. by rewrite <- Ha.
Defined.

(** X21. [getRecentMessagesForHydration] returns the 1000 rows with the
    greatest keys, in ascending order of key: the rows of the table from
    position length - 1000 on. A table of at most 1000 rows is returned
    whole and in order; of a larger one the oldest rows are left out. *)
Theorem hydration_query_is_recent_suffix (t : Table ChatMessage) :
  getRecentMessagesForHydration t
  = drop (length (t_rows t) - 1000) (t_rows t)
  /\ length (getRecentMessagesForHydration t)
     = Nat.min 1000 (length (t_rows t))
  /\ ((length (t_rows t) <= 1000)%nat ->
      getRecentMessagesForHydration t = t_rows t)
  /\ (forall i r, ((i + 1000 < length (t_rows t))%nat) ->
        t_rows t !! i = Some r ->
        NoDup (fst <$> t_rows t) ->
        r ∉ getRecentMessagesForHydration t).
Proof.
  assert (E : getRecentMessagesForHydration t
              = drop (length (t_rows t) - 1000) (t_rows t)).
  { unfold getRecentMessagesForHydration.
    rewrite List.firstn_rev. apply List.rev_involutive. }
  split; [exact E|]. split; [|split].
  - rewrite E, length_drop. lia.
  - intros Hle. rewrite E.
    replace (length (t_rows t) - 1000)%nat with 0%nat by lia. done.
  - intros i r Hi Hr Hnd Hin. rewrite E in Hin.
    apply list_elem_of_lookup in Hin as [j Hj]. rewrite lookup_drop in Hj.
    assert (Hij : i = (length (t_rows t) - 1000 + j)%nat).
    { eapply NoDup_lookup; [exact Hnd| |].
      - by rewrite list_lookup_fmap, Hr.
      - by rewrite list_lookup_fmap, Hj. }
    lia.
Qed.

(** X21, for a table of two rows. *)
Lemma hydration_query_is_recent_suffix_witness :
  getRecentMessagesForHydration
    (bulkUpsertMessages [read_row; from_bob] empty_table)
  = [(1, read_row); (2, from_bob)].
Proof.
  destruct (hydration_query_is_recent_suffix
              (bulkUpsertMessages [read_row; from_bob] empty_table))
    as (_ & _ & Hall & _).
  rewrite Hall; [reflexivity | simpl; lia].
Defined.

Lemma foldl_bulk_fresh msgs m :
  NoDup (localId <$> msgs) ->
  (forall x, x ∈ msgs ->
     has_localId (localId x) (default [] (m !! chatId x)) = false) ->
  forall x, x ∈ msgs -> x ∈ default [] (foldl bulk_add_one m msgs !! chatId x).
Proof.
  revert m. induction msgs as [|y msgs IH]; intros m Hnd Hfresh x Hx;
    [by inversion Hx|].
  rewrite fmap_cons in Hnd. apply NoDup_cons in Hnd as [Hnin Hnd]. simpl.
  assert (Hy : y ∈ default [] (bulk_add_one m y !! chatId y)).
  { rewrite bulk_add_one_bucket. destruct (decide (chatId y = chatId y)); [|done].
    rewrite (Hfresh y) by apply list_elem_of_here.
    apply elem_of_app. right. apply list_elem_of_here. }
  apply elem_of_cons in Hx as [->|Hx]; [by apply foldl_bulk_elem|].
  apply IH; [done| |done].
  intros z Hz. rewrite bulk_add_one_bucket.
  destruct (decide (chatId y = chatId z)) as [Hc|Hc];
    [|by apply Hfresh, list_elem_of_further].
  replace (has_localId (localId y) (default [] (m !! chatId z))) with false.
  2: { symmetry. rewrite <- Hc. apply Hfresh, list_elem_of_here. }
  rewrite has_localId_app. rewrite (Hfresh z) by (by apply list_elem_of_further).
  unfold has_localId. simpl. rewrite orb_false_r. apply String.eqb_neq.
  intros Heq. apply Hnin. rewrite Heq. apply list_elem_of_fmap. by exists z.
Qed.

(** Hydration from a table of at most 1000 rows finds every stored row. *)
Lemma hydrate_small_table (t : Table ChatMessage) :
  messages_table_ok t -> (length (t_rows t) <= 1000)%nat ->
  forall r, r ∈ t_rows t ->
    lookup_message
      (reducer initialState (DB_HYDRATED (snd <$> getRecentMessagesForHydration t)))
      (chatId (snd r)) (localId (snd r)) = Some (snd r).
Proof.
  intros ((Hk & _) & Hu) Hle r Hr.
  assert (E : getRecentMessagesForHydration t = t_rows t).
  { unfold getRecentMessagesForHydration.
    rewrite List.firstn_rev, List.rev_involutive.
    replace (length (t_rows t) - 1000)%nat with 0%nat by lia. done. }
  rewrite E.
  unfold lookup_message, bucket_of. simpl. rewrite foldl_hydrate_bulk.
  assert (Hnd : NoDup (localId <$> (snd <$> t_rows t))).
  { by rewrite <- list_fmap_compose. }
  assert (Hin : snd r ∈ snd <$> t_rows t).
  { apply list_elem_of_fmap. by exists r. }
  apply find_localId_unique.
  - apply unique_map_bucket, unique_map_sort_all, unique_map_foldl_bulk.
    apply map_Forall_empty.
  - rewrite sort_all_bucket. apply foldl_bulk_fresh; [done| |done].
    intros x _. by rewrite lookup_empty.
Qed.

(** X22. What was persisted comes back. For a table that honours its keys
    and its unique index and holds at most 1000 rows, hydrating the initial
    snapshot with the result of [getRecentMessagesForHydration] puts every
    stored message into the bucket of its conversation, found under its
    [localId] exactly as stored; and of a larger table a row beyond the
    1000 most recent is not in memory afterwards. *)
Theorem hydration_round_trip (t : Table ChatMessage) :
  messages_table_ok t ->
  let s' := reducer initialState
              (DB_HYDRATED (snd <$> getRecentMessagesForHydration t)) in
  ((length (t_rows t) <= 1000)%nat ->
   forall r, r ∈ t_rows t ->
     lookup_message s' (chatId (snd r)) (localId (snd r)) = Some (snd r))
  /\ (forall i r, (i + 1000 < length (t_rows t))%nat ->
        t_rows t !! i = Some r ->
        forall c, lookup_message s' c (localId (snd r)) = None).
Proof.
  intros Hok s'. split; [by apply hydrate_small_table|].
  destruct Hok as ((Hk & _) & Hu).
  assert (Ed : getRecentMessagesForHydration t
               = drop (length (t_rows t) - 1000) (t_rows t)).
  { unfold getRecentMessagesForHydration.
    rewrite List.firstn_rev. apply List.rev_involutive. }
  intros i r Hi Hr c. subst s'. rewrite Ed.
    unfold lookup_message, bucket_of. simpl. rewrite foldl_hydrate_bulk.
    destruct (find _ _) as [x|] eqn:Hf; [|done]. exfalso.
    apply find_localId_elem in Hf as [Hx Hl].
    rewrite sort_all_bucket in Hx.
    apply foldl_bulk_origin in Hx as [Hx|Hx];
      [by rewrite lookup_empty in Hx; inversion Hx|].
    apply list_elem_of_fmap in Hx as (r' & -> & Hr').
    apply list_elem_of_lookup in Hr' as [j Hj]. rewrite lookup_drop in Hj.
    assert (Hij : i = (length (t_rows t) - 1000 + j)%nat).
    { eapply NoDup_lookup; [exact Hu| |].
      - by rewrite list_lookup_fmap, Hr.
      - rewrite list_lookup_fmap, Hj. simpl. by rewrite Hl. }
    lia.
Qed.

(** X22, for the two rows written above. *)
Lemma hydration_round_trip_witness :
  let t := bulkUpsertMessages [read_row; from_bob] empty_table in
  lookup_message
    (reducer initialState (DB_HYDRATED (snd <$> getRecentMessagesForHydration t)))
    "dm:alice:bob" "m1" = Some from_bob.
Proof.
  intros t.
  assert (Hok : messages_table_ok t).
  { apply messages_table_ok_bulk. repeat split; simpl; constructor. }
  destruct (hydration_round_trip t Hok) as [Hback _].
  apply (Hback ltac:(simpl; lia) (2, from_bob)).
  apply list_elem_of_further, list_elem_of_here.
Defined.

(** Updating the rows of a list of keys by an idempotent change is one
    pass over the table. *)
Lemma foldl_table_update {A} (f : A -> A) (marks : list (Z * A)) (t : Table A) :
  (forall x, f (f x) = f x) ->
  t_rows (foldl (fun t' r => table_update (fst r) f t') t marks)
  = map (fun r => if bool_decide (fst r ∈ fst <$> marks)
                  then (fst r, f (snd r)) else r) (t_rows t)
  /\ t_next (foldl (fun t' r => table_update (fst r) f t') t marks) = t_next t.
Proof.
  intros Hf. revert t. induction marks as [|m marks IH]; intros t.
  - split; [|done]. cbn [foldl]. symmetry.
    etrans; [|apply (map_id (t_rows t))].
    apply map_ext. intros r. rewrite bool_decide_eq_false_2; [done|].
    rewrite fmap_nil. apply not_elem_of_nil.
  - destruct (IH (table_update (fst m) f t)) as [E1 E2]. split; [|exact E2].
    etrans; [exact E1|]. unfold table_update. cbn [t_rows].
    rewrite map_map. apply map_ext. intros r. cbv beta. rewrite fmap_cons.
    destruct (Z.eqb_spec (fst r) (fst m)) as [Heq|Hne]; cbn [fst snd].
    + rewrite (bool_decide_eq_true_2 (fst r ∈ fst m :: (fst <$> marks)));
        [|rewrite Heq; apply list_elem_of_here].
      destruct (bool_decide _); by rewrite ?Hf.
    + destruct (bool_decide (fst r ∈ fst <$> marks)) eqn:E.
      * apply bool_decide_eq_true in E.
        rewrite bool_decide_eq_true_2; [done|]. by apply list_elem_of_further.
      * apply bool_decide_eq_false in E.
        rewrite bool_decide_eq_false_2; [done|].
        rewrite elem_of_cons. by intros [?|?].
Qed.

(** The rows after [markChatRead], and that none is left unread. *)
Lemma markChatRead_rows (cid reader : string) (t : Table ChatMessage) :
  NoDup (fst <$> t_rows t) ->
  t_rows (markChatRead cid reader t)
  = map (fun r => if String.eqb (chatId (snd r)) cid && is_unread reader (snd r)
                  then (fst r, with_status Read (snd r)) else r) (t_rows t)
  /\ t_next (markChatRead cid reader t) = t_next t.
Proof.
  intros Hnd. unfold markChatRead.
  set (p := fun r : Z * ChatMessage =>
              String.eqb (chatId (snd r)) cid && is_unread reader (snd r)).
  destruct (foldl_table_update (with_status Read) (List.filter p (t_rows t)) t)
    as [Er En]; [done|].
  split; [|exact En]. rewrite Er. apply map_ext_in. intros r Hr.
  change (String.eqb (chatId (snd r)) cid && is_unread reader (snd r)) with (p r).
  destruct (p r) eqn:Ep.
  - rewrite bool_decide_eq_true_2; [done|].
    apply list_elem_of_fmap. exists r. split; [done|].
    apply list_elem_of_In, filter_In. by split.
  - rewrite bool_decide_eq_false_2; [done|]. intros Hin.
    apply list_elem_of_fmap in Hin as (r' & Hk & Hr').
    apply list_elem_of_In, filter_In in Hr' as [Hr' Hp'].
    assert (r = r'); [|congruence].
    apply list_elem_of_In, list_elem_of_lookup in Hr as [i Hi].
    apply list_elem_of_In, list_elem_of_lookup in Hr' as [j Hj].
    assert (i = j); [|congruence].
    eapply NoDup_lookup; [exact Hnd| |];
      rewrite list_lookup_fmap; [by rewrite Hi | by rewrite Hj, Hk].
Qed.

Lemma markChatRead_no_unread (cid reader : string) (t : Table ChatMessage) :
  NoDup (fst <$> t_rows t) ->
  forall r, r ∈ t_rows (markChatRead cid reader t) -> chatId (snd r) = cid ->
    is_unread reader (snd r) = false.
Proof.
  intros Hnd r Hr Hc.
  rewrite (proj1 (markChatRead_rows cid reader t Hnd)) in Hr.
  apply list_elem_of_In, in_map_iff in Hr as (r0 & Hr0 & _).
  destruct (String.eqb (chatId (snd r0)) cid && is_unread reader (snd r0)) eqn:Ep.
  - subst r. simpl. unfold is_unread. simpl. apply andb_false_r.
  - subst r. rewrite Hc, String.eqb_refl in Ep. exact Ep.
Qed.

(** X23. [markChatRead] on a table whose keys are not repeated: row by
    row, a message of the conversation that the reader did not send and
    that is not read becomes read, and every other row - the reader's own
    messages, the other conversations, what was read already - is as it
    was; no row is added, removed or moved, and afterwards the
    conversation has no unread row for the reader. *)
Theorem markChatRead_marks (cid reader : string) (t : Table ChatMessage) :
  NoDup (fst <$> t_rows t) ->
  let t' := markChatRead cid reader t in
  t_rows t'
  = map (fun r => if String.eqb (chatId (snd r)) cid && is_unread reader (snd r)
                  then (fst r, with_status Read (snd r)) else r) (t_rows t)
  /\ t_next t' = t_next t
  /\ fst <$> t_rows t' = fst <$> t_rows t
  /\ (forall r, r ∈ t_rows t' -> chatId (snd r) = cid ->
        is_unread reader (snd r) = false).
Proof.
  intros Hnd t'. subst t'.
  destruct (markChatRead_rows cid reader t Hnd) as [Hrows En].
  split; [exact Hrows|]. split; [exact En|]. split.
  - rewrite Hrows. clear. induction (t_rows t) as [|r l IH]; [done|].
    cbn [map]. rewrite !fmap_cons, IH. cbv beta.
    by destruct (String.eqb (chatId (snd r)) cid && is_unread reader (snd r)).
  - by apply markChatRead_no_unread.
Qed.

(** X23, for the stored message of bob read by alice. *)
Lemma markChatRead_marks_witness :
  let t := bulkUpsertMessages [read_row; from_bob] empty_table in
  t_rows (markChatRead "dm:alice:bob" "alice" t)
  = [(1, read_row); (2, with_status Read from_bob)].
Proof.
  intros t.
  destruct (markChatRead_marks "dm:alice:bob" "alice" t) as (Hr & _).
  { apply (bool_decide_unpack _). by vm_compute. }
  rewrite Hr. reflexivity.
Defined.

(** X24. [upsertContact] on a table that honours its keys and its unique
    index on the username: the table still does. A new username is
    inserted as given, as the last row. For a known username the row keeps
    its key, its username and the time it was added; its nickname becomes
    the one given; its avatar colour becomes the one given only when one is
    given (and not empty), and stays otherwise. The rows of the other
    contacts are as they were. *)
Theorem upsertContact_keeps_addedAt (contact : DbContact) (t : Table DbContact) :
  contacts_table_ok t ->
  let t' := upsertContact contact t in
  let by_name c := find (fun r => String.eqb (c_username (snd r)) (c_username c)) in
  contacts_table_ok t'
  /\ (by_name contact (t_rows t) = None ->
      t_rows t' = t_rows t ++ [(t_next t, contact)])
  /\ (forall id old, by_name contact (t_rows t) = Some (id, old) ->
      by_name contact (t_rows t') = Some (id, update_contact contact old)
      /\ c_addedAt (update_contact contact old) = c_addedAt old
      /\ c_nickname (update_contact contact old) = c_nickname contact
      /\ (truthy_opt (c_avatarColor contact) = false ->
          c_avatarColor (update_contact contact old) = c_avatarColor old)
      /\ length (t_rows t') = length (t_rows t))
  /\ (forall r, r ∈ t_rows t -> c_username (snd r) <> c_username contact ->
        r ∈ t_rows t').
Proof.
  intros ((Hk & Hb) & Hu) t' by_name. subst t' by_name. unfold upsertContact.
  destruct (find _ (t_rows t)) as [[id old]|] eqn:Hf.
  - destruct (find_split _ _ _ Hf) as (pre & post & Hr & Hpre & Hx).
    simpl in Hx. apply String.eqb_eq in Hx.
    assert (Hr' : t_rows (table_update id (update_contact contact) t)
                  = pre ++ (id, update_contact contact old) :: post).
    { destruct t as [rows next]. simpl in *. subst rows.
      exact (table_update_split (update_contact contact) pre post id old next Hk). }
    simpl fst. rewrite Hr'. rewrite Hr in Hk, Hb, Hu.
    split; [|split; [done|split]].
    + unfold contacts_table_ok, table_keys_ok. rewrite Hr'.
      rewrite !fmap_app, !fmap_cons in *. simpl in *.
      split; [split; [done|]|done].
      apply Forall_app in Hb as [Hb1 Hb2]. apply Forall_app. split; [done|].
      apply Forall_cons in Hb2 as [Hb2 Hb3]. by constructor.
    + intros id' old' [= <- <-]. split.
      * rewrite find_app_skip by done. simpl. by rewrite Hx, String.eqb_refl.
      * split; [done|]. split; [done|]. split.
        -- intros Hc. simpl. by rewrite Hc.
        -- rewrite Hr, !length_app. done.
    + intros r Hin Hne. rewrite Hr in Hin. rewrite elem_of_app, elem_of_cons in *.
      destruct Hin as [Hin|[->|Hin]]; [by left | | by right; right].
      simpl in Hne. by destruct Hne.
  - split; [|split; [done|split; [done|]]].
    + unfold contacts_table_ok, table_keys_ok, table_add. simpl.
      rewrite !fmap_app. simpl. split; [split|].
      * apply NoDup_app. split; [done|]. split; [|apply NoDup_singleton].
        intros k Hk1 Hk2. apply list_elem_of_singleton in Hk2. subst k.
        apply list_elem_of_fmap in Hk1 as (r & Hr1 & Hr2).
        apply (proj1 (Forall_forall _ _) Hb) in Hr2. lia.
      * apply Forall_app. split.
        -- eapply Forall_impl; [exact Hb|]. simpl. intros r Hr. lia.
        -- repeat constructor. simpl. lia.
      * apply NoDup_app. split; [done|]. split; [|apply NoDup_singleton].
        intros l Hl1 Hl2. apply list_elem_of_singleton in Hl2. subst l.
        apply list_elem_of_fmap in Hl1 as (r & Hr1 & Hr2).
        apply find_none_forall in Hf.
        apply (proj1 (Forall_forall _ _) Hf) in Hr2.
        apply String.eqb_neq in Hr2. by destruct Hr2.
    + intros r Hin _. simpl. apply elem_of_app. by left.
Qed.

(** X24, for bob, added by hand with a colour and met again through an
    incoming message, which brings his username as nickname and no
    colour. *)
Lemma upsertContact_keeps_addedAt_witness :
  let first := mkDbContact "bob" "Bobby" (Some "bg-rose-600") 5 in
  let again := mkDbContact "bob" "bob" None 9 in
  find (fun r => String.eqb (c_username (snd r)) "bob")
    (t_rows (upsertContact again (upsertContact first empty_table)))
  = Some (1, mkDbContact "bob" "bob" (Some "bg-rose-600") 5).
Proof.
  intros first again.
  assert (Hok : contacts_table_ok (upsertContact first empty_table)).
  { repeat split; simpl; repeat constructor; try lia; by inversion 1. }
  destruct (upsertContact_keeps_addedAt again _ Hok) as (_ & _ & Hupd & _).
  exact (proj1 (Hupd 1 first eq_refl)).
Defined.

Lemma markAsRead_no_receipt (toLowerCase : string -> string) peer rows h :
  receipt_ids (me h) rows = [] -> markAsRead toLowerCase peer rows h = h.
Proof.
  intros E. unfold markAsRead.
  assert (Eids : map resolved_id
                   (filter (fun m => negb (String.eqb (senderUsername m) (me h))
                                     && negb (bool_decide (status m = Read))
                                     && truthy (resolved_id m) = true) rows)
                 = []).
  { rewrite <- E. unfold receipt_ids. by rewrite filter_bool_eq. }
  rewrite Eids. by destruct (negb _).
Qed.

(** X25. Marking the store makes the next [markAsRead] silent. Once
    [markChatRead] has run on the conversation with a peer, the rows that
    [markAsRead] reads from the store hold nothing unread of the peer: the
    list of receipt identifiers is empty, and the call leaves the hook as it
    was - no second [mark_read] frame for the same messages, no dispatch. *)
Theorem markChatRead_silences_markAsRead (toLowerCase : string -> string)
  (peer : string) (t : Table ChatMessage) (h : Hook) :
  NoDup (fst <$> t_rows t) ->
  let cid := dmChatId toLowerCase (me h) peer in
  let rows := messages_where_chatId cid (markChatRead cid (me h) t) in
  receipt_ids (me h) rows = []
  /\ markAsRead toLowerCase peer rows h = h.
Proof.
  intros Hnd cid rows.
  assert (E : receipt_ids (me h) rows = []).
  { pose proof (markChatRead_no_unread cid (me h) t Hnd) as Hread.
    subst rows. unfold receipt_ids, messages_where_chatId.
    set (t' := markChatRead cid (me h) t) in *. clearbody t'.
    induction (t_rows t') as [|r l IH]; [done|]. simpl.
    destruct (String.eqb_spec (chatId (snd r)) cid) as [Hc|Hc].
    - simpl. rewrite (Hread r (list_elem_of_here _ _) Hc). simpl.
      apply IH. intros r' Hr'. apply Hread. by apply list_elem_of_further.
    - apply IH. intros r' Hr'. apply Hread. by apply list_elem_of_further. }
  split; [exact E | by apply markAsRead_no_receipt].
Qed.

(** X25, for alice and bob: before the store is marked the receipt for m1
    is due; after it the call does nothing. *)
Lemma markChatRead_silences_markAsRead_witness :
  let t := bulkUpsertMessages [read_row; from_bob] empty_table in
  receipt_ids "alice" (messages_where_chatId "dm:alice:bob" t) = ["m1"]
  /\ markAsRead id_string "bob"
       (messages_where_chatId "dm:alice:bob"
          (markChatRead "dm:alice:bob" "alice" t)) fresh_hook
     = fresh_hook.
Proof.
  intros t. split; [vm_compute; reflexivity|].
  assert (Hnd : NoDup (fst <$> t_rows t)).
  { apply (bool_decide_unpack _). by vm_compute. }
  exact (proj2 (markChatRead_silences_markAsRead id_string "bob" t fresh_hook Hnd)).
Defined.

Lemma NoDup_fmap_filter {A B} (f : A -> B) (p : A -> bool) (l : list A) :
  NoDup (f <$> l) -> NoDup (f <$> List.filter p l).
Proof.
  induction l as [|x l IH]; [done|]. rewrite fmap_cons. intros Hnd.
  apply NoDup_cons in Hnd as [Hx Hnd]. cbn [List.filter].
  destruct (p x); [|by apply IH].
  rewrite fmap_cons. apply NoDup_cons. split; [|by apply IH].
  intros Hin. apply Hx. apply list_elem_of_fmap in Hin as (y & -> & Hy).
  apply list_elem_of_fmap. exists y. split; [done|].
  apply list_elem_of_In, filter_In in Hy as [Hy _]. by apply list_elem_of_In.
Qed.

Lemma filter_none {A} (p : A -> bool) (l : list A) :
  (forall x, x ∈ l -> p x = false) -> List.filter p l = [].
Proof.
  induction l as [|x l IH]; intros H; [done|]. cbn [List.filter].
  rewrite (H x) by apply list_elem_of_here.
  apply IH. intros y Hy. by apply H, list_elem_of_further.
Qed.

Lemma messages_table_ok_clear cid t :
  messages_table_ok t -> messages_table_ok (clearChatMessages cid t).
Proof.
  intros ((Hk & Hb) & Hu).
  unfold messages_table_ok, table_keys_ok, clearChatMessages. cbn [t_rows t_next].
  split; [split|]; [by apply NoDup_fmap_filter | | by apply NoDup_fmap_filter].
  apply Forall_forall. intros r Hr.
  apply list_elem_of_In, filter_In in Hr as [Hr _].
  apply (proj1 (Forall_forall _ _) Hb). by apply list_elem_of_In.
Qed.

(** Where the messages of a hydrated snapshot come from. *)
Lemma hydrated_origin (rows : list ChatMessage) c x :
  x ∈ bucket_of (reducer initialState (DB_HYDRATED rows)) c ->
  x ∈ rows /\ chatId x = c.
Proof.
  intros Hx.
  assert (Hwb : well_bucketed (reducer initialState (DB_HYDRATED rows))).
  { apply reducer_well_bucketed, map_Forall_empty. }
  split.
  - unfold bucket_of in Hx. simpl in Hx. rewrite foldl_hydrate_bulk in Hx.
    rewrite sort_all_bucket in Hx.
    apply foldl_bulk_origin in Hx as [Hx|Hx]; [|done].
    rewrite lookup_empty in Hx. by inversion Hx.
  - unfold bucket_of in Hx.
    destruct (messages (reducer initialState (DB_HYDRATED rows)) !! c)
      as [b|] eqn:E; [|by inversion Hx].
    destruct (Hwb c b E) as [_ Hall].
    by apply (proj1 (Forall_forall _ _) Hall).
Qed.

(** X26. A cleared conversation does not come back. After
    [clearChatMessages] (the statement [clearChat] runs on the store) the
    table still honours its keys and its unique index, its key generator
    is where it was (the keys of the deleted rows are not given again), and
    it holds no row of the conversation; hydrating the initial snapshot
    from it gives the conversation no bucket, while - the table holding at
    most 1000 rows - every stored message of the other conversations is
    found in memory as stored. *)
Theorem clearChatMessages_forgets (cid : string) (t : Table ChatMessage) :
  messages_table_ok t ->
  let t' := clearChatMessages cid t in
  let s' := reducer initialState
              (DB_HYDRATED (snd <$> getRecentMessagesForHydration t')) in
  messages_table_ok t'
  /\ t_next t' = t_next t
  /\ messages_where_chatId cid t' = []
  /\ bucket_of s' cid = []
  /\ ((length (t_rows t') <= 1000)%nat ->
      forall r, r ∈ t_rows t -> chatId (snd r) <> cid ->
        lookup_message s' (chatId (snd r)) (localId (snd r)) = Some (snd r)).
Proof.
  intros Hok t' s'.
  assert (Hok' : messages_table_ok t') by (by apply messages_table_ok_clear).
  assert (Hgone : forall r, r ∈ t_rows t' -> chatId (snd r) <> cid).
  { intros r Hr. apply list_elem_of_In, filter_In in Hr as [_ Hr].
    apply negb_true_iff in Hr. by apply String.eqb_neq. }
  assert (Hkept : forall r, r ∈ t_rows t -> chatId (snd r) <> cid -> r ∈ t_rows t').
  { intros r Hr Hc. apply list_elem_of_In, filter_In. split.
    - by apply list_elem_of_In.
    - apply negb_true_iff. by apply String.eqb_neq. }
  split; [exact Hok'|]. split; [done|]. split; [|split].
  - unfold messages_where_chatId. rewrite filter_none; [done|].
    intros r Hr. apply String.eqb_neq. by apply Hgone.
  - destruct (bucket_of s' cid) as [|x b] eqn:E; [done|]. exfalso.
    assert (Hx : x ∈ bucket_of s' cid) by (rewrite E; apply list_elem_of_here).
    apply hydrated_origin in Hx as [Hx Hc].
    apply list_elem_of_fmap in Hx as (r & -> & Hr).
    apply (Hgone r); [|done].
    unfold getRecentMessagesForHydration in Hr.
    rewrite List.firstn_rev, List.rev_involutive in Hr.
    apply list_elem_of_lookup in Hr as [j Hj]. rewrite lookup_drop in Hj.
    by apply list_elem_of_lookup_2 in Hj.
  - intros Hle r Hr Hc. apply hydrate_small_table; [done | done | by apply Hkept].
Qed.

(** X26, for alice's store with a message of bob and one of carol: the
    conversation with bob is cleared, the message of carol comes back. *)
Lemma clearChatMessages_forgets_witness :
  let of_carol := mkChatMessage "m2" None "dm:alice:carol" "carol" "alice" "yo"
                    200 Delivered in
  let t := bulkUpsertMessages [from_bob; of_carol] empty_table in
  let t' := clearChatMessages "dm:alice:bob" t in
  let s' := reducer initialState
              (DB_HYDRATED (snd <$> getRecentMessagesForHydration t')) in
  bucket_of s' "dm:alice:bob" = []
  /\ lookup_message s' "dm:alice:carol" "m2" = Some of_carol.
Proof.
  intros of_carol t t' s'.
  assert (Hok : messages_table_ok t).
  { apply messages_table_ok_bulk. repeat split; simpl; constructor. }
  destruct (clearChatMessages_forgets "dm:alice:bob" t Hok)
    as (_ & _ & _ & Hb & Hback).
  split; [exact Hb|].
  apply (Hback ltac:(simpl; lia) (2, of_carol)).
  - apply list_elem_of_further, list_elem_of_here.
  - discriminate.
Defined.
